(** * Zarf image pull, command execution and CLI pre-run: a shallow embedding

    The development follows three Go sources of the repository:
    - package [images] ([checkForIndex], [Pull], [CleanupInProgressLayers],
      [getSizeOfImage], [SaveSequential], [SaveConcurrent]),
    - package [exec] ([Cmd], [CmdWithPrint], [CmdWithContext]),
    - package [cmd] ([preRun], [setupLogger], [SetupMessage]).

    Go values are modelled as follows.  An [error] is its message
    ([err.Error()]); a pair [(T, error)] is a [result T]; [int64] is a [Z]
    with the wrap-around of two's complement written out; a Go [string] is a
    [string] of bytes; a Go map is a [gmap] together with an iteration order
    chosen by the scheduler; calls that leave the process (registry, docker
    daemon, file system of the OCI layout) are oracles of an environment
    record and every such call is appended to a log. *)

From Stdlib Require Import ZArith String Ascii Lia.
From stdpp Require Import gmap strings list sorting pretty.

Local Open Scope Z_scope.

(** ** Go basics *)

Module Go.

(** [error]: [None] is [nil]. *)
Definition error := option string.

(** [(T, error)] as returned by a fallible call. *)
Inductive result (A : Type) : Type :=
| Ok (a : A)
| Err (msg : string).
Global Arguments Ok {A} a.
Global Arguments Err {A} msg.

Definition is_ok {A} (r : result A) : bool :=
  match r with Ok _ => true | Err _ => false end.

Definition nl : string := String (ascii_of_nat 10) EmptyString.

Definition str_len (s : string) : nat := String.length s.

(** [strings.HasPrefix(s, prefix)] *)
Definition HasPrefix (s pre : string) : bool := String.prefix pre s.

(** [strings.HasSuffix(s, suffix)]:
    [len(s) >= len(suffix) && s[len(s)-len(suffix):] == suffix] *)
Definition HasSuffix (s suf : string) : bool :=
  (str_len suf <=? str_len s)%nat
  && String.eqb (String.substring (str_len s - str_len suf) (str_len suf) s) suf.

(** [strings.Index(s, substr)] *)
Definition Index (s sub : string) : option nat := String.index 0 sub s.

(** [strings.Contains(s, substr)] *)
Definition Contains (s sub : string) : bool :=
  match Index s sub with Some _ => true | None => false end.

(** [strings.Replace(s, old, new, 1)]: the first occurrence of [old] is
    replaced; an empty [old] matches at the beginning of the string. *)
Definition Replace1 (s old new : string) : string :=
  match Index s old with
  | None => s
  | Some j =>
      String.substring 0 j s +:+ new
      +:+ String.substring (j + str_len old) (str_len s - (j + str_len old)) s
  end.

(** [strings.Join(elems, sep)] *)
Fixpoint Join (elems : list string) (sep : string) : string :=
  match elems with
  | [] => ""
  | [x] => x
  | x :: rest => x +:+ sep +:+ Join rest sep
  end.

(** [strings.Split(s, sep)] for a separator of one byte. *)
Fixpoint SplitByte (s : string) (sep : ascii) : list string :=
  match s with
  | EmptyString => [EmptyString]
  | String c rest =>
      if Ascii.eqb c sep then EmptyString :: SplitByte rest sep
      else match SplitByte rest sep with
           | [] => [String c EmptyString]
           | x :: xs => String c x :: xs
           end
  end.

(** [int64]: values live in [-2^63, 2^63) and arithmetic wraps. *)
Definition int64_min : Z := - 2 ^ 63.
Definition int64_max : Z := 2 ^ 63 - 1.
Definition is_int64 (z : Z) : Prop := int64_min <= z <= int64_max.
Definition wrap64 (z : Z) : Z := (z + 2 ^ 63) mod 2 ^ 64 - 2 ^ 63.
Definition add64 (a b : Z) : Z := wrap64 (a + b).

End Go.
Import Go.

(** ** Package exec *)

Module Exec.

(** [exec.Config] *)
Record Config := {
  Print : bool;
  Dir : string;
  Env : list string
}.

(** [PrintCfg()] *)
Definition PrintCfg : Config := {| Print := true; Dir := ""; Env := [] |}.

(** [Config{}] *)
Definition zeroConfig : Config := {| Print := false; Dir := ""; Env := [] |}.

(** What the operating system does with a started command. *)
Record Process := {
  start_err : error;        (* cmd.Start() *)
  proc_stdout : string;     (* bytes the child writes to its stdout *)
  proc_stderr : string;
  copy_stdout_err : error;  (* io.Copy(stdout, cmdStdout) *)
  copy_stderr_err : error;
  wait_err : error          (* cmd.Wait() *)
}.

(** Observable effects of the package. *)
Inductive Effect :=
| Printed (text : string)
| Started (dir : string) (env : list string) (command : string) (args : list string).

Record World := {
  effects : list Effect;
  os_environ : list string
}.

Definition emit (e : Effect) (w : World) : World :=
  {| effects := effects w ++ [e]; os_environ := os_environ w |}.

Definition colorReset : string := String (ascii_of_nat 27) "[0m".
Definition colorGreen : string := String (ascii_of_nat 27) "[32;1m".
Definition colorCyan : string := String (ascii_of_nat 27) "[36;1m".
Definition colorWhite : string := String (ascii_of_nat 27) "[37;1m".

(** [fmt.Printf("%v", args)] of a string slice. *)
Definition fmt_slice (args : list string) : string := "[" +:+ Join args " " +:+ "]".

Definition print_command (command : string) (args : list string) (w : World) : World :=
  emit (Printed nl)
    (emit (Printed colorReset)
      (emit (Printed colorWhite)
        (emit (Printed (fmt_slice args))
          (emit (Printed colorCyan)
            (emit (Printed (command +:+ " "))
              (emit (Printed ("   " +:+ colorGreen))
                (emit (Printed nl) w))))))).

Section WithOS.
(** [os/exec]: the process the system runs for a command line. *)
Variable spawn : string -> list string -> string -> list string -> Process.

(** [CmdWithContext(ctx, config, command, args...)] *)
Definition CmdWithContext (config : Config) (command : string) (args : list string)
    (w : World) : (string * string * error) * World :=
  if String.eqb command "" then (("", "", Some "command is required"), w)
  else
    let w1 := if Print config then print_command command args w else w in
    let env := os_environ w1 ++ Env config in
    let p := spawn (Dir config) env command args in
    let w2 := emit (Started (Dir config) env command args) w1 in
    match start_err p with
    | Some e => (("", "", Some e), w2)
    | None =>
        if Print config then
          let w3 := emit (Printed (proc_stderr p)) (emit (Printed (proc_stdout p)) w2) in
          match copy_stdout_err p, copy_stderr_err p with
          | Some e, _ =>
              (("", "", Some ("failed to capture the stdout command output: " +:+ e)), w3)
          | None, Some e =>
              (("", "", Some ("failed to capture the stderr command output: " +:+ e)), w3)
          | None, None => ((proc_stdout p, proc_stderr p, wait_err p), w3)
          end
        else
          (* nothing copies the pipes into the buffers *)
          (("", "", wait_err p), w2)
    end.

(** [Cmd(command, args...)] *)
Definition Cmd (command : string) (args : list string) (w : World)
    : (string * string * error) * World :=
  CmdWithContext zeroConfig command args w.

(** [CmdWithPrint(command, args...)] *)
Definition CmdWithPrint (command : string) (args : list string) (w : World)
    : error * World :=
  let '((_, _, err), w') := CmdWithContext PrintCfg command args w in
  (err, w').
End WithOS.

(** *** Observations on the effects *)


End Exec.

(** ** Package cmd: the root command's pre-run *)

Module Root.

(** The fields of [config.CommonOptions] that the root command binds. *)
Record CommonOptions := {
  Insecure : bool;
  InsecureSkipTLSVerify : bool;
  PlainHTTP : bool;
  CachePath : string;
  TempDirectory : string
}.

(** Package-level variables read or written by [preRun]. *)
Record Globals := {
  CommonOpts : CommonOptions;
  LogLevelCLI : string;
  LogFormat : string;
  SkipLogFile : bool;
  NoColor : bool;
  NoProgress : bool;             (* message.NoProgress *)
  messageLevel : option string;  (* level given to message.SetLogLevel *)
  loggingEnabled : bool;         (* logger.WithLoggingEnabled on cmd's context *)
  defaultLogger : option (string * string * bool)
}.

(** What [preRun] asks of the cobra command and of the process. *)
Record Command := {
  CommandPath : string;
  HasParent : bool;
  vendorOnly : bool;            (* checkVendorOnlyFromPath(cmd) *)
  parseLevel : string -> error; (* logger.ParseLevel *)
  newLogger : error;            (* logger.New *)
  envCI : string;               (* os.Getenv("CI") *)
  createTemp : error;           (* os.CreateTemp *)
  useLogFile : error;           (* message.UseLogFile *)
  printViperConfigUsed : error
}.

Definition set_common (c : CommonOptions) (g : Globals) : Globals :=
  {| CommonOpts := c; LogLevelCLI := LogLevelCLI g; LogFormat := LogFormat g;
     SkipLogFile := SkipLogFile g; NoColor := NoColor g; NoProgress := NoProgress g;
     messageLevel := messageLevel g; loggingEnabled := loggingEnabled g;
     defaultLogger := defaultLogger g |}.

Definition set_NoProgress (b : bool) (g : Globals) : Globals :=
  {| CommonOpts := CommonOpts g; LogLevelCLI := LogLevelCLI g; LogFormat := LogFormat g;
     SkipLogFile := SkipLogFile g; NoColor := NoColor g; NoProgress := b;
     messageLevel := messageLevel g; loggingEnabled := loggingEnabled g;
     defaultLogger := defaultLogger g |}.

Definition set_messageLevel (l : string) (g : Globals) : Globals :=
  {| CommonOpts := CommonOpts g; LogLevelCLI := LogLevelCLI g; LogFormat := LogFormat g;
     SkipLogFile := SkipLogFile g; NoColor := NoColor g; NoProgress := NoProgress g;
     messageLevel := Some l; loggingEnabled := loggingEnabled g;
     defaultLogger := defaultLogger g |}.

Definition set_loggingEnabled (g : Globals) : Globals :=
  {| CommonOpts := CommonOpts g; LogLevelCLI := LogLevelCLI g; LogFormat := LogFormat g;
     SkipLogFile := SkipLogFile g; NoColor := NoColor g; NoProgress := NoProgress g;
     messageLevel := messageLevel g; loggingEnabled := true;
     defaultLogger := defaultLogger g |}.

Definition set_defaultLogger (l : string * string * bool) (g : Globals) : Globals :=
  {| CommonOpts := CommonOpts g; LogLevelCLI := LogLevelCLI g; LogFormat := LogFormat g;
     SkipLogFile := SkipLogFile g; NoColor := NoColor g; NoProgress := NoProgress g;
     messageLevel := messageLevel g; loggingEnabled := loggingEnabled g;
     defaultLogger := Some l |}.

(** [setupLogger(level, format, color)] *)
Definition setupLogger (cmd : Command) (level format : string) (color : bool)
    (g : Globals) : error * Globals :=
  let level := if String.eqb level "" then "info" else level in
  match parseLevel cmd level with
  | Some e => (Some e, g)
  | None =>
      match newLogger cmd with
      | Some e => (Some e, g)
      | None => (None, set_defaultLogger (level, format, color) g)
      end
  end.

(** [MessageCfg] *)
Record MessageCfg := {
  Level : string;
  cfgSkipLogFile : bool;
  cfgNoColor : bool;
  FeatureDisabled : bool
}.

(** The [match] table of [SetupMessage]. *)
Definition message_level (level : string) : option string :=
  if String.eqb level "error" then Some "warn"
  else if String.eqb level "warn" then Some "warn"
  else if String.eqb level "info" then Some "info"
  else if String.eqb level "debug" then Some "debug"
  else if String.eqb level "trace" then Some "trace"
  else None.

(** [SetupMessage(cfg)] *)
Definition SetupMessage (cmd : Command) (cfg : MessageCfg) (g : Globals) : error * Globals :=
  if FeatureDisabled cfg then (None, set_NoProgress true g)
  else
    let after_level :=
      if String.eqb (Level cfg) "" then Ok g
      else match message_level (Level cfg) with
           | None =>
               Err "invalid log level, valid options are warn, info, debug, error, and trace"
           | Some l => Ok (set_messageLevel l g)
           end in
    match after_level with
    | Err e => (Some e, g)
    | Ok g1 =>
        let g2 := if String.eqb (envCI cmd) "true" then set_NoProgress true g1 else g1 in
        if cfgSkipLogFile cfg then (None, g2)
        else
          match createTemp cmd with
          | Some e =>
              (Some ("could not create a log file in a the temporary directory: " +:+ e), g2)
          | None =>
              match useLogFile cmd with
              | Some e =>
                  (Some ("could not save a log file to the temporary directory: " +:+ e), g2)
              | None => (None, g2)
              end
          end
    end.

(** [InsecureSkipTLSVerify = true] and [PlainHTTP = true]. *)
Definition forced_insecure (c : CommonOptions) : CommonOptions :=
  {| Insecure := Insecure c; InsecureSkipTLSVerify := true; PlainHTTP := true;
     CachePath := CachePath c; TempDirectory := TempDirectory c |}.

(** [preRun(cmd, args)] *)
Definition preRun (cmd : Command) (g : Globals) : error * Globals :=
  (* If --insecure was provided, set --insecure-skip-tls-verify and --plain-http to match *)
  let g :=
    if Insecure (CommonOpts g) then set_common (forced_insecure (CommonOpts g)) g
    else g in
  if vendorOnly cmd then (None, g)
  else
    let comps := SplitByte (CommandPath cmd) " "%char in
    let skipLogFile := SkipLogFile g in
    let skipLogFile :=
      if (1 <? length comps)%nat && bool_decide (comps !! 1%nat = Some "tools")
      then true else skipLogFile in
    let skipLogFile :=
      if (1 <? length comps)%nat && bool_decide (comps !! 1%nat = Some "version")
      then true else skipLogFile in
    let skipLogFile := if HasParent cmd then skipLogFile else true in
    match setupLogger cmd (LogLevelCLI g) (LogFormat g) (negb (NoColor g)) g with
    | (Some e, g1) => (Some e, g1)
    | (None, g1) =>
        let legacy := String.eqb (LogFormat g1) "legacy" in
        let disableMessage := negb legacy in
        let skipLogFile := if legacy then skipLogFile else true in
        let g2 := if legacy then g1 else set_loggingEnabled g1 in
        match SetupMessage cmd {| Level := LogLevelCLI g2; cfgSkipLogFile := skipLogFile;
                                  cfgNoColor := NoColor g2;
                                  FeatureDisabled := disableMessage |} g2 with
        | (Some e, g3) => (Some e, g3)
        | (None, g3) =>
            match printViperConfigUsed cmd with
            | Some e => (Some e, g3)
            | None => (None, g3)
            end
        end
    end.

(** *** The log file of [preRun] *)

(** The command with other answers of [os.CreateTemp] and
    [message.UseLogFile]. *)
Definition with_logfile (ct ul : error) (cmd : Command) : Command :=
  {| CommandPath := CommandPath cmd; HasParent := HasParent cmd;
     vendorOnly := vendorOnly cmd; parseLevel := parseLevel cmd;
     newLogger := newLogger cmd; envCI := envCI cmd;
     createTemp := ct; useLogFile := ul;
     printViperConfigUsed := printViperConfigUsed cmd |}.

(** The commands and settings for which [preRun] asks for no log file:
    [--no-log-file], [zarf tools ...], [zarf version ...], the root command
    itself, and every log format but [legacy]. *)
Definition no_log_file (cmd : Command) (g : Globals) : bool :=
  let comps := SplitByte (CommandPath cmd) " "%char in
  SkipLogFile g
  || bool_decide (comps !! 1%nat = Some "tools")
  || bool_decide (comps !! 1%nat = Some "version")
  || negb (HasParent cmd)
  || negb (String.eqb (LogFormat g) "legacy").


(** *** [Execute] *)

(** How [Execute] ends. *)
Inductive ExecuteOutcome :=
| Returned                              (* err == nil *)
| ExitDefaultPrinter (line : string)    (* cmd.PrintErrln(...); os.Exit(1) *)
| ExitMessage (msg : string)            (* pterm and logger error; os.Exit(1) *)
| IndexPanic.                           (* comps[2] out of range *)

Definition defaultPrintCmds : list string := ["helm"; "yq"; "kubectl"].

(** [Execute(ctx)], after [rootCmd.ExecuteContextC(ctx)] has returned the
    command of path [path] (its error prefix [prefix]) and [err]. *)
Definition Execute (prefix path : string) (err : error) : ExecuteOutcome :=
  match err with
  | None => Returned
  | Some e =>
      let comps := SplitByte path " "%char in
      if (1 <? length comps)%nat && bool_decide (comps !! 1%nat = Some "tools") then
        match comps !! 2%nat with
        | None => IndexPanic
        | Some c =>
            if bool_decide (c ∈ defaultPrintCmds)
            then ExitDefaultPrinter (prefix +:+ " " +:+ e +:+ nl)
            else ExitMessage e
        end
      else ExitMessage e
  end.

End Root.

(** ** Package images *)

Module Images.

(** *** Data *)

(** Modelled from the spec: [transform.Image], the parsed image reference
    (its declaration is in package [transform], outside the sources at
    hand).  The fields are the ones package [images] reads. *)
Record Image := {
  Reference : string;   (* the original reference *)
  Name : string;
  Tag : string;
  Digest : string
}.

Global Instance Image_eq_dec : EqDecision Image.
Proof. solve_decision. Defined.

Global Instance Image_countable : Countable Image :=
  inj_countable'
    (fun i => (Reference i, Name i, Tag i, Digest i))
    (fun t => match t with (r, n, t, d) =>
                {| Reference := r; Name := n; Tag := t; Digest := d |} end)
    (fun i => match i with Build_Image _ _ _ _ => eq_refl end).

(** [v1.Hash] *)
Record Hash := { Algorithm : string; Hex : string }.

(** [h.String()] *)
Definition Hash_String (h : Hash) : string := Algorithm h +:+ ":" +:+ Hex h.

(** [v1.Layer]: what its accessors return. *)
Record Layer := {
  layer_Digest : result Hash;
  layer_Size : result Z;
  layer_MediaType : result string
}.

(** [v1.Manifest], of which only [Config.Size] is read. *)
Record Manifest := { Config_Size : Z }.

(** An image as a registry, a tarball or the daemon hands it over. *)
Record RawImage := {
  raw_Size : result Z;               (* img.Size(): size of the manifest *)
  raw_Manifest : result Manifest;
  raw_Layers : result (list Layer)
}.

(** [v1.Image] as held by [Pull]: a raw image, possibly wrapped by
    [cache.Image(img, cache.NewFilesystemCache(dir))].  The wrapper
    forwards [Size], [Manifest] and the layers' [Digest] and [Size]. *)
Record V1Image := { base : RawImage; cachedIn : option string }.

Definition plain_Image (raw : RawImage) : V1Image := {| base := raw; cachedIn := None |}.
Definition cache_Image (img : V1Image) (dir : string) : V1Image :=
  {| base := base img; cachedIn := Some dir |}.
Definition img_Size (img : V1Image) := raw_Size (base img).
Definition img_Manifest (img : V1Image) := raw_Manifest (base img).
Definition img_Layers (img : V1Image) := raw_Layers (base img).

(** An entry of [v1.IndexManifest.Manifests]. *)
Record ManifestDescriptor := {
  md_Digest : Hash;
  md_Platform : string   (* desc.Platform.String(), of a platform that is there *)
}.

(** [v1.IndexManifest] *)
Record IndexManifest := { Manifests : list ManifestDescriptor }.

(** [remote.Descriptor] *)
Record Descriptor := {
  MediaType : string;
  ManifestBytes : string   (* desc.Manifest *)
}.

(** Modelled from the spec: [PullConfig] (declared next to [Pull], outside
    the sources at hand): image references, destination directory, optional
    cache directory, optional registry-prefix overrides. *)
Record PullConfig := {
  DestinationDirectory : string;
  ImageList : list Image;
  Arch : string;
  RegistryOverrides : gmap string string;
  CacheDirectory : string
}.

(** *** The file systems [Pull] works on *)

(** An entry below [<destination>/blobs/sha256]; a path is the list of
    names that leads to it from there ([[]] is the directory itself). *)
Inductive Entry :=
| File (contents : string)
| Directory.

Global Instance Entry_eq_dec : EqDecision Entry.
Proof. solve_decision. Defined.

Record Disk := {
  blobs : gmap (list string) Entry;
  cache : gmap string Z             (* cache directory: path to file size *)
}.

Definition set_blobs (b : gmap (list string) Entry) (d : Disk) : Disk :=
  {| blobs := b; cache := cache d |}.
Definition set_cache (c : gmap string Z) (d : Disk) : Disk :=
  {| blobs := blobs d; cache := c |}.

(** *** Calls that leave the process *)

Inductive Event :=
| EvCreateDirectory (dir : string)
| EvLayoutWrite (dir : string)
| EvCraneLoad (ref : string)
| EvCraneGet (ref : string)
| EvCranePull (ref : string)
| EvDockerEndpointHost
| EvDockerNewClient (host : string)
| EvDockerInspect (host ref : string)
| EvDaemonImage (host reference : string) (unbuffered : bool)
| EvWarn (msg : string)
| EvWarnLargeImage (ref : string) (size : Z)
| EvProgressBar (dir : string) (total : Z)
| EvWriteImage (info : Image) (ok : bool)
| EvAppendDescriptor (info : Image) (ok : bool)
| EvAppendImage (info : Image) (ok : bool).

Global Instance Event_eq_dec : EqDecision Event.
Proof. solve_decision. Defined.

(** The same call, whatever it returned. *)
Definition same_call (a b : Event) : bool :=
  match a, b with
  | EvWriteImage i _, EvWriteImage j _ => bool_decide (i = j)
  | EvAppendDescriptor i _, EvAppendDescriptor j _ => bool_decide (i = j)
  | EvAppendImage i _, EvAppendImage j _ => bool_decide (i = j)
  | _, _ => bool_decide (a = b)
  end.

Record World := {
  log : list Event;   (* calls made so far, oldest first *)
  disk : Disk;
  tick : nat          (* scheduling decisions taken so far *)
}.

Definition log_ev (e : Event) (w : World) : World :=
  {| log := log w ++ [e]; disk := disk w; tick := tick w |}.
Definition set_disk (d : Disk) (w : World) : World :=
  {| log := log w; disk := d; tick := tick w |}.

(** How often the call [e] was made before. *)
Definition calls (e : Event) (w : World) : nat :=
  length (List.filter (same_call e) (log w)).

(** The world outside the process.  An oracle takes the number of earlier
    calls of the same operation on the same argument, so that a registry
    may answer a second request differently from the first. *)
Record Env := {
  IsIndex : string -> bool;                       (* types.MediaType.IsIndex *)
  IsLayer : string -> bool;                       (* types.MediaType.IsLayer *)
  json_Unmarshal : string -> result IndexManifest;
  GOOS_windows : bool;                            (* runtime.GOOS == "windows" *)
  filepath_Join : string -> string -> string;
  sha256_of : string -> string;                   (* hex sha256 of file contents *)
  hashFault : list string -> error;               (* I/O error of GetSHA256OfFile *)
  statFault : string -> error;                    (* os.Stat error other than ErrNotExist *)
  removeFault : string -> error;
  sched : nat -> list nat;                        (* the Go scheduler and map order *)
  ctxDone : nat -> bool;                          (* ctx.Done() after that many calls *)
  createDirectory : nat -> string -> error;
  layoutWrite : nat -> string -> error;           (* clayout.Write(dir, empty.Index) *)
  craneLoad : nat -> string -> result RawImage;
  parseReference : string -> result string;       (* name.ParseReference *)
  craneGet : nat -> string -> result Descriptor;
  cranePull : nat -> string -> result RawImage;
  dockerEndpointHost : nat -> result string;      (* getDockerEndpointHost() *)
  dockerNewClient : nat -> string -> error;       (* client.NewClientWithOpts *)
  dockerInspect : nat -> bool -> string -> string -> result Z;
  daemonImage : nat -> string -> string -> result RawImage;
  partialDescriptor : V1Image -> error;           (* partial.Descriptor(img) *)
  writeImage : nat -> Image -> V1Image -> Disk -> error * Disk;
  appendDescriptor : nat -> Image -> Disk -> error * Disk;
  appendImage : nat -> Image -> V1Image -> Disk -> error * Disk
}.

(** The next decision of the scheduler. *)
Definition next_sched (env : Env) (w : World) : list nat * World :=
  (sched env (tick w), {| log := log w; disk := disk w; tick := S (tick w) |}).

Definition ctx_done (env : Env) (w : World) : bool := ctxDone env (length (log w)).

(** An order of completion, or of iteration over a Go map: every element
    is put at the position the scheduler names. *)
Definition insert_at {A} (k : nat) (x : A) (l : list A) : list A :=
  take k l ++ x :: drop k l.

Fixpoint shuffle {A} (ks : list nat) (l : list A) : list A :=
  match l with
  | [] => []
  | x :: l' => insert_at (hd 0%nat ks) x (shuffle (tl ks) l')
  end.

(** [errgroup]: [Wait] returns the first error. *)
Definition keep_first (first r : error) : error :=
  match first with Some _ => first | None => r end.

(** *** checkForIndex *)

Definition index_line (name : string) (md : ManifestDescriptor) : string :=
  "image - " +:+ name +:+ "@" +:+ Hash_String (md_Digest md)
  +:+ " with platform " +:+ md_Platform md.

(** The name under which [checkForIndex] lists the manifests. *)
Definition index_name (refInfo : Image) : string :=
  let name := Name refInfo in
  if String.eqb (Tag refInfo) "" then name else name +:+ ":" +:+ Tag refInfo.

Definition index_unsupported : string :=
  " resolved to an OCI image index which is not supported by Zarf, select a specific platform to use: ".

Definition index_error (refInfo : Image) (idx : IndexManifest) : string :=
  let lines := ["The following images are available in the index:"] in
  let name := index_name refInfo in
  let lines := lines ++ map (index_line name) (Manifests idx) in
  let imageOptions := Join lines nl in
  Reference refInfo +:+ index_unsupported +:+ imageOptions.

Definition checkForIndex (env : Env) (refInfo : Image) (desc : option Descriptor) : error :=
  match desc with
  | Some d =>
      if negb (String.eqb (Digest refInfo) "") && IsIndex env (MediaType d) then
        match json_Unmarshal env (ManifestBytes d) with
        | Err e => Some ("unable to unmarshal index.json: " +:+ e)
        | Ok idx => Some (index_error refInfo idx)
        end
      else None
  | None => None
  end.

(** *** getSizeOfImage *)

(** The sum of a list of sizes, in the integers. *)
Definition sum_Z (l : list Z) : Z := foldr Z.add 0 l.

Fixpoint add_layer_sizes (layers : list Layer) (totalSize : Z) : result Z :=
  match layers with
  | [] => Ok totalSize
  | layer :: rest =>
      match layer_Size layer with
      | Err e => Err e
      | Ok size => add_layer_sizes rest (add64 totalSize size)
      end
  end.

Definition getSizeOfImage (img : V1Image) : result Z :=
  let totalSize := 0 in
  match img_Size img with
  | Err e => Err e
  | Ok manifestSize =>
      let totalSize := add64 totalSize manifestSize in
      match img_Manifest img with
      | Err e => Err e
      | Ok manifest =>
          let totalSize := add64 totalSize (Config_Size manifest) in
          match img_Layers img with
          | Err e => Err e
          | Ok layers => add_layer_sizes layers totalSize
          end
      end
  end.

(** Modelled from the spec: [utils.OnlyHasImageLayers] (package [utils],
    outside the sources at hand): whether the entire payload of the image
    is of image-layer media types. *)
Fixpoint all_image_layers (env : Env) (layers : list Layer) : result bool :=
  match layers with
  | [] => Ok true
  | layer :: rest =>
      match layer_MediaType layer with
      | Err e => Err e
      | Ok mediatype =>
          if IsLayer env mediatype then all_image_layers env rest else Ok false
      end
  end.

Definition OnlyHasImageLayers (env : Env) (img : V1Image) : result bool :=
  match img_Layers img with
  | Err e => Err e
  | Ok layers => all_image_layers env layers
  end.

(** *** CleanupInProgressLayers *)

(** [layerCachePath(path, h)] *)
Definition layerCachePath (env : Env) (path : string) (h : Hash) : string :=
  let file :=
    if GOOS_windows env then Algorithm h +:+ "-" +:+ Hex h else Hash_String h in
  filepath_Join env path file.

(** Where the goroutine of one layer stands. *)
Inductive CleanupPC :=
| CStart (layer : Layer)
| CRemove (location : string) (hex : string)   (* os.Stat saw another size *)
| CDone (r : error).

Record CleanupState := {
  pool : list CleanupPC;
  files : gmap string Z;
  first_err : error
}.

(** One step of one goroutine: up to and including [os.Stat], or
    [os.Remove]. *)
Definition cleanup_step (env : Env) (cacheDirectory : string) (pc : CleanupPC)
    (fs : gmap string Z) : CleanupPC * gmap string Z :=
  match pc with
  | CStart layer =>
      match layer_Digest layer with
      | Err e => (CDone (Some e), fs)
      | Ok digest =>
          match layer_Size layer with
          | Err e => (CDone (Some e), fs)
          | Ok size =>
              let location := layerCachePath env cacheDirectory digest in
              match fs !! location with
              | None => (CDone None, fs)               (* fs.ErrNotExist *)
              | Some info_Size =>
                  match statFault env location with
                  | Some e => (CDone (Some e), fs)
                  | None =>
                      if bool_decide (info_Size = size) then (CDone None, fs)
                      else (CRemove location (Hex digest), fs)
                  end
              end
          end
      end
  | CRemove location hex =>
      let failed e := CDone (Some ("failed to remove incomplete layer " +:+ hex +:+ ": " +:+ e)) in
      match removeFault env location with
      | Some e => (failed e, fs)
      | None =>
          match fs !! location with
          | None => (failed ("remove " +:+ location +:+ ": no such file or directory"), fs)
          | Some _ => (CDone None, delete location fs)
          end
      end
  | CDone r => (CDone r, fs)
  end.

Definition finished_with (pc pc' : CleanupPC) : error :=
  match pc, pc' with
  | CDone _, _ => None
  | _, CDone r => r
  | _, _ => None
  end.

(** The scheduler lets goroutine [i] take a step. *)
Definition step_at (env : Env) (cacheDirectory : string) (s : CleanupState) (i : nat)
    : CleanupState :=
  match pool s !! i with
  | None => s
  | Some pc =>
      let '(pc', fs') := cleanup_step env cacheDirectory pc (files s) in
      {| pool := <[i := pc']> (pool s);
         files := fs';
         first_err := keep_first (first_err s) (finished_with pc pc') |}
  end.

(** The goroutines interleave as [steps] says; [eg.Wait()] then lets every
    goroutine that is still running finish. *)
Definition run_cleanup (env : Env) (cacheDirectory : string) (steps : list nat)
    (layers : list Layer) (fs : gmap string Z) : CleanupState :=
  let n := length layers in
  foldl (step_at env cacheDirectory)
    {| pool := map CStart layers; files := fs; first_err := None |}
    (steps ++ seq 0 n ++ seq 0 n).

(** The cached file at [p] is the file of [layer] and has another size
    than the layer declares. *)
Definition layer_stale (env : Env) (cacheDirectory : string) (fs : gmap string Z)
    (p : string) (layer : Layer) : bool :=
  match layer_Digest layer, layer_Size layer, fs !! p with
  | Ok digest, Ok size, Some info_Size =>
      bool_decide (layerCachePath env cacheDirectory digest = p)
      && negb (bool_decide (info_Size = size))
  | _, _, _ => false
  end.

Definition stale (env : Env) (cacheDirectory : string) (layers : list Layer)
    (fs : gmap string Z) (p : string) : bool :=
  existsb (layer_stale env cacheDirectory fs p) layers.

(** Steps a goroutine has left at most. *)
Definition pc_rank (pc : option CleanupPC) : nat :=
  match pc with
  | Some (CStart _) => 2
  | Some (CRemove _ _) => 1
  | _ => 0
  end.

(** What holds of goroutine [pc] of [layer] while files of the cache [fs0]
    are removed, [fs] being the cache now. *)
Definition pc_inv (env : Env) (cacheDirectory : string) (fs0 fs : gmap string Z)
    (layer : Layer) (pc : CleanupPC) : Prop :=
  match pc with
  | CStart layer' => layer' = layer
  | CRemove location hex =>
      exists digest size info_Size,
        layer_Digest layer = Ok digest /\ layer_Size layer = Ok size
        /\ location = layerCachePath env cacheDirectory digest
        /\ fs0 !! location = Some info_Size /\ info_Size <> size
  | CDone None =>
      exists digest size,
        layer_Digest layer = Ok digest /\ layer_Size layer = Ok size
        /\ (fs !! layerCachePath env cacheDirectory digest = None
             \/ fs0 !! layerCachePath env cacheDirectory digest = Some size)
  | CDone (Some _) =>
      forall digest size,
        layer_Digest layer = Ok digest -> layer_Size layer = Ok size ->
        fs0 !! layerCachePath env cacheDirectory digest <> None
  end.

Definition cleanup_inv (env : Env) (cacheDirectory : string) (layers : list Layer)
    (fs0 : gmap string Z) (s : CleanupState) : Prop :=
  length (pool s) = length layers
  /\ (forall i layer pc, layers !! i = Some layer -> pool s !! i = Some pc ->
       pc_inv env cacheDirectory fs0 (files s) layer pc)
  /\ (forall p, files s !! p = fs0 !! p
                \/ (files s !! p = None /\ stale env cacheDirectory layers fs0 p = true))
  /\ (first_err s = None -> forall i e, pool s !! i <> Some (CDone (Some e))).

Definition CleanupInProgressLayers (env : Env) (img : V1Image) (cacheDirectory : string)
    (w : World) : error * World :=
  match img_Layers img with
  | Err e => (Some e, w)
  | Ok layers =>
      let '(steps, w) := next_sched env w in
      let s := run_cleanup env cacheDirectory steps layers (cache (disk w)) in
      (first_err s, set_disk (set_cache (files s) (disk w)) w)
  end.

(** *** Pull: fetching the image information *)

(** [Pull] starts one goroutine per image reference in an [errgroup].
    A goroutine is modelled as one step: the goroutines run one after the
    other, in the order the scheduler chooses, which is also the order in
    which their errors reach [eg.Wait()].  [counter] and [totalBytes] are
    atomic and [shas] and [fetched] are written under [shaLock]; the
    unsynchronised accesses to [dockerEndPointHost] and to the [err] of
    [Pull] are read as if they were synchronised.  The test [img == nil]
    of line 254 is left out: every path to it has called a method of
    [img]. *)

(** The variables the goroutines of the fetch phase share. *)
Record FetchState := {
  counter : Z;
  totalBytes : Z;
  shas : gset string;
  fetched : gmap Image V1Image;
  dockerEndPointHost : string
}.

Definition fetch_init : FetchState :=
  {| counter := 0; totalBytes := 0; shas := ∅; fetched := ∅; dockerEndPointHost := "" |}.

Definition set_host (h : string) (st : FetchState) : FetchState :=
  {| counter := counter st; totalBytes := totalBytes st; shas := shas st;
     fetched := fetched st; dockerEndPointHost := h |}.
Definition add_counter (st : FetchState) : FetchState :=
  {| counter := add64 (counter st) 1; totalBytes := totalBytes st; shas := shas st;
     fetched := fetched st; dockerEndPointHost := dockerEndPointHost st |}.
Definition add_totalBytes (size : Z) (st : FetchState) : FetchState :=
  {| counter := counter st; totalBytes := add64 (totalBytes st) size; shas := shas st;
     fetched := fetched st; dockerEndPointHost := dockerEndPointHost st |}.
Definition set_shas (s : gset string) (st : FetchState) : FetchState :=
  {| counter := counter st; totalBytes := totalBytes st; shas := s;
     fetched := fetched st; dockerEndPointHost := dockerEndPointHost st |}.
Definition set_fetched (refInfo : Image) (img : V1Image) (st : FetchState) : FetchState :=
  {| counter := counter st; totalBytes := totalBytes st; shas := shas st;
     fetched := <[refInfo := img]> (fetched st);
     dockerEndPointHost := dockerEndPointHost st |}.

(** The loop over [cfg.RegistryOverrides], in the order [overrides] of
    the iteration. *)
Definition resolveRef (overrides : list (string * string)) (reference : string) : string :=
  foldl (fun ref kv =>
           if HasPrefix reference kv.1 then Replace1 reference kv.1 kv.2 else ref)
        reference overrides.

Definition isTarball (ref : string) : bool :=
  HasSuffix ref ".tar" || HasSuffix ref ".tar.gz" || HasSuffix ref ".tgz".

Definition tooManyRequests : string := "unexpected status code 429 Too Many Requests".

Definition fallbackWarning (e : string) : string :=
  "Falling back to local 'docker', failed to find the manifest on a remote: " +:+ e.

(** The branch of [Pull] that loads the image from the docker daemon.
    It returns the image and the new value of [dockerEndPointHost]. *)
Definition loadFromDaemon (env : Env) (cancelled : bool) (reference ref : string)
    (host0 : string) (e : string) (w : World) : result RawImage * string * World :=
  let w := log_ev (EvWarn (fallbackWarning e)) w in
  let '(hostr, w) :=
    if String.eqb host0 "" then
      (dockerEndpointHost env (calls EvDockerEndpointHost w), log_ev EvDockerEndpointHost w)
    else (Ok host0, w) in
  match hostr with
  | Err e => (Err e, "", w)
  | Ok host =>
      let cli := dockerNewClient env (calls (EvDockerNewClient host) w) host in
      let w := log_ev (EvDockerNewClient host) w in
      match cli with
      | Some e => (Err ("docker not available: " +:+ e), host, w)
      | None =>
          let rawImg :=
            dockerInspect env (calls (EvDockerInspect host ref) w) cancelled host ref in
          let w := log_ev (EvDockerInspect host ref) w in
          match rawImg with
          | Err e => (Err e, host, w)
          | Ok size =>
              let w := if 750 * 1000 * 1000 <? size
                       then log_ev (EvWarnLargeImage ref size) w else w in
              (* daemon.Image(reference, daemon.WithUnbufferedOpener(), daemon.WithClient(cli)) *)
              let img :=
                daemonImage env (calls (EvDaemonImage host reference true) w) host reference in
              let w := log_ev (EvDaemonImage host reference true) w in
              match img with
              | Err e => (Err ("failed to load from docker daemon: " +:+ e), host, w)
              | Ok img => (Ok img, host, w)
              end
          end
      end
  end.

(** Lines 154 to 217 of the goroutine: where the image comes from. *)
Definition acquire (env : Env) (cancelled : bool) (refInfo : Image) (ref : string)
    (st : FetchState) (w : World)
    : result (RawImage * option Descriptor) * FetchState * World :=
  if isTarball ref then
    let img := craneLoad env (calls (EvCraneLoad ref) w) ref in
    let w := log_ev (EvCraneLoad ref) w in
    match img with
    | Err e => (Err ("unable to load " +:+ Reference refInfo +:+ ": " +:+ e), st, w)
    | Ok img => (Ok (img, None), st, w)
    end
  else
    match parseReference env ref with
    | Err e => (Err ("failed to parse reference: " +:+ e), st, w)
    | Ok reference =>
        let desc := craneGet env (calls (EvCraneGet ref) w) ref in
        let w := log_ev (EvCraneGet ref) w in
        match desc with
        | Err e =>
            if Contains e tooManyRequests then
              (Err ("rate limited by registry: " +:+ e), st, w)
            else
              let '(img, host, w) :=
                loadFromDaemon env cancelled reference ref (dockerEndPointHost st) e w in
              match img with
              | Err e => (Err e, set_host host st, w)
              | Ok img => (Ok (img, None), set_host host st, w)
              end
        | Ok desc =>
            let img := cranePull env (calls (EvCranePull ref) w) ref in
            let w := log_ev (EvCranePull ref) w in
            match img with
            | Err e => (Err ("unable to pull image " +:+ Reference refInfo +:+ ": " +:+ e), st, w)
            | Ok img => (Ok (img, Some desc), st, w)
            end
        end
    end.

(** The loop that records the digests of the layers in [shas]. *)
Fixpoint record_shas (layers : list Layer) (s : gset string) : error * gset string :=
  match layers with
  | [] => (None, s)
  | layer :: rest =>
      match layer_Digest layer with
      | Err e => (Some ("unable to get digest for image layer: " +:+ e), s)
      | Ok digest => record_shas rest ({[ Hex digest ]} ∪ s)
      end
  end.

(** Lines 223 to 260 of the goroutine: the image is put behind the cache,
    measured and stored in [fetched]. *)
Definition store_image (env : Env) (cfg : PullConfig) (refInfo : Image) (raw : RawImage)
    (st : FetchState) : error * FetchState :=
  let img := plain_Image raw in
  match OnlyHasImageLayers env img with
  | Err e => (Some e, st)
  | Ok cacheImg =>
      let img :=
        if cacheImg && negb (String.eqb (CacheDirectory cfg) "")
        then cache_Image img (CacheDirectory cfg) else img in
      match getSizeOfImage img with
      | Err e => (Some ("failed to get size of image: " +:+ e), st)
      | Ok size =>
          let st := add_totalBytes size st in
          match img_Layers img with
          | Err e =>
              (Some ("unable to get layers for " +:+ Reference refInfo +:+ ": " +:+ e), st)
          | Ok layers =>
              let '(err, s) := record_shas layers (shas st) in
              let st := set_shas s st in
              match err with
              | Some e => (Some e, st)
              | None => (None, set_fetched refInfo img st)
              end
          end
      end
  end.

(** Lines 219 to 260 of the goroutine: what is done with the image. *)
Definition register (env : Env) (cfg : PullConfig) (refInfo : Image) (raw : RawImage)
    (desc : option Descriptor) (st : FetchState) : error * FetchState :=
  match checkForIndex env refInfo desc with
  | Some e => (Some e, st)
  | None => store_image env cfg refInfo raw st
  end.

(** The goroutine [Pull] starts for one image reference.  [cancelled]
    tells whether [ectx] is done. *)
Definition fetchWorker (env : Env) (cfg : PullConfig) (cancelled : bool) (refInfo : Image)
    (st : FetchState) (w : World) : error * FetchState * World :=
  let st := add_counter st in
  let '(ks, w) := next_sched env w in
  let ref := resolveRef (shuffle ks (map_to_list (RegistryOverrides cfg)))
                        (Reference refInfo) in
  let '(got, st, w) := acquire env cancelled refInfo ref st w in
  match got with
  | Err e => (Some e, st, w)
  | Ok (raw, desc) =>
      let '(err, st) := register env cfg refInfo raw desc st in
      (err, st, w)
  end.

(** The goroutines of the fetch phase, in the order [order] in which they
    run; [eg.Wait()] gives the first error. *)
Definition fetch_step (env : Env) (cfg : PullConfig)
    (acc : error * FetchState * World) (refInfo : Image) : error * FetchState * World :=
  let '(first, st, w) := acc in
  let '(err, st, w) :=
    fetchWorker env cfg (bool_decide (is_Some first) || ctx_done env w) refInfo st w in
  (keep_first first err, st, w).

Definition fetchAll (env : Env) (cfg : PullConfig) (w : World)
    : error * FetchState * World :=
  let '(ks, w) := next_sched env w in
  foldl (fetch_step env cfg) (None, fetch_init, w) (shuffle ks (ImageList cfg)).

(** *** Pull: saving the images *)

(** The goroutines of [SaveConcurrent] are steps of their own as well:
    the calls to the layout of one image are not interleaved with the
    calls of another.  [cl.AppendDescriptor] runs under the mutex. *)

Definition cleanupWarning : string :=
  "failed to clean up in-progress layers, please run `zarf tools clear-cache`".

(** What [SaveConcurrent] and [SaveSequential] do when a write fails. *)
Definition cleanup_after_failure (env : Env) (img : V1Image) (cacheDirectory : string)
    (w : World) : World :=
  let '(err, w) := CleanupInProgressLayers env img cacheDirectory w in
  match err with
  | Some _ => log_ev (EvWarn cleanupWarning) w
  | None => w
  end.

Definition do_writeImage (env : Env) (info : Image) (img : V1Image) (w : World)
    : error * World :=
  let '(err, d) := writeImage env (calls (EvWriteImage info true) w) info img (disk w) in
  (err, log_ev (EvWriteImage info (bool_decide (err = None))) (set_disk d w)).

Definition do_appendDescriptor (env : Env) (info : Image) (w : World) : error * World :=
  let '(err, d) := appendDescriptor env (calls (EvAppendDescriptor info true) w) info (disk w) in
  (err, log_ev (EvAppendDescriptor info (bool_decide (err = None))) (set_disk d w)).

Definition do_appendImage (env : Env) (info : Image) (img : V1Image) (w : World)
    : error * World :=
  let '(err, d) := appendImage env (calls (EvAppendImage info true) w) info img (disk w) in
  (err, log_ev (EvAppendImage info (bool_decide (err = None))) (set_disk d w)).

(** The goroutine [SaveConcurrent] starts for one image. *)
Definition saveWorker (env : Env) (cacheDirectory : string) (cancelled : bool)
    (info : Image) (img : V1Image) (saved : gmap Image V1Image) (w : World)
    : error * gmap Image V1Image * World :=
  if cancelled then (Some "context canceled", saved, w)
  else
    match partialDescriptor env img with
    | Some e => (Some e, saved, w)
    | None =>
        match getSizeOfImage img with
        | Err e => (Some e, saved, w)
        | Ok size =>
            let '(err, w) := do_writeImage env info img w in
            match err with
            | Some e => (Some e, saved, cleanup_after_failure env img cacheDirectory w)
            | None =>
                let '(err, w) := do_appendDescriptor env info w in
                match err with
                | Some e => (Some e, saved, w)
                | None => (None, <[info := img]> saved, w)
                end
            end
        end
    end.

Definition save_step (env : Env) (cacheDirectory : string)
    (acc : error * gmap Image V1Image * World) (kv : Image * V1Image)
    : error * gmap Image V1Image * World :=
  let '(first, saved, w) := acc in
  let '(err, saved, w) :=
    saveWorker env cacheDirectory (bool_decide (is_Some first) || ctx_done env w)
               kv.1 kv.2 saved w in
  (keep_first first err, saved, w).

(** [SaveConcurrent(ctx, cl, m, cacheDirectory)] *)
Definition SaveConcurrent (env : Env) (m : gmap Image V1Image) (cacheDirectory : string)
    (w : World) : (gmap Image V1Image * error) * World :=
  let '(ks, w) := next_sched env w in
  let '(first, saved, w) :=
    foldl (save_step env cacheDirectory) (None, ∅, w) (shuffle ks (map_to_list m)) in
  ((saved, first), w).

(** The loop of [SaveSequential] over the map, in the order of iteration. *)
Fixpoint saveSequential_loop (env : Env) (cacheDirectory : string)
    (order : list (Image * V1Image)) (saved : gmap Image V1Image) (w : World)
    : (gmap Image V1Image * error) * World :=
  match order with
  | [] => ((saved, None), w)
  | (info, img) :: rest =>
      match getSizeOfImage img with
      | Err e => ((saved, Some ("failed to get size of image: " +:+ e)), w)
      | Ok size =>
          let '(err, w) := do_appendImage env info img w in
          match err with
          | Some e => ((saved, Some e), cleanup_after_failure env img cacheDirectory w)
          | None => saveSequential_loop env cacheDirectory rest (<[info := img]> saved) w
          end
      end
  end.

(** [SaveSequential(ctx, cl, m, cacheDirectory)] *)
Definition SaveSequential (env : Env) (m : gmap Image V1Image) (cacheDirectory : string)
    (w : World) : (gmap Image V1Image * error) * World :=
  let '(ks, w) := next_sched env w in
  saveSequential_loop env cacheDirectory (shuffle ks (map_to_list m)) ∅ w.

(** [retry.Error.Error()] *)
Definition retry_error (errs : list string) : string :=
  "All attempts fail:" +:+ nl
  +:+ Join (imap (fun i e => "#" +:+ pretty (S i) +:+ ": " +:+ e) errs) nl.

(** [retry.Do(f, retry.Context(ctx), retry.Attempts(n))]: [f] is called
    until it returns [nil], at most [n] times, and not again once the
    context is done. *)
Fixpoint retry_loop {S : Type} (f : S -> error * S) (done : S -> bool)
    (attempts : nat) (errorLog : list string) (s : S) : error * S :=
  match attempts with
  | O => (Some (retry_error errorLog), s)
  | S n =>
      let '(err, s) := f s in
      match err with
      | None => (None, s)
      | Some e =>
          let errorLog := errorLog ++ [e] in
          match n with
          | O => (Some (retry_error errorLog), s)
          | S _ =>
              if done s then (Some (retry_error (errorLog ++ ["context canceled"])), s)
              else retry_loop f done n errorLog s
          end
      end
  end.

Definition retry_Do {S : Type} (f : S -> error * S) (done : S -> bool)
    (attempts : nat) (s : S) : error * S :=
  if done s then (Some "context canceled", s) else retry_loop f done attempts [] s.

(** One attempt of the save phase: the closure given to [retry.Do].  The
    state is [toPull] and the world. *)
Definition save_attempt
    (save : gmap Image V1Image -> World -> (gmap Image V1Image * error) * World)
    (s : gmap Image V1Image * World) : error * (gmap Image V1Image * World) :=
  let '((saved, err), w) := save s.1 s.2 in
  (* Done save, remove from download list. *)
  (err, (s.1 ∖ saved, w)).

Definition sequentialWarning (e : string) : string :=
  "Failed to save images in parallel, falling back to sequential save: " +:+ e.

(** Lines 279 to 309 of [Pull]. *)
Definition savePhase (env : Env) (cacheDirectory : string) (fetched : gmap Image V1Image)
    (w : World) : error * World :=
  let toPull := fetched in
  let done := fun s : gmap Image V1Image * World => ctx_done env s.2 in
  let '(err, (toPull, w)) :=
    retry_Do (save_attempt (fun m => SaveConcurrent env m cacheDirectory)) done 2
             (toPull, w) in
  match err with
  | None => (None, w)
  | Some e =>
      let w := log_ev (EvWarn (sequentialWarning e)) w in
      let '(err, (_, w)) :=
        retry_Do (save_attempt (fun m => SaveSequential env m cacheDirectory)) done 2
                 (toPull, w) in
      (err, w)
  end.


(** The image a call to the layout is about. *)
Definition write_key (e : Event) : option Image :=
  match e with EvWriteImage i _ => Some i | _ => None end.
Definition appendImage_key (e : Event) : option Image :=
  match e with EvAppendImage i _ => Some i | _ => None end.
Definition save_key (e : Event) : option Image :=
  match e with
  | EvWriteImage i _ | EvAppendDescriptor i _ | EvAppendImage i _ => Some i
  | _ => None
  end.

(** The image a call has saved: the call after which [SaveConcurrent] and
    [SaveSequential] put the image into [saved]. *)
Definition saved_key (e : Event) : option Image :=
  match e with
  | EvAppendDescriptor i true | EvAppendImage i true => Some i
  | _ => None
  end.

Definition occurrences (i : Image) (l : list Image) : nat :=
  length (filter (fun j => j = i) l).

(** After the call that saved an image there is no call for this image. *)
Definition never_saved_again (evs : list Event) : Prop :=
  forall evs1 e evs2 i,
    evs = evs1 ++ e :: evs2 -> saved_key e = Some i -> i ∉ omap save_key evs2.

(** What the calls [evs] of a part of the save phase are like, which
    starts with the images [m] to pull and ends with the images [m']:
    at most [nw] writes and [na] appends of an image. *)
Definition phase_ok (nw na : nat) (m : gmap Image V1Image) (evs : list Event)
    (m' : gmap Image V1Image) : Prop :=
  (forall i, i ∈ omap save_key evs -> i ∈ dom m)
  /\ never_saved_again evs
  /\ (forall i, i ∈ omap saved_key evs -> i ∉ dom m')
  /\ dom m' ⊆ dom m
  /\ (forall i, (occurrences i (omap write_key evs) <= nw)%nat
                /\ (occurrences i (omap appendImage_key evs) <= na)%nat).

(** The calls [evs] made for the one image [info], which take [saved] to
    [saved']. *)
Definition one_image_ok (nw na : nat) (info : Image) (img : V1Image) (evs : list Event)
    (saved saved' : gmap Image V1Image) : Prop :=
  (forall i, i ∈ omap save_key evs -> i = info)
  /\ never_saved_again evs
  /\ (forall i, i ∈ omap saved_key evs -> saved' = <[info := img]> saved)
  /\ (saved' = saved \/ saved' = <[info := img]> saved)
  /\ (occurrences info (omap write_key evs) <= nw)%nat
  /\ (occurrences info (omap appendImage_key evs) <= na)%nat.

(** The calls [evs] made so far by an attempt on the images [m], of which
    the images [rest] are still to come. *)
Definition progress_ok (nw na : nat) (m : gmap Image V1Image) (rest : list Image)
    (evs : list Event) (saved : gmap Image V1Image) : Prop :=
  (forall i, i ∈ omap save_key evs -> i ∈ dom m /\ i ∉ rest)
  /\ never_saved_again evs
  /\ (forall i, i ∈ omap saved_key evs -> i ∈ dom saved)
  /\ (forall i, i ∈ dom saved -> i ∈ dom m /\ i ∉ rest)
  /\ (forall i, (occurrences i (omap write_key evs) <= nw)%nat
                /\ (occurrences i (omap appendImage_key evs) <= na)%nat).

(** *** Pull: repairing the names of the blobs *)

Inductive WalkResult :=
| WDone (fs : gmap (list string) Entry)
| WFailed (msg : string) (fs : gmap (list string) Entry)
| WOutOfFuel.

(** The name [n] when [q] is the entry [n] of directory [dir]. *)
Definition child_name (dir q : list string) : option string :=
  match drop (length dir) q with
  | [n] => if decide (q = dir ++ [n]) then Some n else None
  | _ => None
  end.

(** [readDirNames(dir)]: the names in the directory, sorted. *)
Definition readDirNames (fs : gmap (list string) Entry) (dir : list string) : list string :=
  merge_sort String.le (omap (child_name dir) (map_to_list fs).*1).

(** The function [Pull] gives to [filepath.Walk], on a file that is not a
    directory: [os.Rename(path, filepath.Join(blobDir, hash))]. *)
Definition rename_to_hash (env : Env) (path : list string) (contents : string)
    (fs : gmap (list string) Entry) : WalkResult :=
  match hashFault env path with
  | Some e => WFailed e fs
  | None =>
      let hash := sha256_of env contents in
      let newFile := [hash] in
      if decide (path = newFile) then WDone fs
      else
        match path, fs !! newFile with
        | [], _ => WFailed "rename: not a directory" fs
        | _, Some Directory => WFailed "rename: file exists" fs
        | _, _ => WDone (<[newFile := File contents]> (delete path fs))
        end
  end.

(** The loop of [walk] over the names read from a directory. *)
Fixpoint walk_names (visit : list string -> gmap (list string) Entry -> WalkResult)
    (path : list string) (names : list string) (fs : gmap (list string) Entry)
    : WalkResult :=
  match names with
  | [] => WDone fs
  | name :: rest =>
      match visit (path ++ [name]) fs with
      | WDone fs' => walk_names visit path rest fs'
      | r => r
      end
  end.

(** [filepath.Walk]: [lstat] of the path, then the function above on a
    file, or the names of a directory in turn.  The recursion is on the
    depth of the tree, for which [fuel] stands. *)
Fixpoint walk (env : Env) (fuel : nat) (path : list string)
    (fs : gmap (list string) Entry) : WalkResult :=
  match fuel with
  | O => WOutOfFuel
  | S fuel' =>
      match fs !! path with
      | None => WFailed "lstat: no such file or directory" fs
      | Some (File contents) => rename_to_hash env path contents fs
      | Some Directory =>
          walk_names (walk env fuel') path (readDirNames fs path) fs
      end
  end.

(** Deeper than every path of the file system. *)
Definition walk_fuel (fs : gmap (list string) Entry) : nat :=
  S (foldr (fun q acc => Nat.max (length q) acc) 0%nat (map_to_list fs).*1).

(** Every directory on the way to [p] is there: [p] can be reached from
    the blob directory. *)
Definition reachable (fs : gmap (list string) Entry) (p : list string) : Prop :=
  forall q, q `prefix_of` p -> q <> p -> fs !! q = Some Directory.

(** Every file below the blob directory has the hash of its contents as
    its name. *)
Definition named_by_hash (env : Env) (fs : gmap (list string) Entry) : Prop :=
  forall p contents,
    reachable fs p -> fs !! p = Some (File contents) ->
    last p = Some (sha256_of env contents).

(** From [fs] to [fs'] directories stay and files are kept, removed, or
    put into the blob directory under the hash of their contents. *)
Definition only_renamed (env : Env) (fs fs' : gmap (list string) Entry) : Prop :=
  (forall q, fs' !! q = Some Directory <-> fs !! q = Some Directory)
  /\ (forall q contents,
        fs' !! q = Some (File contents) ->
        fs !! q = Some (File contents) \/ q = [sha256_of env contents]).

(** Lines 316 to 339 of [Pull]. *)
Definition repairBlobs (env : Env) (w : World) : error * World :=
  let fs := blobs (disk w) in
  match walk env (walk_fuel fs) [] fs with
  | WDone fs' => (None, set_disk (set_blobs fs' (disk w)) w)
  | WFailed e fs' => (Some e, set_disk (set_blobs fs' (disk w)) w)
  | WOutOfFuel => (Some "walk: too deep", w)
  end.

(** *** Pull *)

Definition Pull (env : Env) (cfg : PullConfig) (w : World)
    : result (gmap Image V1Image) * World :=
  let dest := DestinationDirectory cfg in
  let err := createDirectory env (calls (EvCreateDirectory dest) w) dest in
  let w := log_ev (EvCreateDirectory dest) w in
  match err with
  | Some e => (Err ("failed to create image path " +:+ dest +:+ ": " +:+ e), w)
  | None =>
      let err := layoutWrite env (calls (EvLayoutWrite dest) w) dest in
      let w := log_ev (EvLayoutWrite dest) w in
      match err with
      | Some e => (Err e, w)
      | None =>
          let '(err, st, w) := fetchAll env cfg w in
          match err with
          | Some e => (Err e, w)
          | None =>
              let w := log_ev (EvProgressBar dest (totalBytes st)) w in
              let '(err, w) := savePhase env (CacheDirectory cfg) (fetched st) w in
              match err with
              | Some e => (Err e, w)
              | None =>
                  let '(err, w) := repairBlobs env w in
                  match err with
                  | Some e => (Err e, w)
                  | None => (Ok (fetched st), w)
                  end
              end
          end
      end
  end.

(** *** Observations on a run *)

(** The calls made between the worlds [w] and [w']. *)
Definition new_events (w w' : World) : list Event := drop (length (log w)) (log w').

(** A call that obtains an image: from a tarball, from a registry or from
    the docker daemon. *)
Definition source_event (e : Event) : bool :=
  match e with
  | EvCraneLoad _ | EvCranePull _ | EvDaemonImage _ _ _ => true
  | _ => false
  end.

Definition count_sources (evs : list Event) : nat :=
  length (List.filter source_event evs).

(** A call to the layout, or a warning. *)
Definition layout_event (e : Event) : bool :=
  match e with
  | EvWriteImage _ _ | EvAppendDescriptor _ _ | EvAppendImage _ _ | EvWarn _ => true
  | _ => false
  end.

(** The size [getSizeOfImage] gives for an image that has one. *)
Definition image_size (img : V1Image) : Z :=
  match getSizeOfImage img with Ok size => size | Err _ => 0 end.

(** The sizes of the images of a map, added up in the integers. *)
Definition fetched_size (m : gmap Image V1Image) : Z :=
  sum_Z (image_size <$> (map_to_list m).*2).

(** What [SaveConcurrent] and [SaveSequential], called on the images [m]
    in the world [w], hand back: images of [m], all of them when the error
    is [nil], each one after a call that saved it. *)
Definition save_report_ok (m : gmap Image V1Image) (w : World)
    (r : (gmap Image V1Image * error) * World) : Prop :=
  r.1.1 ⊆ m
  /\ (r.1.2 = None -> r.1.1 = m)
  /\ (forall i, i ∈ dom r.1.1 -> i ∈ omap saved_key (new_events w r.2)).

(** *** Observations on the cache and on the blobs *)

(** A goroutine that has returned [nil] has found no file, has removed
    it, or has had no error from [os.Stat]. *)
Definition stat_inv (env : Env) (cacheDirectory : string) (layers : list Layer)
    (s : CleanupState) : Prop :=
  forall i layer digest,
    layers !! i = Some layer -> pool s !! i = Some (CDone None) ->
    layer_Digest layer = Ok digest ->
    files s !! layerCachePath env cacheDirectory digest = None
    \/ statFault env (layerCachePath env cacheDirectory digest) = None.

(** The cache holds no incomplete layer of [layers], and can be read. *)
Definition cache_clean (env : Env) (cacheDirectory : string) (layers : list Layer)
    (fs : gmap string Z) : Prop :=
  forall layer, layer ∈ layers ->
    exists digest size,
      layer_Digest layer = Ok digest /\ layer_Size layer = Ok size
      /\ (fs !! layerCachePath env cacheDirectory digest = None
          \/ (fs !! layerCachePath env cacheDirectory digest = Some size
              /\ statFault env (layerCachePath env cacheDirectory digest) = None)).

(** Every file that can be reached is an entry of the blob directory
    itself, under the hash of its contents. *)
Definition flat_by_hash (env : Env) (fs : gmap (list string) Entry) : Prop :=
  forall p contents,
    reachable fs p -> fs !! p = Some (File contents) -> p = [sha256_of env contents].

(** From [fs] to [fs'] the directories are the same and no file has
    contents that no file had. *)
Definition contents_kept (fs fs' : gmap (list string) Entry) : Prop :=
  (forall q, fs' !! q = Some Directory <-> fs !! q = Some Directory)
  /\ (forall q contents,
        fs' !! q = Some (File contents) -> exists q0, fs !! q0 = Some (File contents)).

End Images.

(** ** Concrete inputs *)

Module Examples.
Import Images.

Definition ociIndex : string := "application/vnd.oci.image.index.v1+json".
Definition dockerManifestList : string :=
  "application/vnd.docker.distribution.manifest.list.v2+json".
Definition ociManifest : string := "application/vnd.oci.image.manifest.v1+json".
Definition ociLayer : string := "application/vnd.oci.image.layer.v1.tar+gzip".
Definition helmChart : string := "application/vnd.cncf.helm.chart.content.v1.tar+gzip".

Definition hashA : Hash := {| Algorithm := "sha256"; Hex := "aaaa" |}.
Definition hashB : Hash := {| Algorithm := "sha256"; Hex := "bbbb" |}.

Definition layerA : Layer :=
  {| layer_Digest := Ok hashA; layer_Size := Ok 100; layer_MediaType := Ok ociLayer |}.
Definition layerB : Layer :=
  {| layer_Digest := Ok hashB; layer_Size := Ok 250; layer_MediaType := Ok ociLayer |}.
Definition layerChart : Layer :=
  {| layer_Digest := Ok hashB; layer_Size := Ok 250; layer_MediaType := Ok helmChart |}.

Definition rawAB : RawImage :=
  {| raw_Size := Ok 7; raw_Manifest := Ok {| Config_Size := 3 |};
     raw_Layers := Ok [layerA; layerB] |}.
Definition rawChart : RawImage :=
  {| raw_Size := Ok 7; raw_Manifest := Ok {| Config_Size := 3 |};
     raw_Layers := Ok [layerA; layerChart] |}.

(** A reference by tag and a reference by digest. *)
Definition nginx : Image :=
  {| Reference := "ghcr.io/demo/nginx:1.25"; Name := "ghcr.io/demo/nginx";
     Tag := "1.25"; Digest := "" |}.
Definition alpine : Image :=
  {| Reference := "ghcr.io/demo/alpine@sha256:1111"; Name := "ghcr.io/demo/alpine";
     Tag := ""; Digest := "sha256:1111" |}.

Definition alpineIndex : IndexManifest :=
  {| Manifests := [ {| md_Digest := hashA; md_Platform := "linux/amd64" |};
                    {| md_Digest := hashB; md_Platform := "linux/arm64" |} ] |}.

Definition imageDescriptor : Descriptor :=
  {| MediaType := ociManifest; ManifestBytes := "{manifest}" |}.

Definition rateLimited : string :=
  "GET https://ghcr.io/v2/demo/nginx/manifests/1.25: unexpected status code 429 Too Many Requests".

(** An environment in which everything works, around a registry [get],
    [pull]. *)
Definition env_full (get : nat -> string -> result Descriptor)
    (pull : nat -> string -> result RawImage)
    (write : nat -> Image -> V1Image -> Disk -> error * Disk)
    (append : nat -> Image -> Disk -> error * Disk) : Env :=
  {| IsIndex := fun mt => String.eqb mt ociIndex || String.eqb mt dockerManifestList;
     IsLayer := fun mt => String.eqb mt ociLayer;
     json_Unmarshal := fun bytes =>
       if String.eqb bytes "{index}" then Ok alpineIndex
       else Err "invalid character";
     GOOS_windows := false;
     filepath_Join := fun dir file => dir +:+ "/" +:+ file;
     sha256_of := fun contents => "h-" +:+ contents;
     hashFault := fun _ => None;
     statFault := fun _ => None;
     removeFault := fun _ => None;
     sched := fun _ => [];
     ctxDone := fun _ => false;
     createDirectory := fun _ _ => None;
     layoutWrite := fun _ _ => None;
     craneLoad := fun _ _ => Ok rawAB;
     parseReference := fun ref => Ok ref;
     craneGet := get;
     cranePull := pull;
     dockerEndpointHost := fun _ => Ok "unix:///var/run/docker.sock";
     dockerNewClient := fun _ _ => None;
     dockerInspect := fun _ _ _ _ => Ok 1000;
     daemonImage := fun _ _ _ => Ok rawAB;
     partialDescriptor := fun _ => None;
     writeImage := write;
     appendDescriptor := append;
     appendImage := fun _ _ _ d => (None, d) |}.

(** The same with a layout that takes every image. *)
Definition env_with (get : nat -> string -> result Descriptor)
    (pull : nat -> string -> result RawImage) : Env :=
  env_full get pull (fun _ _ _ d => (None, d)) (fun _ _ d => (None, d)).

(** A registry that answers every request. *)
Definition env_ok : Env :=
  env_with (fun _ _ => Ok imageDescriptor) (fun _ _ => Ok rawAB).

(** A registry that answers the first request for a manifest with 429 and
    the following ones with 200. *)
Definition env_429_once : Env :=
  env_with (fun n _ => match n with O => Err rateLimited | S _ => Ok imageDescriptor end)
           (fun _ _ => Ok rawAB).

(** A registry that answers every request for a manifest with 429. *)
Definition env_429_always : Env :=
  env_with (fun _ _ => Err rateLimited) (fun _ _ => Ok rawAB).

(** A registry that cannot be reached. *)
Definition env_offline : Env :=
  env_with (fun _ _ => Err "dial tcp: connection refused") (fun _ _ => Ok rawAB).



(** A cache in which the file of [layerA] was not written to its end and
    the file of [layerB] is complete. *)
Definition partial_cache : gmap string Z :=
  {[ "/cache/sha256:aaaa" := 50; "/cache/sha256:bbbb" := 250 ]}.

(** A blob directory with a blob under a wrong name, a blob under its
    right name and a blob in a directory below. *)
Definition mixed_blobs : gmap (list string) Entry :=
  {[ [] := Directory;
     ["0123"] := File "config";
     ["h-layer"] := File "layer";
     ["tmp"] := Directory;
     ["tmp"; "part"] := File "manifest" ]}.

(** A layout in which the blobs of an image arrive under wrong names. *)
Definition env_misnamed : Env :=
  env_full (fun _ _ => Ok imageDescriptor) (fun _ _ => Ok rawAB)
           (fun _ _ _ d => (None, set_blobs mixed_blobs d)) (fun _ _ d => (None, d)).

(** A layout in which the first write of an image fails, and the first
    append of its descriptor. *)
Definition env_flaky : Env :=
  env_full (fun _ _ => Ok imageDescriptor) (fun _ _ => Ok rawAB)
           (fun n _ _ d => (match n with O => Some "write: no space left" | S _ => None end, d))
           (fun n _ d => (match n with O => Some "append: interrupted" | S _ => None end, d)).

Definition empty_disk : Disk := {| blobs := {[ [] := Directory ]}; cache := ∅ |}.
Definition world0 : World := {| log := []; disk := empty_disk; tick := 0 |}.

Definition cfg_of (images : list Image) (cacheDir : string) : PullConfig :=
  {| DestinationDirectory := "/tmp/zarf/images"; ImageList := images; Arch := "amd64";
     RegistryOverrides := ∅; CacheDirectory := cacheDir |}.



End Examples.

Import Images Examples.

(** ** Proofs: Go basics *)

Section Int64.

Lemma wrap64_add_l (a b : Z) : wrap64 (wrap64 a + b) = wrap64 (a + b).
Proof.
  unfold wrap64.
  replace ((a + 2 ^ 63) mod 2 ^ 64 - 2 ^ 63 + b + 2 ^ 63)
    with ((a + 2 ^ 63) mod 2 ^ 64 + b) by ring.
  rewrite Z.add_mod_idemp_l by (vm_compute; discriminate).
  do 2 f_equal. ring.
Qed.

Lemma wrap64_small (z : Z) : is_int64 z -> wrap64 z = z.
Proof.
  unfold is_int64, int64_min, int64_max, wrap64. intros Hz.
  rewrite Z.mod_small; lia.
Qed.

Lemma add64_wrap (a b : Z) : add64 (wrap64 a) b = wrap64 (a + b).
Proof. unfold add64. apply wrap64_add_l. Qed.

End Int64.

Section Strings.

Lemma substring_0_0 (s : string) : String.substring 0 0 s = "".
Proof. destruct s; reflexivity. Qed.

Lemma index_prefix (k s : string) : String.prefix k s = true -> String.index 0 k s = Some 0%nat.
Proof.
  destruct s as [|c s]; simpl.
  - destruct k; [reflexivity | discriminate].
  - intros Hp. destruct k as [|a k]; [reflexivity|].
    simpl in Hp. simpl. rewrite Hp. reflexivity.
Qed.

(** Replacing a prefix puts the new text in front of what follows the
    prefix. *)
Lemma Replace1_prefix (s k v : string) :
  HasPrefix s k = true ->
  Replace1 s k v = v +:+ String.substring (str_len k) (str_len s - str_len k) s.
Proof.
  unfold HasPrefix, Replace1, Index. intros Hp.
  rewrite (index_prefix _ _ Hp). rewrite substring_0_0. reflexivity.
Qed.

End Strings.

(** ** Proofs: package exec *)

(** C10: an empty command makes [CmdWithContext] return an error and two
    empty strings, whatever the configuration and the arguments, and nothing
    is printed and no process is started (the world is the one before the
    call); [Cmd] and [CmdWithPrint] do the same. *)
Theorem CmdWithContext_empty_command
    (spawn : string -> list string -> string -> list string -> Exec.Process)
    (config : Exec.Config) (args : list string) (w : Exec.World) :
  Exec.CmdWithContext spawn config "" args w = (("", "", Some "command is required"), w)
  /\ Exec.Cmd spawn "" args w = (("", "", Some "command is required"), w)
  /\ Exec.CmdWithPrint spawn "" args w = (Some "command is required", w).
Proof. repeat split. Qed.

(** A command that is not empty is started. *)
Lemma CmdWithContext_starts
    (spawn : string -> list string -> string -> list string -> Exec.Process)
    (config : Exec.Config) (command : string) (args : list string) (w : Exec.World) :
  command <> "" ->
  In (Exec.Started (Exec.Dir config) (Exec.os_environ w ++ Exec.Env config) command args)
     (Exec.effects (Exec.CmdWithContext spawn config command args w).2).
Proof.
  intros Hne. unfold Exec.CmdWithContext.
  destruct (String.eqb_spec command ""); [contradiction|].
  assert (Henv : Exec.os_environ (if Exec.Print config
                                  then Exec.print_command command args w else w)
                 = Exec.os_environ w) by (destruct (Exec.Print config); reflexivity).
  rewrite Henv. cbv zeta.
  repeat case_match; simpl; rewrite ?in_app_iff; simpl; auto 12.
Qed.

(** ** Proofs: the root command's pre-run *)

Section PreRun.
Import Root.




End PreRun.

(** ** Proofs: the size of an image and the layer cache *)

Section Sizes.

Lemma add_layer_sizes_sum (layers : list Layer) (sizes : list Z) (t : Z) :
  Forall2 (fun l s => layer_Size l = Ok s) layers sizes ->
  add_layer_sizes layers (wrap64 t) = Ok (wrap64 (t + sum_Z sizes)).
Proof.
  intros H. revert t. induction H as [|l s ls ss Hl _ IH]; intros t; simpl.
  - do 2 f_equal. lia.
  - rewrite Hl, add64_wrap, IH. do 2 f_equal. lia.
Qed.

Lemma getSizeOfImage_wrapped (img : V1Image) (m : Z) (mf : Manifest)
    (layers : list Layer) (sizes : list Z) :
  img_Size img = Ok m -> img_Manifest img = Ok mf -> img_Layers img = Ok layers ->
  Forall2 (fun l s => layer_Size l = Ok s) layers sizes ->
  getSizeOfImage img = Ok (wrap64 (m + Config_Size mf + sum_Z sizes)).
Proof.
  intros Hm Hmf Hl Hs. unfold getSizeOfImage. rewrite Hm, Hmf, Hl.
  unfold add64 at 2. rewrite add64_wrap, (add_layer_sizes_sum _ _ _ Hs).
  reflexivity.
Qed.

(** The cache wrapper does not change the size. *)
Lemma getSizeOfImage_base (img : V1Image) :
  getSizeOfImage img = getSizeOfImage (plain_Image (base img)).
Proof. reflexivity. Qed.

Lemma all_image_layers_true (env : Env) (layers : list Layer) :
  all_image_layers env layers = Ok true <->
  Forall (fun l => exists mt, layer_MediaType l = Ok mt /\ IsLayer env mt = true) layers.
Proof.
  induction layers as [|l ls IH]; simpl.
  - split; [constructor | reflexivity].
  - destruct (layer_MediaType l) as [mt|e] eqn:Hmt.
    + destruct (IsLayer env mt) eqn:Hl.
      * rewrite IH. split.
        -- intros H. constructor; [eauto | exact H].
        -- intros H. inversion H; assumption.
      * split; [discriminate|].
        intros H. inversion H as [|? ? [mt' [Heq Hl']] _]; subst.
        congruence.
    + split; [discriminate|].
      intros H. inversion H as [|? ? [mt' [Heq _]] _]. congruence.
Qed.

Lemma all_image_layers_false (env : Env) (layers : list Layer) :
  all_image_layers env layers = Ok false ->
  exists l mt, l ∈ layers /\ layer_MediaType l = Ok mt /\ IsLayer env mt = false.
Proof.
  induction layers as [|l ls IH]; simpl; [discriminate|].
  destruct (layer_MediaType l) as [mt|e] eqn:Hmt; [|discriminate].
  destruct (IsLayer env mt) eqn:Hl.
  - intros H. destruct (IH H) as (l' & mt' & Hin & H1 & H2).
    exists l', mt'. split; [by right | done].
  - intros _. exists l, mt. split; [by left | done].
Qed.

(** What a goroutine of the fetch phase that returns [nil] has done with
    its image. *)
Lemma register_ok (env : Env) (cfg : PullConfig) (refInfo : Image) (raw : RawImage)
    (desc : option Descriptor) (st st' : FetchState) :
  register env cfg refInfo raw desc st = (None, st') ->
  exists cacheImg size,
    checkForIndex env refInfo desc = None
    /\ OnlyHasImageLayers env (plain_Image raw) = Ok cacheImg
    /\ getSizeOfImage (plain_Image raw) = Ok size
    /\ totalBytes st' = add64 (totalBytes st) size
    /\ fetched st' =
         <[refInfo :=
             if cacheImg && negb (String.eqb (CacheDirectory cfg) "")
             then cache_Image (plain_Image raw) (CacheDirectory cfg)
             else plain_Image raw]> (fetched st).
Proof.
  unfold register. destruct (checkForIndex env refInfo desc); [discriminate|].
  unfold store_image.
  destruct (OnlyHasImageLayers env (plain_Image raw)) as [b|]; [|discriminate].
  set (img := if b && _ then _ else _).
  rewrite (getSizeOfImage_base img).
  assert (Hb : base img = raw) by (subst img; destruct (b && _); reflexivity).
  rewrite Hb.
  destruct (getSizeOfImage (plain_Image raw)) as [size|]; [|discriminate].
  unfold img_Layers. rewrite Hb.
  destruct (raw_Layers raw) as [layers|]; [|discriminate].
  destruct (record_shas layers _) as [[e|] s]; [discriminate|].
  intros [= <-]. exists b, size. repeat split.
Qed.

End Sizes.

(** C8: when the accessors of the image answer, [getSizeOfImage] returns the
    size of the manifest plus the size of the config blob plus the sizes of
    all layers, added as [int64] (first conjunct), which is exactly the sum
    whenever the sum is an [int64] (second conjunct); and a goroutine of
    [Pull] that finishes for this image has added this total to
    [totalBytes], the count given to the progress bar (third conjunct). *)
Theorem getSizeOfImage_total (img : V1Image) (m : Z) (mf : Manifest)
    (layers : list Layer) (sizes : list Z) :
  img_Size img = Ok m -> img_Manifest img = Ok mf -> img_Layers img = Ok layers ->
  Forall2 (fun l s => layer_Size l = Ok s) layers sizes ->
  getSizeOfImage img = Ok (wrap64 (m + Config_Size mf + sum_Z sizes))
  /\ (is_int64 (m + Config_Size mf + sum_Z sizes) ->
      getSizeOfImage img = Ok (m + Config_Size mf + sum_Z sizes))
  /\ (forall env cfg refInfo desc st st',
        register env cfg refInfo (base img) desc st = (None, st') ->
        totalBytes st' = add64 (totalBytes st) (wrap64 (m + Config_Size mf + sum_Z sizes))).
Proof.
  intros Hm Hmf Hl Hs.
  pose proof (getSizeOfImage_wrapped img m mf layers sizes Hm Hmf Hl Hs) as Hw.
  split; [exact Hw|]. split.
  - intros Hr. rewrite Hw. f_equal. apply wrap64_small, Hr.
  - intros env cfg refInfo desc st st' Hreg.
    destruct (register_ok _ _ _ _ _ _ _ Hreg) as (b & size & _ & _ & Hsz & Ht & _).
    rewrite <- getSizeOfImage_base, Hw in Hsz. congruence.
Qed.

Lemma getSizeOfImage_total_witness :
  getSizeOfImage (plain_Image rawAB) = Ok 360
  /\ totalBytes (register env_ok (cfg_of [nginx] "/cache") nginx rawAB None fetch_init).2 = 360.
Proof.
  pose proof (getSizeOfImage_total (plain_Image rawAB) 7 {| Config_Size := 3 |}
                [layerA; layerB] [100; 250] eq_refl eq_refl eq_refl
                ltac:(repeat constructor)) as (_ & Hexact & Hacc).
  split.
  - apply Hexact. vm_compute. split; discriminate.
  - exact (Hacc env_ok (cfg_of [nginx] "/cache") nginx None fetch_init _ eq_refl).
Defined.

(** The addition wraps: two layers of [2^62] bytes make a negative total. *)
Example getSizeOfImage_wraps :
  getSizeOfImage
    (plain_Image {| raw_Size := Ok 0; raw_Manifest := Ok {| Config_Size := 0 |};
                    raw_Layers := Ok [ {| layer_Digest := Ok hashA; layer_Size := Ok (2 ^ 62);
                                          layer_MediaType := Ok ociLayer |};
                                       {| layer_Digest := Ok hashB; layer_Size := Ok (2 ^ 62);
                                          layer_MediaType := Ok ociLayer |} ] |})
  = Ok (- 2 ^ 63).
Proof. reflexivity. Qed.

(** C7: a goroutine of [Pull] that finishes for an image has stored the
    image under its reference, wrapped by the file-system cache of the cache
    directory exactly when a cache directory is configured and every layer
    has an image-layer media type, and unwrapped otherwise (no cache
    directory, or some layer of another media type). *)
Theorem cache_iff_only_image_layers (env : Env) (cfg : PullConfig) (refInfo : Image)
    (raw : RawImage) (desc : option Descriptor) (st st' : FetchState) :
  register env cfg refInfo raw desc st = (None, st') ->
  exists img layers,
    fetched st' !! refInfo = Some img /\ base img = raw /\ raw_Layers raw = Ok layers
    /\ ((cachedIn img = Some (CacheDirectory cfg)
         /\ CacheDirectory cfg <> ""
         /\ OnlyHasImageLayers env (plain_Image raw) = Ok true
         /\ Forall (fun l => exists mt, layer_MediaType l = Ok mt /\ IsLayer env mt = true)
                   layers)
        \/ (cachedIn img = None
            /\ (CacheDirectory cfg = ""
                \/ (OnlyHasImageLayers env (plain_Image raw) = Ok false
                    /\ exists l mt, l ∈ layers /\ layer_MediaType l = Ok mt
                                    /\ IsLayer env mt = false)))).
Proof.
  intros Hreg.
  destruct (register_ok _ _ _ _ _ _ _ Hreg) as (b & size & _ & Hb & _ & _ & Hf).
  unfold OnlyHasImageLayers, img_Layers in Hb. simpl in Hb.
  destruct (raw_Layers raw) as [layers|] eqn:Hl; [|discriminate].
  eexists _, layers. rewrite Hf, lookup_insert_eq.
  split; [reflexivity|].
  unfold OnlyHasImageLayers, img_Layers. simpl. rewrite Hl.
  destruct (String.eqb_spec (CacheDirectory cfg) "") as [Hd|Hd].
  - rewrite andb_false_r. repeat split. right. split; [reflexivity | by left].
  - rewrite andb_true_r. destruct b.
    + repeat split. left. repeat split; try done. by apply all_image_layers_true.
    + repeat split. right. split; [reflexivity|]. right. split; [done|].
      by apply all_image_layers_false.
Qed.

Lemma cache_iff_only_image_layers_witness :
  (exists img, fetched (register env_ok (cfg_of [nginx] "/cache") nginx rawAB None fetch_init).2
               !! nginx = Some img /\ cachedIn img = Some "/cache")
  /\ (exists img, fetched (register env_ok (cfg_of [nginx] "/cache") nginx rawChart None
                             fetch_init).2 !! nginx = Some img /\ cachedIn img = None)
  /\ (exists img, fetched (register env_ok (cfg_of [nginx] "") nginx rawAB None fetch_init).2
                  !! nginx = Some img /\ cachedIn img = None).
Proof.
  split; [|split].
  - destruct (cache_iff_only_image_layers env_ok (cfg_of [nginx] "/cache") nginx rawAB None
                fetch_init _ eq_refl) as (img & ls & Hf & _ & _ & [(Hc & _)|(_ & [Hd|(Ho & _)])]).
    + exists img. split; assumption.
    + discriminate Hd.
    + discriminate Ho.
  - destruct (cache_iff_only_image_layers env_ok (cfg_of [nginx] "/cache") nginx rawChart None
                fetch_init _ eq_refl) as (img & ls & Hf & _ & _ & [(_ & _ & Ho & _)|(Hc & _)]).
    + discriminate Ho.
    + exists img. split; assumption.
  - destruct (cache_iff_only_image_layers env_ok (cfg_of [nginx] "") nginx rawAB None
                fetch_init _ eq_refl) as (img & ls & Hf & _ & _ & [(_ & Hd & _)|(Hc & _)]).
    + contradiction Hd. reflexivity.
    + exists img. split; assumption.
Defined.

(** ** Proofs: the fetch phase of Pull *)

Lemma calls_log_ev (e e' : Event) (w : World) :
  calls e (log_ev e' w) = (calls e w + if same_call e e' then 1 else 0)%nat.
Proof.
  unfold calls, log_ev. simpl. rewrite List.filter_app, length_app. simpl.
  destruct (same_call e e'); simpl; lia.
Qed.

Lemma calls_next_sched (env : Env) (e : Event) (w : World) :
  calls e (next_sched env w).2 = calls e w.
Proof. reflexivity. Qed.

Ltac calls_simpl :=
  repeat (rewrite ?calls_next_sched, ?calls_log_ev; cbn [same_call]);
  repeat match goal with
         | |- context [bool_decide ?P] =>
             first [rewrite (bool_decide_eq_false_2 P) by discriminate
                   |rewrite (bool_decide_eq_true_2 P) by reflexivity]
         end;
  rewrite ?Nat.add_0_r.

Section FetchPhase.




Lemma insert_at_perm {A} (k : nat) (x : A) (l : list A) : insert_at k x l ≡ₚ x :: l.
Proof.
  unfold insert_at. rewrite <- Permutation_middle. by rewrite take_drop.
Qed.

(** Whatever the scheduler says, the order is an order of the same
    elements. *)
Lemma shuffle_perm {A} (ks : list nat) (l : list A) : shuffle ks l ≡ₚ l.
Proof.
  revert ks. induction l as [|x l IH]; intros ks; simpl; [done|].
  by rewrite insert_at_perm, IH.
Qed.

Lemma shuffle_singleton {A} (ks : list nat) (x : A) : shuffle ks [x] = [x].
Proof. simpl. unfold insert_at. by destruct (hd 0%nat ks). Qed.

Lemma fetchWorker_no_overrides (env : Env) (cfg : PullConfig) (c : bool) (refInfo : Image)
    (st : FetchState) (w : World) :
  RegistryOverrides cfg = ∅ ->
  fetchWorker env cfg c refInfo st w =
    let '(got, st, w) :=
      acquire env c refInfo (Reference refInfo) (add_counter st) (next_sched env w).2 in
    match got with
    | Err e => (Some e, st, w)
    | Ok (raw, desc) =>
        let '(err, st) := register env cfg refInfo raw desc st in (err, st, w)
    end.
Proof.
  intros He. unfold fetchWorker. rewrite He, map_to_list_empty. reflexivity.
Qed.

Lemma acquire_remote (env : Env) (c : bool) (refInfo : Image) (ref parsed : string)
    (d : Descriptor) (st : FetchState) (w : World) :
  isTarball ref = false ->
  parseReference env ref = Ok parsed ->
  craneGet env (calls (EvCraneGet ref) w) ref = Ok d ->
  acquire env c refInfo ref st w =
    let w' := log_ev (EvCranePull ref) (log_ev (EvCraneGet ref) w) in
    match cranePull env (calls (EvCranePull ref) w) ref with
    | Err e => (Err ("unable to pull image " +:+ Reference refInfo +:+ ": " +:+ e), st, w')
    | Ok img => (Ok (img, Some d), st, w')
    end.
Proof.
  intros Ht Hp Hg. unfold acquire. rewrite Ht, Hp, Hg.
  calls_simpl. reflexivity.
Qed.

Lemma acquire_rate_limited (env : Env) (c : bool) (refInfo : Image) (ref parsed e : string)
    (st : FetchState) (w : World) :
  isTarball ref = false ->
  parseReference env ref = Ok parsed ->
  craneGet env (calls (EvCraneGet ref) w) ref = Err e ->
  Contains e tooManyRequests = true ->
  acquire env c refInfo ref st w =
    (Err ("rate limited by registry: " +:+ e), st, log_ev (EvCraneGet ref) w).
Proof. intros Ht Hp Hg Hc. unfold acquire. by rewrite Ht, Hp, Hg, Hc. Qed.




(** The pull of a single reference, after the layout was created. *)
Lemma Pull_single (env : Env) (cfg : PullConfig) (refInfo : Image) (w : World) :
  ImageList cfg = [refInfo] ->
  createDirectory env (calls (EvCreateDirectory (DestinationDirectory cfg)) w)
                  (DestinationDirectory cfg) = None ->
  layoutWrite env (calls (EvLayoutWrite (DestinationDirectory cfg)) w)
              (DestinationDirectory cfg) = None ->
  forall e st' w',
    fetchWorker env cfg
      (ctx_done env (next_sched env (log_ev (EvLayoutWrite (DestinationDirectory cfg))
                        (log_ev (EvCreateDirectory (DestinationDirectory cfg)) w))).2)
      refInfo fetch_init
      (next_sched env (log_ev (EvLayoutWrite (DestinationDirectory cfg))
                        (log_ev (EvCreateDirectory (DestinationDirectory cfg)) w))).2
    = (Some e, st', w') ->
    Pull env cfg w = (Err e, w').
Proof.
  intros Hl Hc Hw e st' w' Hf. unfold Pull. rewrite Hc.
  calls_simpl. rewrite Hw.
  unfold fetchAll. rewrite Hl.
  destruct (next_sched env _) as [ks w1] eqn:Hs. rewrite shuffle_singleton. simpl.
  simpl in Hf. injection Hs as <- <-. simpl. rewrite Hf. reflexivity.
Qed.

End FetchPhase.

(** ** Proofs: index rejection, rate limits and the source of an image *)

Section Resolution.





Lemma resolveRef_snoc (overrides : list (string * string)) (kv : string * string)
    (reference : string) :
  resolveRef (overrides ++ [kv]) reference =
    if HasPrefix reference kv.1 then Replace1 reference kv.1 kv.2
    else resolveRef overrides reference.
Proof. unfold resolveRef. by rewrite foldl_app. Qed.

(** The reference is left as it is, or one override that matches is
    applied to it, once. *)
Lemma resolveRef_cases (overrides : list (string * string)) (reference : string) :
  (resolveRef overrides reference = reference
   /\ Forall (fun kv => HasPrefix reference kv.1 = false) overrides)
  \/ (exists k v, (k, v) ∈ overrides /\ HasPrefix reference k = true
                  /\ resolveRef overrides reference =
                       v +:+ String.substring (str_len k)
                               (str_len reference - str_len k) reference).
Proof.
  induction overrides as [|[k v] overrides IH] using rev_ind.
  - left. split; [reflexivity | constructor].
  - rewrite resolveRef_snoc. simpl.
    destruct (HasPrefix reference k) eqn:Hp.
    + right. exists k, v. split; [apply elem_of_app; right; by left|].
      split; [done|]. by apply Replace1_prefix.
    + destruct IH as [[Heq Hall]|(k' & v' & Hin & Hp' & Heq)].
      * left. split; [done|]. apply Forall_app. split; [done|]. by constructor.
      * right. exists k', v'. split; [apply elem_of_app; by left | done].
Qed.

(** Of several overrides that match, the last one of the iteration is the
    one applied. *)
Lemma resolveRef_last (before after : list (string * string)) (k v reference : string) :
  HasPrefix reference k = true ->
  Forall (fun kv => HasPrefix reference kv.1 = false) after ->
  resolveRef (before ++ (k, v) :: after) reference =
    v +:+ String.substring (str_len k) (str_len reference - str_len k) reference.
Proof.
  intros Hp Hafter. unfold resolveRef. rewrite foldl_app. simpl. rewrite Hp.
  rewrite Replace1_prefix by done.
  generalize (v +:+ String.substring (str_len k) (str_len reference - str_len k) reference).
  induction Hafter as [|kv after Hkv _ IH]; intros acc; simpl; [done|].
  by rewrite Hkv.
Qed.

Lemma loadFromDaemon_ok (env : Env) (c : bool) (reference ref host0 e : string) (w : World)
    (img : RawImage) (host : string) (w' : World) :
  loadFromDaemon env c reference ref host0 e w = (Ok img, host, w') ->
  exists evs,
    log w' = log w ++ EvWarn (fallbackWarning e) :: evs
                   ++ [EvDaemonImage host reference true]
    /\ (host0 <> "" -> host = host0).
Proof.
  unfold loadFromDaemon. intros H.
  destruct (String.eqb_spec host0 "") as [Hh|Hh].
  - destruct (dockerEndpointHost env _) as [h|]; [|discriminate].
    destruct (dockerNewClient env _ _); [discriminate|].
    destruct (dockerInspect env _ _ _ _) as [size|]; [|discriminate].
    destruct (daemonImage env _ _ _); [|discriminate].
    injection H as <- <- <-.
    destruct (750 * 1000 * 1000 <? size); unfold log_ev; cbn [log];
      rewrite <- !app_assoc; cbn [app];
      match goal with |- exists evs, _ ++ _ :: ?l = _ /\ _ => exists (removelast l) end;
      (split; [reflexivity | done]).
  - destruct (dockerNewClient env _ _); [discriminate|].
    destruct (dockerInspect env _ _ _ _) as [size|]; [|discriminate].
    destruct (daemonImage env _ _ _); [|discriminate].
    injection H as <- <- <-.
    destruct (750 * 1000 * 1000 <? size); unfold log_ev; cbn [log];
      rewrite <- !app_assoc; cbn [app];
      match goal with |- exists evs, _ ++ _ :: ?l = _ /\ _ => exists (removelast l) end;
      (split; [reflexivity | done]).
Qed.

End Resolution.




(** C2, as the code has it: an error of [crane.Get] that carries the status
    429 is not retried.  The goroutine returns it at once as "rate limited
    by registry", with the one call of [crane.Get] as its only call, and the
    pull of a single such reference returns this error after creating the
    layout and asking the registry once: there is no second request, no
    fallback to the daemon and no save, whatever the registry would have
    answered to a second request. *)
Theorem rate_limit_is_not_retried (env : Env) (cfg : PullConfig) (refInfo : Image)
    (parsed e : string) (w : World) :
  ImageList cfg = [refInfo] ->
  RegistryOverrides cfg = ∅ ->
  isTarball (Reference refInfo) = false ->
  parseReference env (Reference refInfo) = Ok parsed ->
  createDirectory env (calls (EvCreateDirectory (DestinationDirectory cfg)) w)
                  (DestinationDirectory cfg) = None ->
  layoutWrite env (calls (EvLayoutWrite (DestinationDirectory cfg)) w)
              (DestinationDirectory cfg) = None ->
  craneGet env (calls (EvCraneGet (Reference refInfo)) w) (Reference refInfo) = Err e ->
  Contains e tooManyRequests = true ->
  (Pull env cfg w).1 = Err ("rate limited by registry: " +:+ e)
  /\ log (Pull env cfg w).2 =
       log w ++ [EvCreateDirectory (DestinationDirectory cfg);
                 EvLayoutWrite (DestinationDirectory cfg);
                 EvCraneGet (Reference refInfo)]
  /\ (forall c ref p st w0,
        isTarball ref = false -> parseReference env ref = Ok p ->
        craneGet env (calls (EvCraneGet ref) w0) ref = Err e ->
        acquire env c refInfo ref st w0
        = (Err ("rate limited by registry: " +:+ e), st, log_ev (EvCraneGet ref) w0)).
Proof.
  intros Hl Ho Ht Hp Hcd Hlw Hg Hc.
  assert (HP : Pull env cfg w =
                 (Err ("rate limited by registry: " +:+ e),
                  log_ev (EvCraneGet (Reference refInfo))
                    (next_sched env
                       (next_sched env
                          (log_ev (EvLayoutWrite (DestinationDirectory cfg))
                             (log_ev (EvCreateDirectory (DestinationDirectory cfg)) w))).2).2)).
  { eapply Pull_single; [done..|].
    rewrite fetchWorker_no_overrides by done.
    erewrite acquire_rate_limited; [reflexivity|done..| |done].
    calls_simpl. exact Hg. }
  rewrite HP. split; [reflexivity|]. split.
  - simpl. by rewrite <- !app_assoc.
  - intros c ref p st w0 Ht0 Hp0 Hg0. by eapply acquire_rate_limited.
Qed.

Lemma rate_limit_is_not_retried_witness :
  (Pull env_429_always (cfg_of [nginx] "/cache") world0).1
  = Err ("rate limited by registry: " +:+ rateLimited)
  /\ log (Pull env_429_always (cfg_of [nginx] "/cache") world0).2
     = [EvCreateDirectory "/tmp/zarf/images"; EvLayoutWrite "/tmp/zarf/images";
        EvCraneGet "ghcr.io/demo/nginx:1.25"].
Proof.
  pose proof (rate_limit_is_not_retried env_429_always (cfg_of [nginx] "/cache") nginx
                (Reference nginx) rateLimited world0
                eq_refl eq_refl eq_refl eq_refl eq_refl eq_refl eq_refl eq_refl)
    as (H1 & H2 & _).
  split; [exact H1 | exact H2].
Defined.

(** C2 as it is written does not hold: the registry answers the first
    request with 429 and would answer the second with 200, and [Pull] fails
    after the first request, without a retry and without saving. *)
Lemma rate_limit_once_then_ok_fails :
  craneGet env_429_once 0 (Reference nginx) = Err rateLimited
  /\ (forall n, craneGet env_429_once (S n) (Reference nginx) = Ok imageDescriptor)
  /\ (Pull env_429_once (cfg_of [nginx] "/cache") world0).1
     = Err ("rate limited by registry: " +:+ rateLimited)
  /\ log (Pull env_429_once (cfg_of [nginx] "/cache") world0).2
     = [EvCreateDirectory "/tmp/zarf/images"; EvLayoutWrite "/tmp/zarf/images";
        EvCraneGet "ghcr.io/demo/nginx:1.25"].
Proof. repeat split. Qed.

(** C6, as the code has it: the reference is rewritten by one matching
    registry override, applied once (the last one of the iteration over the
    map when several match), or left as it is when none matches; a
    rewritten reference that ends in .tar, .tar.gz or .tgz is loaded by
    [crane.Load] and this is the only call; otherwise the reference is
    parsed and the descriptor is asked of the registry; an error of the
    registry with status 429 is returned without a fallback; after any other
    error the image is loaded from the docker daemon, and a successful load
    ends with [daemon.Image] called with the unbuffered opener. *)
Theorem resolution_order (env : Env) (overrides : list (string * string)) (c : bool)
    (refInfo : Image) (st : FetchState) (w : World) :
  let ref := resolveRef overrides (Reference refInfo) in
  ((ref = Reference refInfo
    /\ Forall (fun kv => HasPrefix (Reference refInfo) kv.1 = false) overrides)
   \/ (exists k v, (k, v) ∈ overrides /\ HasPrefix (Reference refInfo) k = true
                   /\ ref = v +:+ String.substring (str_len k)
                                    (str_len (Reference refInfo) - str_len k)
                                    (Reference refInfo)))
  /\ (forall before k v after,
        overrides = before ++ (k, v) :: after ->
        HasPrefix (Reference refInfo) k = true ->
        Forall (fun kv => HasPrefix (Reference refInfo) kv.1 = false) after ->
        ref = v +:+ String.substring (str_len k)
                      (str_len (Reference refInfo) - str_len k) (Reference refInfo))
  /\ (isTarball ref = true ->
      acquire env c refInfo ref st w =
        (match craneLoad env (calls (EvCraneLoad ref) w) ref with
         | Err e => Err ("unable to load " +:+ Reference refInfo +:+ ": " +:+ e)
         | Ok img => Ok (img, None)
         end, st, log_ev (EvCraneLoad ref) w))
  /\ (isTarball ref = false ->
      (forall e, parseReference env ref = Err e ->
         acquire env c refInfo ref st w = (Err ("failed to parse reference: " +:+ e), st, w))
      /\ (forall parsed d,
            parseReference env ref = Ok parsed ->
            craneGet env (calls (EvCraneGet ref) w) ref = Ok d ->
            acquire env c refInfo ref st w =
              (match cranePull env (calls (EvCranePull ref) w) ref with
               | Err e => Err ("unable to pull image " +:+ Reference refInfo +:+ ": " +:+ e)
               | Ok img => Ok (img, Some d)
               end, st, log_ev (EvCranePull ref) (log_ev (EvCraneGet ref) w)))
      /\ (forall parsed e,
            parseReference env ref = Ok parsed ->
            craneGet env (calls (EvCraneGet ref) w) ref = Err e ->
            Contains e tooManyRequests = true ->
            acquire env c refInfo ref st w =
              (Err ("rate limited by registry: " +:+ e), st, log_ev (EvCraneGet ref) w))
      /\ (forall parsed e,
            parseReference env ref = Ok parsed ->
            craneGet env (calls (EvCraneGet ref) w) ref = Err e ->
            Contains e tooManyRequests = false ->
            forall r host w',
              loadFromDaemon env c parsed ref (dockerEndPointHost st) e
                             (log_ev (EvCraneGet ref) w) = (r, host, w') ->
              acquire env c refInfo ref st w =
                (match r with Err e' => Err e' | Ok img => Ok (img, None) end,
                 set_host host st, w')
              /\ forall img, r = Ok img ->
                   exists evs,
                     log w' = log w ++ EvCraneGet ref :: EvWarn (fallbackWarning e) :: evs
                                    ++ [EvDaemonImage host parsed true])).
Proof.
  intros ref. split; [apply resolveRef_cases|]. split; [|split].
  - intros before k v after -> Hp Hafter. by apply resolveRef_last.
  - intros Ht. unfold acquire. rewrite Ht. by destruct (craneLoad env _ _).
  - intros Ht. split; [|split; [|split]].
    + intros e Hp. unfold acquire. by rewrite Ht, Hp.
    + intros parsed d Hp Hg. rewrite (acquire_remote env c refInfo ref parsed d) by done.
      cbv zeta. by destruct (cranePull env _ _).
    + intros parsed e Hp Hg Hc. by eapply acquire_rate_limited.
    + intros parsed e Hp Hg Hc r host w' Hl. split.
      * unfold acquire. rewrite Ht, Hp, Hg, Hc, Hl. by destruct r.
      * intros img ->. destruct (loadFromDaemon_ok _ _ _ _ _ _ _ _ _ _ Hl) as (evs & Hlog & _).
        exists evs. rewrite Hlog. simpl. by rewrite <- app_assoc.
Qed.

Lemma resolution_order_witness :
  is_ok (Pull env_offline (cfg_of [nginx] "/cache") world0).1 = true
  /\ acquire env_offline false nginx "ghcr.io/demo/nginx:1.25" fetch_init world0
     = (Ok (rawAB, None), set_host "unix:///var/run/docker.sock" fetch_init,
        {| log := [EvCraneGet "ghcr.io/demo/nginx:1.25";
                   EvWarn (fallbackWarning "dial tcp: connection refused");
                   EvDockerEndpointHost;
                   EvDockerNewClient "unix:///var/run/docker.sock";
                   EvDockerInspect "unix:///var/run/docker.sock" "ghcr.io/demo/nginx:1.25";
                   EvDaemonImage "unix:///var/run/docker.sock" "ghcr.io/demo/nginx:1.25" true];
           disk := empty_disk; tick := 0 |})
  /\ acquire env_offline false nginx "images/nginx.tar" fetch_init world0
     = (Ok (rawAB, None), fetch_init, log_ev (EvCraneLoad "images/nginx.tar") world0).
Proof.
  split; [vm_compute; reflexivity|]. split.
  - pose proof (resolution_order env_offline [] false nginx fetch_init world0)
      as (_ & _ & _ & H).
    destruct (H eq_refl) as (_ & _ & _ & Hd).
    destruct (Hd (Reference nginx) "dial tcp: connection refused" eq_refl eq_refl eq_refl
                 _ _ _ eq_refl) as [Ha _].
    exact Ha.
  - pose proof (resolution_order env_offline [("ghcr.io/demo/nginx:1.25", "images/nginx.tar")]
                  false nginx fetch_init world0) as (_ & _ & Ht & _).
    exact (Ht eq_refl).
Defined.

(** C6 as it is written does not hold: the request to the registry fails
    (status 429) and the image is not loaded from the docker daemon; the
    pull fails and the daemon was not called. *)
Lemma remote_failure_without_fallback :
  is_ok (craneGet env_429_always 0 (Reference alpine)) = false
  /\ isTarball (Reference alpine) = false
  /\ is_ok (Pull env_429_always (cfg_of [alpine] "") world0).1 = false
  /\ log (Pull env_429_always (cfg_of [alpine] "") world0).2
     = [EvCreateDirectory "/tmp/zarf/images"; EvLayoutWrite "/tmp/zarf/images";
        EvCraneGet "ghcr.io/demo/alpine@sha256:1111"].
Proof. repeat split. Qed.

(** ** Proofs: CleanupInProgressLayers *)

Section Cleanup.
Variable env : Env.
Variable cacheDirectory : string.

Lemma stale_intro (layers : list Layer) (fs : gmap string Z) (layer : Layer)
    (digest : Hash) (size info_Size : Z) :
  layer ∈ layers -> layer_Digest layer = Ok digest -> layer_Size layer = Ok size ->
  fs !! layerCachePath env cacheDirectory digest = Some info_Size -> info_Size <> size ->
  stale env cacheDirectory layers fs (layerCachePath env cacheDirectory digest) = true.
Proof.
  intros Hin Hd Hs Hf Hne. unfold stale. apply existsb_exists.
  exists layer. split; [by apply list_elem_of_In|].
  unfold layer_stale. rewrite Hd, Hs, Hf.
  rewrite bool_decide_eq_true_2 by done. by rewrite bool_decide_eq_false_2.
Qed.


Lemma pc_inv_mono (fs0 fs fs' : gmap string Z) (layer : Layer) (pc : CleanupPC) :
  (forall p, fs !! p = None -> fs' !! p = None) ->
  pc_inv env cacheDirectory fs0 fs layer pc ->
  pc_inv env cacheDirectory fs0 fs' layer pc.
Proof.
  intros Hm. destruct pc as [| |[e|]]; simpl; auto.
  intros (d & sz & Hd & Hs & [Hn|Hk]); exists d, sz; eauto.
Qed.

(** The invariant after goroutine [i] has gone from [pc] to [pc']. *)
Lemma cleanup_inv_update (layers : list Layer) (fs0 : gmap string Z) (s : CleanupState)
    (i : nat) (pc pc' : CleanupPC) (fs' : gmap string Z) :
  cleanup_inv env cacheDirectory layers fs0 s ->
  pool s !! i = Some pc ->
  (forall p, files s !! p = None -> fs' !! p = None) ->
  (forall p, fs' !! p = fs0 !! p
             \/ (fs' !! p = None /\ stale env cacheDirectory layers fs0 p = true)) ->
  (forall layer, layers !! i = Some layer ->
                 pc_inv env cacheDirectory fs0 fs' layer pc') ->
  (forall e, pc' = CDone (Some e) -> finished_with pc pc' = Some e \/ pc = pc') ->
  cleanup_inv env cacheDirectory layers fs0
    {| pool := <[i := pc']> (pool s); files := fs';
       first_err := keep_first (first_err s) (finished_with pc pc') |}.
Proof.
  intros (Hlen & Hpc & Hfs & Herr) Hi Hmono Hfs' Hpc' Hfin.
  assert (Hlt : (i < length (pool s))%nat) by (by eapply lookup_lt_Some).
  split; [|split; [|split]]; simpl.
  - by rewrite length_insert.
  - intros j layer pcj Hl Hj. destruct (decide (i = j)) as [<-|Hne].
    + rewrite list_lookup_insert_eq in Hj by done. injection Hj as <-. by apply Hpc'.
    + rewrite list_lookup_insert_ne in Hj by done.
      eapply pc_inv_mono; [exact Hmono|]. by eapply Hpc.
  - exact Hfs'.
  - intros Hk j e Hj.
    destruct (first_err s) as [e0|] eqn:Hf; [discriminate|]. simpl in Hk.
    destruct (decide (i = j)) as [<-|Hne].
    + rewrite list_lookup_insert_eq in Hj by done. injection Hj as ->.
      destruct (Hfin e eq_refl) as [Hc| ->]; [congruence|].
      by apply (Herr eq_refl i e).
    + rewrite list_lookup_insert_ne in Hj by done. by apply (Herr eq_refl j e).
Qed.

Lemma step_at_inv (layers : list Layer) (fs0 : gmap string Z) (s : CleanupState) (i : nat) :
  cleanup_inv env cacheDirectory layers fs0 s ->
  cleanup_inv env cacheDirectory layers fs0 (step_at env cacheDirectory s i).
Proof.
  intros Hinv. unfold step_at. destruct (pool s !! i) as [pc|] eqn:Hi; [|exact Hinv].
  pose proof Hinv as (Hlen & Hpc & Hfs & Herr).
  assert (Hlayer : exists layer, layers !! i = Some layer).
  { apply lookup_lt_is_Some. rewrite <- Hlen. by eapply lookup_lt_Some. }
  destruct Hlayer as [layer Hl].
  pose proof (Hpc i layer pc Hl Hi) as Hthis.
  destruct pc as [layer'|location hex|r]; simpl in Hthis.
  - (* up to os.Stat *)
    subst layer'. unfold cleanup_step.
    destruct (layer_Digest layer) as [digest|e] eqn:Hd.
    2: { apply cleanup_inv_update; try done.
         - intros l' Hl'. rewrite Hl in Hl'. injection Hl' as <-. simpl. congruence.
         - intros e' [= <-]. by left. }
    destruct (layer_Size layer) as [size|e] eqn:Hs.
    2: { apply cleanup_inv_update; try done.
         - intros l' Hl'. rewrite Hl in Hl'. injection Hl' as <-. simpl. congruence.
         - intros e' [= <-]. by left. }
    destruct (files s !! _) as [n|] eqn:Hf.
    2: { apply cleanup_inv_update; try done.
         intros l' Hl'. rewrite Hl in Hl'. injection Hl' as <-. simpl.
         exists digest, size. by eauto. }
    assert (Hf0 : fs0 !! layerCachePath env cacheDirectory digest = Some n).
    { destruct (Hfs (layerCachePath env cacheDirectory digest)) as [<-|[Hn _]];
        [done | congruence]. }
    destruct (statFault env _) as [e|].
    { apply cleanup_inv_update; try done.
      - intros l' Hl'. rewrite Hl in Hl'. injection Hl' as <-. simpl. congruence.
      - intros e' [= <-]. by left. }
    case_bool_decide as Hn.
    + apply cleanup_inv_update; try done.
      intros l' Hl'. rewrite Hl in Hl'. injection Hl' as <-. simpl.
      exists digest, size. subst n. by eauto.
    + apply cleanup_inv_update; try done.
      intros l' Hl'. rewrite Hl in Hl'. injection Hl' as <-. simpl.
      exists digest, size, n. by eauto.
  - (* os.Remove *)
    destruct Hthis as (digest & size & n & Hd & Hs & -> & Hf0 & Hne).
    unfold cleanup_step.
    destruct (removeFault env _) as [e|].
    { apply cleanup_inv_update; try done.
      - intros l' Hl'. rewrite Hl in Hl'. injection Hl' as <-. simpl. congruence.
      - intros e' [= <-]. by left. }
    destruct (files s !! _) as [n'|] eqn:Hf.
    2: { apply cleanup_inv_update; try done.
         - intros l' Hl'. rewrite Hl in Hl'. injection Hl' as <-. simpl. congruence.
         - intros e' [= <-]. by left. }
    apply cleanup_inv_update; try done.
    + intros p Hp. destruct (decide (layerCachePath env cacheDirectory digest = p)) as [<-|];
        [by rewrite lookup_delete_eq | by rewrite lookup_delete_ne].
    + intros p. destruct (decide (layerCachePath env cacheDirectory digest = p)) as [<-|Hp].
      * right. rewrite lookup_delete_eq. split; [done|].
        eapply stale_intro; eauto. by eapply list_elem_of_lookup_2.
      * rewrite lookup_delete_ne by done. apply Hfs.
    + intros l' Hl'. rewrite Hl in Hl'. injection Hl' as <-. simpl.
      exists digest, size. rewrite lookup_delete_eq. by eauto.
  - (* the goroutine has returned *)
    unfold cleanup_step. apply cleanup_inv_update; try done.
    + intros l' Hl'. rewrite Hl in Hl'. by injection Hl' as <-.
    + intros e ->. by right.
Qed.

Lemma run_inv (layers : list Layer) (fs0 : gmap string Z) (steps : list nat)
    (s : CleanupState) :
  cleanup_inv env cacheDirectory layers fs0 s ->
  cleanup_inv env cacheDirectory layers fs0 (foldl (step_at env cacheDirectory) s steps).
Proof.
  revert s. induction steps as [|i steps IH]; intros s Hs; [done|].
  simpl. by apply IH, step_at_inv.
Qed.

Lemma cleanup_inv_init (layers : list Layer) (fs0 : gmap string Z) :
  cleanup_inv env cacheDirectory layers fs0
    {| pool := map CStart layers; files := fs0; first_err := None |}.
Proof.
  split; [|split; [|split]]; simpl.
  - by rewrite length_map.
  - intros i layer pc Hl Hp. rewrite list_lookup_fmap, Hl in Hp. by injection Hp as <-.
  - by left.
  - intros _ i e Hp. rewrite list_lookup_fmap in Hp.
    destruct (layers !! i); discriminate.
Qed.

Lemma cleanup_step_rank (pc : CleanupPC) (fs : gmap string Z) :
  (pc_rank (Some (cleanup_step env cacheDirectory pc fs).1) <= pred (pc_rank (Some pc)))%nat.
Proof.
  destruct pc as [layer|location hex|r]; simpl.
  - destruct (layer_Digest layer); [|simpl; lia].
    destruct (layer_Size layer); [|simpl; lia].
    destruct (fs !! _); [|simpl; lia].
    destruct (statFault env _); [simpl; lia|].
    case_bool_decide; simpl; lia.
  - destruct (removeFault env _); [simpl; lia|]. destruct (fs !! _); simpl; lia.
  - lia.
Qed.

Lemma step_at_rank (s : CleanupState) (i j : nat) :
  (pc_rank (pool (step_at env cacheDirectory s i) !! j)
   <= if decide (i = j) then pred (pc_rank (pool s !! j)) else pc_rank (pool s !! j))%nat.
Proof.
  unfold step_at. destruct (pool s !! i) as [pc|] eqn:Hi.
  - pose proof (cleanup_step_rank pc (files s)) as Hr.
    destruct (cleanup_step env cacheDirectory pc (files s)) as [pc' fs']. simpl in *.
    destruct (decide (i = j)) as [<-|Hne].
    + rewrite list_lookup_insert_eq by (by eapply lookup_lt_Some). by rewrite Hi.
    + by rewrite list_lookup_insert_ne.
  - destruct (decide (i = j)) as [<-|Hne]; [rewrite Hi; simpl|]; lia.
Qed.

Lemma run_rank_le (steps : list nat) (s : CleanupState) (j : nat) :
  (pc_rank (pool (foldl (step_at env cacheDirectory) s steps) !! j)
   <= pc_rank (pool s !! j))%nat.
Proof.
  revert s. induction steps as [|i steps IH]; intros s; simpl; [lia|].
  etrans; [apply IH|]. pose proof (step_at_rank s i j). destruct (decide (i = j)); lia.
Qed.

Lemma run_rank_dec (steps : list nat) (s : CleanupState) (j : nat) :
  j ∈ steps ->
  (pc_rank (pool (foldl (step_at env cacheDirectory) s steps) !! j)
   <= pred (pc_rank (pool s !! j)))%nat.
Proof.
  revert s. induction steps as [|i steps IH]; intros s Hin; [by apply elem_of_nil in Hin|].
  simpl. apply elem_of_cons in Hin as [->|Hin].
  - etrans; [apply run_rank_le|]. pose proof (step_at_rank s i i).
    by rewrite decide_True in H.
  - etrans; [by apply IH|]. pose proof (step_at_rank s i j).
    destruct (decide (i = j)); lia.
Qed.

(** [eg.Wait()] returns when every goroutine has returned. *)
Lemma run_cleanup_done (steps : list nat) (layers : list Layer) (fs : gmap string Z)
    (i : nat) (pc : CleanupPC) :
  pool (run_cleanup env cacheDirectory steps layers fs) !! i = Some pc ->
  exists r, pc = CDone r.
Proof.
  unfold run_cleanup. intros Hp.
  assert (Hr : pc_rank (pool (foldl (step_at env cacheDirectory)
                 {| pool := map CStart layers; files := fs; first_err := None |}
                 (steps ++ seq 0 (length layers) ++ seq 0 (length layers))) !! i) = 0%nat).
  { pose proof (run_inv layers fs (steps ++ seq 0 (length layers) ++ seq 0 (length layers))
                  _ (cleanup_inv_init layers fs)) as (Hlen & _).
    assert (Hi : (i < length layers)%nat) by (rewrite <- Hlen; by eapply lookup_lt_Some).
    rewrite !foldl_app.
    match goal with |- pc_rank (pool (foldl _ (foldl _ ?s0 _) _) !! i) = _ =>
      pose proof (run_rank_dec (seq 0 (length layers)) s0 i) as H1;
      pose proof (run_rank_dec (seq 0 (length layers))
                    (foldl (step_at env cacheDirectory) s0 (seq 0 (length layers))) i) as H2;
      assert (H0 : (pc_rank (pool s0 !! i) <= 2)%nat)
        by (destruct (pool s0 !! i) as [[| |]|]; simpl; lia)
    end.
    assert (Hin : i ∈ seq 0 (length layers)) by (apply elem_of_seq; lia).
    specialize (H1 Hin). specialize (H2 Hin). lia. }
  rewrite Hp in Hr. destruct pc; try discriminate. by eexists.
Qed.

End Cleanup.



(** Two goroutines for the same file that both see the wrong size: the
    second [os.Remove] fails, and the file is gone. *)
Example cleanup_same_layer_twice :
  let s := run_cleanup env_ok "/cache" [0; 1]%nat [layerA; layerA] partial_cache in
  first_err s = Some "failed to remove incomplete layer aaaa: remove /cache/sha256:aaaa: no such file or directory"
  /\ files s !! "/cache/sha256:aaaa" = None.
Proof. split; vm_compute; reflexivity. Qed.

(** ** Proofs: the repair of the blob names *)

Section BlobRepair.
Variable env : Env.

Lemma child_name_Some (dir q : list string) (n : string) :
  child_name dir q = Some n <-> q = dir ++ [n].
Proof.
  unfold child_name. split.
  - destruct (drop (length dir) q) as [|m [|? ?]]; try discriminate.
    case_decide; [|discriminate]. by intros [= <-].
  - intros ->. rewrite drop_app_length. by rewrite decide_True.
Qed.

(** [readDirNames] gives the names of the entries of the directory. *)
Lemma elem_of_readDirNames (fs : gmap (list string) Entry) (dir : list string) (n : string) :
  n ∈ readDirNames fs dir <-> is_Some (fs !! (dir ++ [n])).
Proof.
  unfold readDirNames. rewrite merge_sort_Permutation, list_elem_of_omap. split.
  - intros (q & Hq & Hc). apply child_name_Some in Hc as ->.
    apply list_elem_of_fmap in Hq as ([q e] & -> & Hin).
    apply elem_of_map_to_list in Hin. by eexists.
  - intros [e He]. exists (dir ++ [n]). split; [|by apply child_name_Some].
    apply list_elem_of_fmap. exists (dir ++ [n], e). split; [done|].
    by apply elem_of_map_to_list.
Qed.

Lemma only_renamed_refl (fs : gmap (list string) Entry) : only_renamed env fs fs.
Proof. split; [done | by left]. Qed.

Lemma only_renamed_trans (fs1 fs2 fs3 : gmap (list string) Entry) :
  only_renamed env fs1 fs2 -> only_renamed env fs2 fs3 -> only_renamed env fs1 fs3.
Proof.
  intros [Hd1 Hf1] [Hd2 Hf2]. split.
  - intros q. by rewrite Hd2, Hd1.
  - intros q c Hq. destruct (Hf2 q c Hq) as [H|H]; [by apply Hf1 | by right].
Qed.

Lemma only_renamed_reachable (fs fs' : gmap (list string) Entry) (p : list string) :
  only_renamed env fs fs' -> reachable fs' p -> reachable fs p.
Proof. intros [Hd _] Hr q Hq Hne. apply Hd. by apply Hr. Qed.

(** Below a path that is not a directory nothing can be reached. *)
Lemma reachable_below (fs : gmap (list string) Entry) (p q : list string) :
  p `prefix_of` q -> reachable fs q -> fs !! p <> Some Directory -> q = p.
Proof.
  intros Hpq Hr Hp. destruct (decide (p = q)) as [|Hne]; [done|].
  by destruct (Hp (Hr p Hpq Hne)).
Qed.

Lemma rename_to_hash_spec (p : list string) (contents : string)
    (fs fs' : gmap (list string) Entry) :
  fs !! p = Some (File contents) ->
  rename_to_hash env p contents fs = WDone fs' ->
  only_renamed env fs fs'
  /\ (forall q c, p `prefix_of` q -> reachable fs' q -> fs' !! q = Some (File c) ->
                  last q = Some (sha256_of env c)).
Proof.
  intros Hp. unfold rename_to_hash.
  destruct (hashFault env p); [discriminate|].
  case_decide as Hself.
  - intros [= <-]. split; [apply only_renamed_refl|].
    intros q c Hpq Hr Hq.
    assert (q = p) as -> by (eapply reachable_below; [done..|congruence]).
    rewrite Hp in Hq. injection Hq as <-. by rewrite Hself.
  - destruct p as [|n p]; [discriminate|].
    destruct (fs !! [sha256_of env contents]) as [[c0|]|] eqn:Ht; try discriminate.
    all: intros [= <-]; split; [split|].
    all: try (intros q; destruct (decide ([sha256_of env contents] = q)) as [<-|Hq1];
              [rewrite lookup_insert_eq, Ht; split; discriminate|];
              rewrite lookup_insert_ne by done;
              destruct (decide (n :: p = q)) as [<-|Hq2];
              [rewrite lookup_delete_eq, Hp; split; discriminate|];
              by rewrite lookup_delete_ne).
    all: try (intros q c; destruct (decide ([sha256_of env contents] = q)) as [<-|Hq1];
              [rewrite lookup_insert_eq; intros [= <-]; by right|];
              rewrite lookup_insert_ne by done;
              destruct (decide (n :: p = q)) as [<-|Hq2];
              [by rewrite lookup_delete_eq|];
              rewrite lookup_delete_ne by done; by left).
    all: intros q c Hpq Hr Hq;
         assert (q = n :: p) as ->
           by (eapply reachable_below; [done..|];
               rewrite lookup_insert_ne, lookup_delete_eq by done; discriminate);
         by rewrite lookup_insert_ne, lookup_delete_eq in Hq by done.
Qed.

Lemma walk_names_spec (visit : list string -> gmap (list string) Entry -> WalkResult)
    (p : list string) :
  (forall q fs fs', visit q fs = WDone fs' ->
     only_renamed env fs fs'
     /\ (forall r c, q `prefix_of` r -> reachable fs' r -> fs' !! r = Some (File c) ->
                     last r = Some (sha256_of env c))) ->
  forall names fs fs',
    walk_names visit p names fs = WDone fs' ->
    only_renamed env fs fs'
    /\ (forall n r c, n ∈ names -> (p ++ [n]) `prefix_of` r -> reachable fs' r ->
                      fs' !! r = Some (File c) -> last r = Some (sha256_of env c)).
Proof.
  intros Hvisit names. induction names as [|n names IH]; intros fs fs'; simpl.
  - intros [= <-]. split; [apply only_renamed_refl|]. by intros n r c ?%elem_of_nil.
  - destruct (visit (p ++ [n]) fs) as [fs1| |] eqn:Hv; try discriminate.
    intros Hrest. destruct (Hvisit _ _ _ Hv) as [Hr1 Hgood1].
    destruct (IH _ _ Hrest) as [Hr2 Hgood2].
    split; [by eapply only_renamed_trans|].
    intros m r c [->|Hin]%elem_of_cons Hpre Hreach Hfile; [|by eapply Hgood2].
    destruct Hr2 as [Hd2 Hf2]. destruct (Hf2 r c Hfile) as [Hold| ->].
    + eapply Hgood1; [done| |done]. eapply only_renamed_reachable; [|done]. by split.
    + reflexivity.
Qed.

(** Every file that can be reached below the path walked has the hash of
    its contents as its name afterwards. *)
Lemma walk_spec (fuel : nat) (p : list string) (fs fs' : gmap (list string) Entry) :
  walk env fuel p fs = WDone fs' ->
  only_renamed env fs fs'
  /\ (forall q c, p `prefix_of` q -> reachable fs' q -> fs' !! q = Some (File c) ->
                  last q = Some (sha256_of env c)).
Proof.
  revert p fs fs'. induction fuel as [|fuel IH]; intros p fs fs'; simpl; [discriminate|].
  destruct (fs !! p) as [[contents|]|] eqn:Hp; try discriminate.
  - by apply rename_to_hash_spec.
  - intros Hw. destruct (walk_names_spec _ p IH _ _ _ Hw) as [Hr Hgood].
    split; [done|]. intros q c [k ->] Hreach Hfile.
    destruct Hr as [Hd Hf].
    destruct k as [|n k].
    { rewrite app_nil_r in Hfile. apply Hd in Hp. congruence. }
    assert (Hcases : n ∈ readDirNames fs p \/ p ++ n :: k = [sha256_of env c]).
    { destruct k as [|n' k].
      - destruct (Hf _ _ Hfile) as [Hold|Hnew]; [left | by right].
        apply elem_of_readDirNames. by eexists.
      - left. apply elem_of_readDirNames. exists Directory. apply Hd.
        apply Hreach; [by exists (n' :: k); rewrite <- app_assoc|].
        intros Heq. apply (f_equal length) in Heq.
        rewrite !length_app in Heq. simpl in Heq. lia. }
    destruct Hcases as [Hin| ->]; [|reflexivity].
    eapply Hgood; [exact Hin| |done..].
    exists k. by rewrite <- app_assoc.
Qed.

(** ** The walk ends *)

Lemma walk_fuel_bound (fs : gmap (list string) Entry) (q : list string) :
  is_Some (fs !! q) -> (length q < walk_fuel fs)%nat.
Proof.
  intros [e He]. unfold walk_fuel.
  assert (Hin : q ∈ (map_to_list fs).*1).
  { apply list_elem_of_fmap. exists (q, e). split; [done|]. by apply elem_of_map_to_list. }
  induction ((map_to_list fs).*1) as [|x l IHl]; [by apply elem_of_nil in Hin|].
  simpl. apply elem_of_cons in Hin as [->|Hin]; [lia|]. specialize (IHl Hin). lia.
Qed.

Lemma rename_to_hash_bound (p : list string) (contents : string)
    (fs : gmap (list string) Entry) (K : nat) :
  (length p < K)%nat ->
  (forall q, is_Some (fs !! q) -> (length q < K)%nat) ->
  rename_to_hash env p contents fs <> WOutOfFuel
  /\ (forall fs', rename_to_hash env p contents fs = WDone fs' ->
        forall q, is_Some (fs' !! q) -> (length q < K)%nat).
Proof.
  intros Hp Hfs. unfold rename_to_hash.
  destruct (hashFault env p); [split; [done | discriminate]|].
  case_decide; [split; [done|]; by intros fs' [= <-]|].
  destruct p as [|n p]; [split; [done | discriminate]|].
  assert (Hins : forall q, is_Some (<[[sha256_of env contents] := File contents]>
                                      (delete (n :: p) fs) !! q) -> (length q < K)%nat).
  { intros q. destruct (decide ([sha256_of env contents] = q)) as [<-|Hq].
    - intros _. simpl in *. lia.
    - rewrite lookup_insert_ne by done.
      destruct (decide (n :: p = q)) as [<-|Hq2]; [done|].
      rewrite lookup_delete_ne by done. apply Hfs. }
  destruct (fs !! [sha256_of env contents]) as [[c0|]|];
    (split; [done|]); try discriminate; by intros fs' [= <-].
Qed.

Lemma walk_enough_fuel (fuel : nat) (p : list string) (fs : gmap (list string) Entry)
    (K : nat) :
  (length p + fuel = K)%nat -> (length p < K)%nat ->
  (forall q, is_Some (fs !! q) -> (length q < K)%nat) ->
  walk env fuel p fs <> WOutOfFuel
  /\ (forall fs', walk env fuel p fs = WDone fs' ->
        forall q, is_Some (fs' !! q) -> (length q < K)%nat).
Proof.
  revert p fs. induction fuel as [|fuel IH]; intros p fs HK Hp Hfs; [lia|]. simpl.
  destruct (fs !! p) as [[contents|]|] eqn:Hlook.
  - by apply rename_to_hash_bound.
  - assert (Hnames : forall n, n ∈ readDirNames fs p -> (length (p ++ [n]) < K)%nat).
    { intros n Hn. apply Hfs. by apply elem_of_readDirNames. }
    generalize dependent (readDirNames fs p). intros names.
    clear Hlook. revert fs Hfs.
    induction names as [|n names IHn]; intros fs Hfs Hnames; simpl.
    + split; [done|]. by intros fs' [= <-].
    + assert (Hn : (length (p ++ [n]) < K)%nat) by (apply Hnames; by left).
      destruct (IH (p ++ [n]) fs) as [Hnf Hb]; [rewrite length_app in *; simpl in *; lia|done..|].
      destruct (walk env fuel (p ++ [n]) fs) as [fs1| |] eqn:Hw.
      * apply IHn; [by eapply Hb|]. intros m Hm. apply Hnames. by right.
      * split; [done | discriminate].
      * done.
  - split; [done | discriminate].
Qed.

Lemma repairBlobs_ok (w w' : World) :
  repairBlobs env w = (None, w') -> named_by_hash env (blobs (disk w')).
Proof.
  unfold repairBlobs.
  destruct (walk env _ [] (blobs (disk w))) as [fs'| |] eqn:Hw; try discriminate.
  intros [= <-]. simpl. destruct (walk_spec _ _ _ _ Hw) as [_ Hgood].
  intros p c Hr Hf. eapply Hgood; [|done..]. apply prefix_nil.
Qed.

Lemma repairBlobs_ends (w : World) :
  walk env (walk_fuel (blobs (disk w))) [] (blobs (disk w)) <> WOutOfFuel.
Proof.
  eapply walk_enough_fuel; [reflexivity| |apply walk_fuel_bound].
  unfold walk_fuel. simpl. lia.
Qed.

End BlobRepair.

(** ** Proofs: the save phase of Pull *)

Section Traces.

Lemma occurrences_app (i : Image) (a b : list Image) :
  occurrences i (a ++ b) = (occurrences i a + occurrences i b)%nat.
Proof. unfold occurrences. by rewrite filter_app, length_app. Qed.

Lemma occurrences_none (i : Image) (l : list Image) : i ∉ l -> occurrences i l = 0%nat.
Proof.
  unfold occurrences. induction l as [|j l IH]; [done|].
  intros Hn. apply not_elem_of_cons in Hn as [Hne Hn].
  rewrite filter_cons_False by done. by apply IH.
Qed.

Lemma write_key_save_key (i : Image) (evs : list Event) :
  i ∈ omap write_key evs -> i ∈ omap save_key evs.
Proof.
  rewrite !list_elem_of_omap. intros (e & He & Hk). exists e. split; [done|].
  by destruct e; try discriminate.
Qed.

Lemma appendImage_key_save_key (i : Image) (evs : list Event) :
  i ∈ omap appendImage_key evs -> i ∈ omap save_key evs.
Proof.
  rewrite !list_elem_of_omap. intros (e & He & Hk). exists e. split; [done|].
  by destruct e; try discriminate.
Qed.

Lemma saved_key_save_key (i : Image) (evs : list Event) :
  i ∈ omap saved_key evs -> i ∈ omap save_key evs.
Proof.
  rewrite !list_elem_of_omap. intros (e & He & Hk). exists e. split; [done|].
  by destruct e as [| | | | | | | | | | | |? []|? []|? []]; try discriminate.
Qed.

Lemma never_saved_again_nil : never_saved_again [].
Proof. intros [|x l] e evs2 i Heq; discriminate. Qed.

Lemma never_saved_again_cons (e : Event) (evs : list Event) :
  never_saved_again (e :: evs) <->
  (forall i, saved_key e = Some i -> i ∉ omap save_key evs) /\ never_saved_again evs.
Proof.
  split.
  - intros H. split.
    + intros i Hi. by apply (H [] e evs i).
    + intros evs1 x evs2 i -> Hi. by apply (H (e :: evs1) x evs2 i).
  - intros [H1 H2] [|e0 evs1] x evs2 i Heq Hi; simpl in Heq.
    + injection Heq as <- <-. by apply H1.
    + injection Heq as <- ->. by apply (H2 evs1 x evs2 i).
Qed.

Lemma never_saved_again_app (a b : list Event) :
  never_saved_again a -> never_saved_again b ->
  (forall i, i ∈ omap saved_key a -> i ∉ omap save_key b) ->
  never_saved_again (a ++ b).
Proof.
  induction a as [|e a IH]; intros Ha Hb Hab; [done|]. simpl.
  apply never_saved_again_cons in Ha as [He Ha].
  apply never_saved_again_cons. split.
  - intros i Hi. rewrite omap_app. apply not_elem_of_app. split; [by apply He|].
    apply Hab. simpl. rewrite Hi. by left.
  - apply IH; [done..|]. intros i Hi. apply Hab. simpl.
    destruct (saved_key e); [by right | done].
Qed.

(** Two parts of the save phase, one after the other. *)
Lemma phase_ok_app (nw1 na1 nw2 na2 : nat) (m m1 m2 : gmap Image V1Image)
    (a b : list Event) :
  phase_ok nw1 na1 m a m1 -> phase_ok nw2 na2 m1 b m2 ->
  phase_ok (nw1 + nw2) (na1 + na2) m (a ++ b) m2.
Proof.
  intros (Ha1 & Ha2 & Ha3 & Ha4 & Ha5) (Hb1 & Hb2 & Hb3 & Hb4 & Hb5).
  split; [|split; [|split; [|split]]].
  - intros i. rewrite omap_app, elem_of_app. intros [Hi|Hi]; [by apply Ha1|].
    apply Ha4. by apply Hb1.
  - apply never_saved_again_app; [done..|]. intros i Hi Hb. by apply (Ha3 i Hi), Hb1.
  - intros i. rewrite omap_app, elem_of_app. intros [Hi|Hi]; [|by apply Hb3].
    intros Hd. by apply (Ha3 i Hi), Hb4.
  - by etrans.
  - intros i. rewrite !omap_app, !occurrences_app.
    destruct (Ha5 i), (Hb5 i). lia.
Qed.

Lemma phase_ok_nil (m : gmap Image V1Image) : phase_ok 0 0 m [] m.
Proof.
  split; [|split; [|split; [|split]]]; try done.
  - by intros i ?%elem_of_nil.
  - apply never_saved_again_nil.
  - by intros i ?%elem_of_nil.
Qed.

Lemma phase_ok_warn (m : gmap Image V1Image) (msg : string) : phase_ok 0 0 m [EvWarn msg] m.
Proof.
  split; [|split; [|split; [|split]]]; try done.
  - by intros i ?%elem_of_nil.
  - apply never_saved_again_cons. split; [discriminate | apply never_saved_again_nil].
  - by intros i ?%elem_of_nil.
Qed.

Lemma phase_ok_weaken (nw na nw' na' : nat) (m m' : gmap Image V1Image) (evs : list Event) :
  (nw <= nw')%nat -> (na <= na')%nat -> phase_ok nw na m evs m' -> phase_ok nw' na' m evs m'.
Proof.
  intros Hw Ha (H1 & H2 & H3 & H4 & H5). repeat split; try done; destruct (H5 i); lia.
Qed.

(** The calls for one more image. *)
Lemma progress_ok_step (nw na : nat) (m : gmap Image V1Image) (info : Image)
    (img : V1Image) (rest : list Image) (evs evs1 : list Event)
    (saved saved' : gmap Image V1Image) :
  (1 <= nw + na)%nat -> info ∈ dom m -> info ∉ rest ->
  progress_ok nw na m (info :: rest) evs saved ->
  one_image_ok nw na info img evs1 saved saved' ->
  progress_ok nw na m rest (evs ++ evs1) saved'.
Proof.
  intros Hn Hm Hrest (H1 & H2 & H3 & H4 & H5) (W1 & W2 & W3 & W4 & W5 & W6).
  assert (Hfresh : info ∉ omap save_key evs).
  { intros Hin. destruct (H1 info Hin) as [_ Hnot]. apply Hnot. by left. }
  split; [|split; [|split; [|split]]].
  - intros i. rewrite omap_app, elem_of_app. intros [Hi|Hi].
    + destruct (H1 i Hi) as [Hd Hr]. split; [done|]. intros Hin. apply Hr. by right.
    + by rewrite (W1 i Hi).
  - apply never_saved_again_app; [done..|].
    intros i Hi Hin. rewrite (W1 i Hin) in Hi. by apply Hfresh, saved_key_save_key.
  - intros i. rewrite omap_app, elem_of_app. intros [Hi|Hi].
    + destruct W4 as [-> | ->]; [by apply H3|].
      rewrite dom_insert. apply elem_of_union. right. by apply H3.
    + rewrite (W3 i Hi), dom_insert, (W1 i (saved_key_save_key _ _ Hi)).
      apply elem_of_union. left. by apply elem_of_singleton.
  - intros i Hi. destruct W4 as [-> | ->].
    + destruct (H4 i Hi) as [Hd Hr]. split; [done|]. intros Hin. apply Hr. by right.
    + rewrite dom_insert in Hi. apply elem_of_union in Hi as [->%elem_of_singleton|Hi];
        [done|]. destruct (H4 i Hi) as [Hd Hr]. split; [done|]. intros Hin. apply Hr. by right.
  - intros i. rewrite !omap_app, !occurrences_app. destruct (H5 i) as [Hw Ha].
    destruct (decide (i = info)) as [->|Hne].
    + rewrite (occurrences_none info (omap write_key evs))
        by (intros Hin; by apply Hfresh, write_key_save_key).
      rewrite (occurrences_none info (omap appendImage_key evs))
        by (intros Hin; by apply Hfresh, appendImage_key_save_key).
      lia.
    + rewrite (occurrences_none i (omap write_key evs1))
        by (intros Hin; apply Hne, W1; by apply write_key_save_key).
      rewrite (occurrences_none i (omap appendImage_key evs1))
        by (intros Hin; apply Hne, W1; by apply appendImage_key_save_key).
      lia.
Qed.

Lemma progress_ok_init (nw na : nat) (m : gmap Image V1Image) (rest : list Image) :
  progress_ok nw na m rest [] ∅.
Proof.
  split; [|split; [|split; [|split]]].
  - by intros i ?%elem_of_nil.
  - apply never_saved_again_nil.
  - by intros i ?%elem_of_nil.
  - intros i. by rewrite dom_empty, elem_of_empty.
  - intros i. split; simpl; unfold occurrences; simpl; lia.
Qed.

(** An attempt, when it is over. *)
Lemma progress_ok_phase (nw na : nat) (m : gmap Image V1Image) (rest : list Image)
    (evs : list Event) (saved : gmap Image V1Image) :
  progress_ok nw na m rest evs saved -> phase_ok nw na m evs (m ∖ saved).
Proof.
  intros (H1 & H2 & H3 & H4 & H5). split; [|split; [|split; [|split]]]; try done.
  - intros i Hi. by apply H1.
  - intros i Hi Hd. apply H3 in Hi. apply elem_of_dom in Hi as [x Hx].
    apply elem_of_dom in Hd as [y Hy]. apply lookup_difference_Some in Hy as [_ Hy].
    congruence.
  - intros i Hi. apply elem_of_dom in Hi as [y Hy].
    apply lookup_difference_Some in Hy as [Hy _]. apply elem_of_dom. by eexists.
Qed.

End Traces.

Section SavePhase.
Variable env : Env.
Variable cacheDirectory : string.

Lemma CleanupInProgressLayers_log (img : V1Image) (w : World) :
  log (CleanupInProgressLayers env img cacheDirectory w).2 = log w.
Proof. unfold CleanupInProgressLayers. by destruct (img_Layers img). Qed.

Lemma cleanup_after_failure_log (img : V1Image) (w : World) :
  log (cleanup_after_failure env img cacheDirectory w) = log w
  \/ log (cleanup_after_failure env img cacheDirectory w) = log w ++ [EvWarn cleanupWarning].
Proof.
  unfold cleanup_after_failure.
  pose proof (CleanupInProgressLayers_log img w) as Hl.
  destruct (CleanupInProgressLayers env img cacheDirectory w) as [[e|] w1]; simpl in *.
  - right. by rewrite Hl.
  - by left.
Qed.

Ltac one_image :=
  repeat split;
  repeat match goal with
    | |- forall _, _ => intro
    | H : _ ∈ omap _ _ |- _ => simpl in H
    | H : _ ∈ [] |- _ => by apply elem_of_nil in H
    | H : _ ∈ _ :: _ |- _ => apply elem_of_cons in H as [H|H]
    | |- never_saved_again [] => apply never_saved_again_nil
    | |- never_saved_again (_ :: _) => apply never_saved_again_cons; split
    | H : saved_key _ = Some _ |- _ => simpl in H; try discriminate H
    | |- _ ∉ omap _ _ => simpl; try apply not_elem_of_nil
    end;
  try done; try (by left); try (by right);
  try (unfold occurrences; simpl; rewrite ?filter_cons_True, ?filter_nil by done;
       simpl; lia).

(** The calls of the goroutine [SaveConcurrent] starts for an image. *)
Lemma saveWorker_events (cancelled : bool) (info : Image) (img : V1Image)
    (saved : gmap Image V1Image) (w : World) :
  exists evs,
    log (saveWorker env cacheDirectory cancelled info img saved w).2
    = log w ++ evs
    /\ one_image_ok 1 0 info img evs saved
         (saveWorker env cacheDirectory cancelled info img saved w).1.2.
Proof.
  unfold saveWorker.
  destruct cancelled; [exists []; rewrite app_nil_r; one_image|].
  destruct (partialDescriptor env img); [exists []; rewrite app_nil_r; one_image|].
  destruct (getSizeOfImage img); [|exists []; rewrite app_nil_r; one_image].
  unfold do_writeImage.
  destruct (writeImage env _ info img (disk w)) as [[e|] d].
  - rewrite bool_decide_eq_false_2 by done. simpl.
    match goal with |- context [cleanup_after_failure env img cacheDirectory ?w0] =>
      destruct (cleanup_after_failure_log img w0) as [-> | ->] end; simpl.
    + exists [EvWriteImage info false]. one_image.
    + exists [EvWriteImage info false; EvWarn cleanupWarning].
      rewrite <- app_assoc. one_image.
  - rewrite bool_decide_eq_true_2 by done. unfold do_appendDescriptor.
    match goal with |- context [appendDescriptor env ?n info ?d0] =>
      destruct (appendDescriptor env n info d0) as [[e|] d'] end.
    + rewrite bool_decide_eq_false_2 by done. simpl.
      exists [EvWriteImage info true; EvAppendDescriptor info false].
      rewrite <- app_assoc. one_image.
    + rewrite bool_decide_eq_true_2 by done. simpl.
      exists [EvWriteImage info true; EvAppendDescriptor info true].
      rewrite <- app_assoc. one_image.
Qed.

Lemma save_fold (m : gmap Image V1Image) (order : list (Image * V1Image)) :
  NoDup order.*1 -> (forall kv, kv ∈ order -> kv.1 ∈ dom m) ->
  forall first saved w,
  exists evs',
    log (foldl (save_step env cacheDirectory) (first, saved, w) order).2 = log w ++ evs'
    /\ forall evs, progress_ok 1 0 m order.*1 evs saved ->
         progress_ok 1 0 m [] (evs ++ evs')
           (foldl (save_step env cacheDirectory) (first, saved, w) order).1.2.
Proof.
  induction order as [|[info img] order IH]; intros Hnd Hdom first saved w.
  - exists []. rewrite !app_nil_r. split; [done|]. intros evs. by rewrite app_nil_r.
  - simpl. apply NoDup_cons in Hnd as [Hfresh Hnd].
    destruct (saveWorker_events (bool_decide (is_Some first) || ctx_done env w)
                info img saved w) as (evs1 & Hlog1 & Hone).
    destruct (saveWorker env cacheDirectory _ info img saved w) as [[err saved1] w1].
    simpl in *.
    destruct (IH Hnd (fun kv Hkv => Hdom kv (list_elem_of_further _ _ _ Hkv))
                 (keep_first first err) saved1 w1) as (evs2 & Hlog2 & Hprog).
    exists (evs1 ++ evs2). rewrite Hlog2, Hlog1, <- app_assoc. split; [done|].
    intros evs Hevs. rewrite app_assoc. apply Hprog.
    eapply progress_ok_step; [lia| |done..].
    apply (Hdom (info, img)). by left.
Qed.

Lemma order_of_map (m : gmap Image V1Image) (ks : list nat) :
  NoDup (shuffle ks (map_to_list m)).*1
  /\ forall kv, kv ∈ shuffle ks (map_to_list m) -> kv.1 ∈ dom m.
Proof.
  split.
  - rewrite shuffle_perm. apply NoDup_fst_map_to_list.
  - intros [k v]. rewrite shuffle_perm. intros Hin%elem_of_map_to_list.
    apply elem_of_dom. by eexists.
Qed.

(** An attempt of the concurrent save: every image is written at most
    once, the images it reports as saved are the ones whose descriptor
    was appended, and they leave [toPull]. *)
Lemma SaveConcurrent_phase (m : gmap Image V1Image) (w : World) :
  exists evs,
    log (SaveConcurrent env m cacheDirectory w).2 = log w ++ evs
    /\ phase_ok 1 0 m evs (m ∖ (SaveConcurrent env m cacheDirectory w).1.1).
Proof.
  unfold SaveConcurrent, next_sched. cbv beta iota.
  destruct (order_of_map m (sched env (tick w))) as [Hnd Hdom].
  match goal with |- context [foldl ?f ?a ?l] =>
    destruct (save_fold m l Hnd Hdom None ∅
                {| log := log w; disk := disk w; tick := S (tick w) |})
      as (evs & Hlog & Hprog);
    destruct (foldl f a l) as [[first saved] w'] eqn:Hfold end.
  match type of Hlog with log (?t).2 = _ =>
    assert (Hf2 : t = (first, saved, w')) by exact Hfold; rewrite Hf2 in Hlog, Hprog end.
  simpl in *. exists evs. split; [done|].
  eapply progress_ok_phase. apply (Hprog []). apply progress_ok_init.
Qed.

Lemma saveSequential_loop_events (m : gmap Image V1Image)
    (order : list (Image * V1Image)) :
  NoDup order.*1 -> (forall kv, kv ∈ order -> kv.1 ∈ dom m) ->
  forall saved w,
  exists evs' rest,
    log (saveSequential_loop env cacheDirectory order saved w).2 = log w ++ evs'
    /\ forall evs, progress_ok 0 1 m order.*1 evs saved ->
         progress_ok 0 1 m rest (evs ++ evs')
           (saveSequential_loop env cacheDirectory order saved w).1.1.
Proof.
  induction order as [|[info img] order IH]; intros Hnd Hdom saved w.
  - exists [], []. rewrite !app_nil_r. split; [done|]. intros evs. by rewrite app_nil_r.
  - simpl. apply NoDup_cons in Hnd as [Hfresh Hnd].
    assert (Hin : info ∈ dom m) by (apply (Hdom (info, img)); by left).
    destruct (getSizeOfImage img).
    2: { exists [], (info :: order.*1). rewrite !app_nil_r. split; [done|].
         intros evs. by rewrite app_nil_r. }
    unfold do_appendImage.
    destruct (appendImage env _ info img (disk w)) as [[e|] d].
    + rewrite bool_decide_eq_false_2 by done. simpl.
      match goal with |- context [cleanup_after_failure env img cacheDirectory ?w0] =>
        destruct (cleanup_after_failure_log img w0) as [-> | ->] end; simpl.
      * exists [EvAppendImage info false], order.*1. split; [done|].
        intros evs Hevs. eapply (progress_ok_step 0 1 m info img); [lia|done..|].
        one_image.
      * exists [EvAppendImage info false; EvWarn cleanupWarning], order.*1.
        rewrite <- app_assoc. split; [done|].
        intros evs Hevs. eapply (progress_ok_step 0 1 m info img); [lia|done..|].
        one_image.
    + rewrite bool_decide_eq_true_2 by done.
      match goal with |- context [saveSequential_loop env cacheDirectory order ?s1 ?w1] =>
        destruct (IH Hnd (fun kv Hkv => Hdom kv (list_elem_of_further _ _ _ Hkv)) s1 w1)
          as (evs2 & rest & Hlog2 & Hprog) end.
      exists (EvAppendImage info true :: evs2), rest. rewrite Hlog2. simpl.
      rewrite <- app_assoc. split; [done|].
      intros evs Hevs.
      change (EvAppendImage info true :: evs2) with ([EvAppendImage info true] ++ evs2).
      rewrite app_assoc. apply Hprog.
      eapply (progress_ok_step 0 1 m info img); [lia|done..|]. one_image.
Qed.

(** An attempt of the sequential save. *)
Lemma SaveSequential_phase (m : gmap Image V1Image) (w : World) :
  exists evs,
    log (SaveSequential env m cacheDirectory w).2 = log w ++ evs
    /\ phase_ok 0 1 m evs (m ∖ (SaveSequential env m cacheDirectory w).1.1).
Proof.
  unfold SaveSequential, next_sched. cbv beta iota.
  destruct (order_of_map m (sched env (tick w))) as [Hnd Hdom].
  destruct (saveSequential_loop_events m _ Hnd Hdom ∅
              {| log := log w; disk := disk w; tick := S (tick w) |})
    as (evs & rest & Hlog & Hprog).
  exists evs. split; [done|].
  eapply progress_ok_phase. apply (Hprog []). apply progress_ok_init.
Qed.

End SavePhase.


Section Retry.
Context {S : Type}.
Variable f : S -> error * S.
Variable done : S -> bool.



End Retry.

Section RetrySave.
Variable save : gmap Image V1Image -> World -> (gmap Image V1Image * error) * World.
Variable done : gmap Image V1Image * World -> bool.
Variables nw na : nat.
Hypothesis save_phase : forall m w,
  exists evs, log (save m w).2 = log w ++ evs
              /\ phase_ok nw na m evs (m ∖ (save m w).1.1).

Lemma retry_loop_phase (n : nat) (errs : list string) (m : gmap Image V1Image) (w : World) :
  exists evs,
    log (retry_loop (save_attempt save) done n errs (m, w)).2.2 = log w ++ evs
    /\ phase_ok (n * nw) (n * na) m evs
         (retry_loop (save_attempt save) done n errs (m, w)).2.1.
Proof.
  revert errs m w. induction n as [|n IH]; intros errs m w.
  - exists []. rewrite app_nil_r. split; [done | apply phase_ok_nil].
  - simpl.
    assert (Hsa : save_attempt save (m, w)
                  = ((save m w).1.2, (m ∖ (save m w).1.1, (save m w).2)))
      by (unfold save_attempt; simpl; by destruct (save m w) as [[? ?] ?]).
    rewrite Hsa. clear Hsa.
    destruct (save_phase m w) as (evs1 & Hlog1 & Hph1).
    destruct (save m w) as [[saved err] w1]. simpl in *.
    assert (Hone : phase_ok (Datatypes.S n * nw) (Datatypes.S n * na) m evs1 (m ∖ saved))
      by (eapply phase_ok_weaken; [| |exact Hph1]; lia).
    destruct err as [e|]; [|by exists evs1].
    destruct n as [|n']; [by exists evs1|].
    destruct (done (m ∖ saved, w1)); [by exists evs1|].
    destruct (IH (errs ++ [e]) (m ∖ saved) w1) as (evs2 & Hlog2 & Hph2).
    exists (evs1 ++ evs2). rewrite Hlog2, Hlog1, <- app_assoc. split; [done|].
    change (Datatypes.S (Datatypes.S n') * nw)%nat with (nw + Datatypes.S n' * nw)%nat.
    change (Datatypes.S (Datatypes.S n') * na)%nat with (na + Datatypes.S n' * na)%nat.
    by eapply phase_ok_app.
Qed.

Lemma retry_Do_phase (n : nat) (m : gmap Image V1Image) (w : World) :
  exists evs,
    log (retry_Do (save_attempt save) done n (m, w)).2.2 = log w ++ evs
    /\ phase_ok (n * nw) (n * na) m evs (retry_Do (save_attempt save) done n (m, w)).2.1.
Proof.
  unfold retry_Do. destruct (done (m, w)); [|apply retry_loop_phase].
  exists []. rewrite app_nil_r. split; [done|].
  eapply phase_ok_weaken; [| |apply phase_ok_nil]; lia.
Qed.

End RetrySave.



(** C4: the repair that ends [Pull] gives every file that can be reached
    below [blobs/sha256] the hash of its contents as its name, whatever the
    blobs are and wherever they come from; the walk always comes to its end;
    and a [Pull] that returns its images has run the repair, after a save
    phase without an error, and leaves every file of [blobs/sha256] under
    the hash of its contents. *)
Theorem Pull_blobs_named_by_hash (env : Env) :
  (forall w w', repairBlobs env w = (None, w') -> named_by_hash env (blobs (disk w')))
  /\ (forall w, walk env (walk_fuel (blobs (disk w))) [] (blobs (disk w)) <> WOutOfFuel)
  /\ (forall cfg w images w',
        Pull env cfg w = (Ok images, w') ->
        named_by_hash env (blobs (disk w'))
        /\ exists w0 w1, (savePhase env (CacheDirectory cfg) images w0) = (None, w1)
                         /\ repairBlobs env w1 = (None, w')).
Proof.
  split; [apply repairBlobs_ok|]. split; [apply repairBlobs_ends|].
  intros cfg w images w'. unfold Pull.
  destruct (createDirectory env _ _); [discriminate|].
  destruct (layoutWrite env _ _); [discriminate|].
  destruct (fetchAll env cfg _) as [[[e|] st] w1]; [discriminate|].
  destruct (savePhase env (CacheDirectory cfg) (fetched st) _) as [[e|] w2] eqn:Hsave;
    [discriminate|].
  destruct (repairBlobs env w2) as [[e|] w3] eqn:Hrep; [discriminate|].
  intros [= <- <-]. split; [by eapply repairBlobs_ok|]. by eauto.
Qed.

Lemma Pull_blobs_named_by_hash_witness :
  is_ok (Pull env_misnamed (cfg_of [nginx] "/cache") world0).1 = true
  /\ blobs (disk (Pull env_misnamed (cfg_of [nginx] "/cache") world0).2) !! ["0123"] = None
  /\ blobs (disk (Pull env_misnamed (cfg_of [nginx] "/cache") world0).2) !! ["h-config"]
     = Some (File "config")
  /\ named_by_hash env_misnamed
       (blobs (disk (Pull env_misnamed (cfg_of [nginx] "/cache") world0).2)).
Proof.
  assert (Hok : is_ok (Pull env_misnamed (cfg_of [nginx] "/cache") world0).1 = true)
    by (vm_compute; reflexivity).
  split; [exact Hok|]. split; [vm_compute; reflexivity|]. split; [vm_compute; reflexivity|].
  destruct (Pull_blobs_named_by_hash env_misnamed) as (_ & _ & HP).
  destruct (Pull env_misnamed (cfg_of [nginx] "/cache") world0) as [[images|e] w'] eqn:Hp;
    [|discriminate Hok].
  destruct (HP _ _ _ _ Hp) as [Hnamed _]. exact Hnamed.
Defined.
(** ** Further properties: package exec *)

Section ExecMore.
Import Exec.
Variable spawn : string -> list string -> string -> list string -> Process.




(** [Cmd] never hands back what the process wrote: no [Print], no copy. *)
Lemma Cmd_output command args w :
  (Cmd spawn command args w).1.1 = ("", "").
Proof.
  unfold Cmd, CmdWithContext. destruct (String.eqb command ""); [reflexivity|].
  simpl. destruct (start_err _); reflexivity.
Qed.

End ExecMore.


(** ** Further properties: the root command *)

Section RootMore.
Import Root.

Lemma no_log_file_comps (comps : list string) (s : string) :
  (1 <? length comps)%nat && bool_decide (comps !! 1%nat = Some s)
  = bool_decide (comps !! 1%nat = Some s).
Proof.
  destruct comps as [|a [|b l]]; simpl; try reflexivity.
Qed.

Lemma setupLogger_flags cmd level format color g :
  let g' := (setupLogger cmd level format color g).2 in
  LogFormat g' = LogFormat g /\ SkipLogFile g' = SkipLogFile g
  /\ LogLevelCLI g' = LogLevelCLI g /\ NoColor g' = NoColor g
  /\ NoProgress g' = NoProgress g /\ loggingEnabled g' = loggingEnabled g
  /\ messageLevel g' = messageLevel g.
Proof.
  unfold setupLogger. destruct (parseLevel cmd _); [repeat split|].
  destruct (newLogger cmd); repeat split.
Qed.

Lemma setupLogger_with_logfile ct ul cmd level format color g :
  setupLogger (with_logfile ct ul cmd) level format color g
  = setupLogger cmd level format color g.
Proof. reflexivity. Qed.

Lemma SetupMessage_skip ct ul cmd cfg g :
  FeatureDisabled cfg = true \/ cfgSkipLogFile cfg = true ->
  SetupMessage (with_logfile ct ul cmd) cfg g = SetupMessage cmd cfg g.
Proof.
  unfold SetupMessage. intros [H|H]; rewrite H; [reflexivity|].
  destruct (FeatureDisabled cfg); [reflexivity|]. simpl.
  destruct (if String.eqb (Level cfg) "" then _ else _); reflexivity.
Qed.

(** X2: [preRun] consults neither [os.CreateTemp] nor
    [message.UseLogFile] (it makes no log file) for a vendor-only command,
    under [--no-log-file], for [zarf tools ...] and [zarf version ...], for
    the root command itself and for every log format but [legacy]: its
    result does not depend on what they would answer. *)
Theorem preRun_no_log_file (cmd : Command) (g : Globals) (ct ul : error) :
  vendorOnly cmd = true \/ no_log_file cmd g = true ->
  preRun (with_logfile ct ul cmd) g = preRun cmd g.
Proof.
  intros H. unfold preRun.
  set (g0 := if Insecure (CommonOpts g) then _ else g).
  assert (Hg0 : SkipLogFile g0 = SkipLogFile g /\ LogFormat g0 = LogFormat g).
  { subst g0. destruct (Insecure (CommonOpts g)); split; reflexivity. }
  destruct Hg0 as [Hs Hf]. clearbody g0.
  change (vendorOnly (with_logfile ct ul cmd)) with (vendorOnly cmd).
  destruct (vendorOnly cmd) eqn:Hv; [reflexivity|].
  destruct H as [H|H]; [discriminate|].
  cbv zeta. rewrite !no_log_file_comps.
  change (CommandPath (with_logfile ct ul cmd)) with (CommandPath cmd).
  change (HasParent (with_logfile ct ul cmd)) with (HasParent cmd).
  change (printViperConfigUsed (with_logfile ct ul cmd)) with (printViperConfigUsed cmd).
  rewrite setupLogger_with_logfile.
  pose proof (setupLogger_flags cmd (LogLevelCLI g0) (LogFormat g0) (negb (NoColor g0)) g0)
    as Hfl. cbv zeta in Hfl.
  destruct (setupLogger cmd (LogLevelCLI g0) (LogFormat g0) (negb (NoColor g0)) g0)
    as [[e|] g1]; [reflexivity|].
  simpl in Hfl. destruct Hfl as (Hf1 & _).
  rewrite SetupMessage_skip; [reflexivity|].
  simpl. rewrite Hf1, Hf, Hs.
  unfold no_log_file in H.
  destruct (String.eqb (LogFormat g) "legacy"); simpl; [|auto].
  right. simpl in H. rewrite !orb_false_r in H.
  destruct (HasParent cmd); simpl in *; [|reflexivity].
  rewrite orb_false_r in H.
  destruct (bool_decide (SplitByte (CommandPath cmd) " " !! 1%nat = Some "version"));
    [reflexivity|].
  destruct (bool_decide (SplitByte (CommandPath cmd) " " !! 1%nat = Some "tools"));
    [reflexivity|].
  rewrite !orb_false_r in H. exact H.
Qed.

Lemma SetupMessage_flags cmd cfg g :
  let g' := (SetupMessage cmd cfg g).2 in
  (NoProgress g = true -> NoProgress g' = true)
  /\ loggingEnabled g' = loggingEnabled g
  /\ (FeatureDisabled cfg = true ->
      NoProgress g' = true /\ messageLevel g' = messageLevel g)
  /\ ((SetupMessage cmd cfg g).1 = None -> FeatureDisabled cfg = false ->
      (String.eqb (envCI cmd) "true" = true -> NoProgress g' = true)
      /\ (Level cfg <> "" -> messageLevel g' = message_level (Level cfg))).
Proof.
  unfold SetupMessage. destruct (FeatureDisabled cfg).
  { simpl. repeat split; auto; discriminate. }
  destruct (String.eqb_spec (Level cfg) "") as [Hl|Hl].
  - destruct (String.eqb (envCI cmd) "true"), (cfgSkipLogFile cfg); simpl;
      try (destruct (createTemp cmd); simpl; [|destruct (useLogFile cmd); simpl]);
      repeat split; auto; try discriminate; try contradiction.
  - destruct (message_level (Level cfg)) eqn:Hm.
    + destruct (String.eqb (envCI cmd) "true"), (cfgSkipLogFile cfg); simpl;
        try (destruct (createTemp cmd); simpl; [|destruct (useLogFile cmd); simpl]);
        repeat split; auto; try discriminate; try contradiction.
    + simpl. repeat split; auto; discriminate.
Qed.

(** X3: [preRun] never turns progress output back on and never takes
    logging off; when it succeeds for a command that is not vendor-only,
    then with a log format other than [legacy] progress output is off,
    logging is enabled and the message level is left as it was, and with
    the [legacy] format progress output is off when [CI] is [true] and the
    message level of a non-empty [--log-level] is the level's entry in the
    table ([error] is mapped to [warn]). *)
Theorem preRun_message_state (cmd : Command) (g : Globals) :
  let g' := (preRun cmd g).2 in
  (NoProgress g = true -> NoProgress g' = true)
  /\ (loggingEnabled g = true -> loggingEnabled g' = true)
  /\ ((preRun cmd g).1 = None -> vendorOnly cmd = false ->
      (LogFormat g <> "legacy" ->
         NoProgress g' = true /\ loggingEnabled g' = true
         /\ messageLevel g' = messageLevel g)
      /\ (LogFormat g = "legacy" ->
         (envCI cmd = "true" -> NoProgress g' = true)
         /\ (LogLevelCLI g <> "" ->
             messageLevel g' = message_level (LogLevelCLI g)))).
Proof.
  unfold preRun.
  set (g0 := if Insecure (CommonOpts g) then _ else g).
  assert (Hg0 : NoProgress g0 = NoProgress g /\ loggingEnabled g0 = loggingEnabled g
                /\ LogFormat g0 = LogFormat g /\ LogLevelCLI g0 = LogLevelCLI g
                /\ messageLevel g0 = messageLevel g).
  { subst g0. destruct (Insecure (CommonOpts g)); repeat split. }
  destruct Hg0 as (Hn0 & Hl0 & Hf0 & Hc0 & Hm0). clearbody g0.
  rewrite <- Hn0, <- Hl0, <- Hf0, <- Hc0, <- Hm0. clear Hn0 Hl0 Hf0 Hc0 Hm0 g.
  destruct (vendorOnly cmd); [simpl; repeat split; auto; discriminate|].
  cbv zeta.
  pose proof (setupLogger_flags cmd (LogLevelCLI g0) (LogFormat g0) (negb (NoColor g0)) g0)
    as Hfl. cbv zeta in Hfl.
  destruct (setupLogger cmd (LogLevelCLI g0) (LogFormat g0) (negb (NoColor g0)) g0)
    as [[e|] g1]; simpl in Hfl; destruct Hfl as (Hf1 & Hs1 & Hc1 & Hnc1 & Hn1 & Hl1 & Hm1).
  { simpl. rewrite Hn1, Hl1. repeat split; auto; discriminate. }
  match goal with |- context [SetupMessage cmd ?c ?gg] =>
    pose proof (SetupMessage_flags cmd c gg) as Hsm;
    destruct (SetupMessage cmd c gg) as [[e|] g3] eqn:Hmsg end;
    cbv zeta in Hsm; simpl in Hsm; destruct Hsm as (Hp & Hle & Hdis & Hen).
  - simpl. destruct (String.eqb (LogFormat g1) "legacy"); simpl in *.
    + rewrite Hn1 in Hp. rewrite Hle, Hl1. repeat split; auto; discriminate.
    + rewrite Hn1 in Hp. rewrite Hle. repeat split; auto; discriminate.
  - rewrite Hf1 in *.
    destruct (printViperConfigUsed cmd) as [ev|];
      destruct (String.eqb_spec (LogFormat g0) "legacy") as [Hleg|Hleg]; simpl in *.
    + rewrite Hn1 in Hp. rewrite Hle, Hl1. repeat split; auto; discriminate.
    + rewrite Hn1 in Hp. rewrite Hle. repeat split; auto; discriminate.
    + rewrite Hn1 in Hp. rewrite Hle, Hl1.
      split; [exact Hp|]. split; [auto|].
      intros _ _. split; [intros Hne; contradiction|].
      intros _. specialize (Hen eq_refl eq_refl). destruct Hen as [Hci Hlev].
      rewrite Hc1 in Hlev. split; [|exact Hlev].
      intros Hci'. apply Hci. rewrite Hci'. reflexivity.
    + rewrite Hn1 in Hp. rewrite Hle.
      split; [exact Hp|]. split; [auto|].
      intros _ _. split; [|intros Heq; contradiction].
      intros _. destruct (Hdis eq_refl) as [Hnp Hml]. rewrite Hnp, Hml.
      split; [reflexivity|]. split; [reflexivity|]. exact Hm1.
Qed.



(** X5: [Execute] returns only when the command succeeded; on an error it
    leaves through the command's own printer for the tools helm, yq and
    kubectl, and otherwise through the error message. When the failing
    command is [tools] itself (a path of two components, the second one
    [tools]) the test reads [comps[2]], which is out of range: [Execute]
    panics, and it does so for no other path. *)
Theorem Execute_outcomes (prefix path : string) (err : error) :
  let comps := SplitByte path " "%char in
  (Execute prefix path err = Returned <-> err = None)
  /\ (Execute prefix path err = IndexPanic
      <-> err <> None /\ exists a, comps = [a; "tools"])
  /\ (forall line, Execute prefix path err = ExitDefaultPrinter line
      <-> exists e a c rest, err = Some e /\ comps = a :: "tools" :: c :: rest
            /\ c ∈ defaultPrintCmds /\ line = prefix +:+ " " +:+ e +:+ nl)
  /\ (forall e, err = Some e ->
        (forall a c rest, comps = a :: "tools" :: c :: rest -> c ∉ defaultPrintCmds) ->
        (forall a, comps <> [a; "tools"]) ->
        Execute prefix path err = ExitMessage e).
Proof.
  intros comps. unfold Execute. fold comps.
  destruct err as [e|].
  2:{ split; [split; reflexivity|]. split; [split; [discriminate|intros [? _]; contradiction]|].
      split; [|discriminate].
      intros line. split; [discriminate|]. intros (e & a & c & rest & ? & _). discriminate. }
  rewrite no_log_file_comps.
  destruct comps as [|a [|b l]]; simpl.
  - split; [split; discriminate|]. split; [split; [discriminate|intros [_ [? ?]]; discriminate]|].
    split; [|intros ? [= <-]; reflexivity].
    intros line; split; [discriminate|]. intros (? & ? & ? & ? & _ & ? & _); discriminate.
  - split; [split; discriminate|]. split; [split; [discriminate|intros [_ [? ?]]; discriminate]|].
    split; [|intros ? [= <-]; reflexivity].
    intros line; split; [discriminate|]. intros (? & ? & ? & ? & _ & ? & _); discriminate.
  - destruct (bool_decide_reflect (Some b = Some "tools")) as [Hb|Hb].
    + injection Hb as ->. destruct l as [|c rest]; simpl.
      * split; [split; discriminate|]. split; [split; [intros _; split; [discriminate|eauto]|reflexivity]|].
        split; [|intros ? _ _ Hn; exfalso; exact (Hn a eq_refl)].
        intros line; split; [discriminate|]. intros (? & ? & ? & ? & _ & ? & _); discriminate.
      * destruct (bool_decide_reflect (c ∈ defaultPrintCmds)) as [Hc|Hc].
        -- split; [split; discriminate|].
           split; [split; [discriminate|intros [_ [? ?]]; discriminate]|].
           split; [|intros ? _ Hn _; exfalso; exact (Hn a c rest eq_refl Hc)].
           intros line; split.
           ++ intros [= <-]. exists e, a, c, rest. repeat split; auto.
           ++ intros (e' & a' & c' & rest' & [= <-] & _ & _ & ->). reflexivity.
        -- split; [split; discriminate|].
           split; [split; [discriminate|intros [_ [? ?]]; discriminate]|].
           split; [|intros ? [= <-]; reflexivity].
           intros line; split; [discriminate|].
           intros (e' & a' & c' & rest' & _ & [= <- <- <-] & Hin & _). contradiction.
    + split; [split; discriminate|].
      split; [split; [discriminate|intros [_ [? [= _ ->]]]; contradiction]|].
      split; [|intros ? [= <-]; reflexivity].
      intros line; split; [discriminate|].
      intros (e' & a' & c' & rest' & _ & [= _ -> _] & _). contradiction.
Qed.

End RootMore.

Lemma preRun_no_log_file_witness :
  let cmd := {| Root.CommandPath := "zarf tools crane"; Root.HasParent := true;
                Root.vendorOnly := false; Root.parseLevel := fun _ => None;
                Root.newLogger := None; Root.envCI := "";
                Root.createTemp := Some "disk full"; Root.useLogFile := None;
                Root.printViperConfigUsed := None |} in
  let g := {| Root.CommonOpts := {| Root.Insecure := false;
                                    Root.InsecureSkipTLSVerify := false;
                                    Root.PlainHTTP := false; Root.CachePath := "";
                                    Root.TempDirectory := "" |};
              Root.LogLevelCLI := "info"; Root.LogFormat := "legacy";
              Root.SkipLogFile := false; Root.NoColor := false;
              Root.NoProgress := false; Root.messageLevel := None;
              Root.loggingEnabled := false; Root.defaultLogger := None |} in
  (Root.vendorOnly cmd = true \/ Root.no_log_file cmd g = true)
  /\ (Root.preRun cmd g).1 = None.
Proof.
  intros cmd g.
  assert (H : Root.vendorOnly cmd = true \/ Root.no_log_file cmd g = true)
    by (right; reflexivity).
  split; [exact H|].
  rewrite <- (preRun_no_log_file cmd g None None H). reflexivity.
Defined.
(** ** Further properties: the fetch phase of Pull *)

Section Runs.

Lemma new_events_app (w w' : World) (evs : list Event) :
  log w' = log w ++ evs -> new_events w w' = evs.
Proof. unfold new_events. intros ->. by rewrite drop_app_length. Qed.

Lemma count_sources_app (a b : list Event) :
  count_sources (a ++ b) = (count_sources a + count_sources b)%nat.
Proof. unfold count_sources. by rewrite List.filter_app, length_app. Qed.


Lemma sum_Z_perm (l l' : list Z) : l ≡ₚ l' -> sum_Z l = sum_Z l'.
Proof. unfold sum_Z. induction 1; simpl; lia. Qed.

Lemma fetched_size_insert (m : gmap Image V1Image) (i : Image) (img : V1Image) :
  m !! i = None -> fetched_size (<[i := img]> m) = image_size img + fetched_size m.
Proof.
  intros Hn. unfold fetched_size.
  rewrite (sum_Z_perm _ (image_size <$> ((i, img) :: map_to_list m).*2)).
  - reflexivity.
  - by rewrite (map_to_list_insert m i img Hn).
Qed.

End Runs.

Section FetchMore.
Variable env : Env.
Variable cfg : PullConfig.

Ltac log_done :=
  unfold log_ev; cbn [log fst snd]; rewrite <- ?app_assoc; cbn [app];
  eexists; split; [reflexivity|]; split; [cbv; lia|];
  split; [first [discriminate | reflexivity] | repeat constructor].

(** The calls of the fall-back to the docker daemon. *)
Lemma loadFromDaemon_sources (c : bool) (reference ref host0 e : string) (w : World) :
  exists evs,
    log (loadFromDaemon env c reference ref host0 e w).2 = log w ++ evs
    /\ (count_sources evs <= 1)%nat
    /\ (is_ok (loadFromDaemon env c reference ref host0 e w).1.1 = true ->
        count_sources evs = 1%nat)
    /\ Forall (fun e => save_key e = None) evs.
Proof.
  unfold loadFromDaemon.
  destruct (String.eqb host0 "").
  - destruct (dockerEndpointHost env _) as [h|]; cbn [log log_ev fst snd]; [|log_done].
    destruct (dockerNewClient env _ _); cbn [log log_ev fst snd]; [log_done|].
    destruct (dockerInspect env _ _ _ _) as [size|]; cbn [log log_ev fst snd]; [|log_done].
    destruct (daemonImage env _ _ _); destruct (750 * 1000 * 1000 <? size); log_done.
  - destruct (dockerNewClient env _ _); cbn [log log_ev fst snd]; [log_done|].
    destruct (dockerInspect env _ _ _ _) as [size|]; cbn [log log_ev fst snd]; [|log_done].
    destruct (daemonImage env _ _ _); destruct (750 * 1000 * 1000 <? size); log_done.
Qed.

(** Where the image comes from: at most one call that obtains an image,
    and one when there is an image; the maps of the fetch phase are left
    alone. *)
Lemma acquire_sources (c : bool) (refInfo : Image) (ref : string) (st : FetchState)
    (w : World) :
  (exists evs,
     log (acquire env c refInfo ref st w).2 = log w ++ evs
     /\ (count_sources evs <= 1)%nat
     /\ (is_ok (acquire env c refInfo ref st w).1.1 = true -> count_sources evs = 1%nat)
     /\ Forall (fun e => save_key e = None) evs)
  /\ fetched (acquire env c refInfo ref st w).1.2 = fetched st
  /\ totalBytes (acquire env c refInfo ref st w).1.2 = totalBytes st.
Proof.
  unfold acquire. destruct (isTarball ref).
  { destruct (craneLoad env _ _); simpl; (split; [|done]); log_done. }
  destruct (parseReference env ref) as [reference|]; simpl.
  2:{ split; [|done]. exists []. rewrite app_nil_r. split; [done|]. split; [cbv; lia|].
      split; [done | constructor]. }
  destruct (craneGet env _ _) as [d|e].
  { destruct (cranePull env _ _); simpl; (split; [|done]); log_done. }
  destruct (Contains e tooManyRequests); simpl.
  { split; [|done]. log_done. }
  destruct (loadFromDaemon_sources c reference ref (dockerEndPointHost st) e
              (log_ev (EvCraneGet ref) w)) as (evs & Hlog & Hle & Hcount & Hns).
  destruct (loadFromDaemon env c reference ref (dockerEndPointHost st) e _)
    as [[img host] w1].
  simpl in Hlog, Hcount.
  assert (Hc : count_sources (EvCraneGet ref :: evs) = count_sources evs) by reflexivity.
  destruct img; simpl; (split; [|done]); exists (EvCraneGet ref :: evs);
    rewrite Hlog, <- app_assoc, Hc; (split; [done|]); (split; [exact Hle|]);
    (split; [first [exact Hcount | discriminate] | by constructor]).
Qed.

Lemma register_fail (refInfo : Image) (raw : RawImage) (desc : option Descriptor)
    (st st' : FetchState) (e : string) :
  register env cfg refInfo raw desc st = (Some e, st') -> fetched st' = fetched st.
Proof.
  unfold register. destruct (checkForIndex env refInfo desc); [by intros [= _ <-]|].
  unfold store_image.
  destruct (OnlyHasImageLayers env (plain_Image raw)) as [b|]; [|by intros [= _ <-]].
  destruct (getSizeOfImage _); [|by intros [= _ <-]].
  destruct (img_Layers _) as [layers|]; [|by intros [= _ <-]].
  destruct (record_shas layers _) as [[e'|] s]; [by intros [= _ <-]|discriminate].
Qed.

(** The goroutine of a reference: when it returns [nil] it has put one
    image under its reference into [fetched] and added the size of this
    image to [totalBytes]; when it returns an error, [fetched] is as
    before.  It has obtained an image at most once. *)
Lemma fetchWorker_result (c : bool) (refInfo : Image) (st : FetchState) (w : World) :
  (exists evs,
     log (fetchWorker env cfg c refInfo st w).2 = log w ++ evs
     /\ (count_sources evs <= 1)%nat
     /\ ((fetchWorker env cfg c refInfo st w).1.1 = None -> count_sources evs = 1%nat)
     /\ Forall (fun e => save_key e = None) evs)
  /\ ((fetchWorker env cfg c refInfo st w).1.1 = None ->
      exists img size,
        fetched (fetchWorker env cfg c refInfo st w).1.2 = <[refInfo := img]> (fetched st)
        /\ getSizeOfImage img = Ok size
        /\ totalBytes (fetchWorker env cfg c refInfo st w).1.2
           = add64 (totalBytes st) size)
  /\ ((fetchWorker env cfg c refInfo st w).1.1 <> None ->
      fetched (fetchWorker env cfg c refInfo st w).1.2 = fetched st).
Proof.
  unfold fetchWorker, next_sched. cbv beta iota zeta.
  match goal with |- context [acquire env c refInfo ?ref ?st0 ?w0] =>
    destruct (acquire_sources c refInfo ref st0 w0)
      as ((evs & Hlog & Hle & Hcount & Hns) & Hf & Ht);
    destruct (acquire env c refInfo ref st0 w0) as [[got st1] w1] end.
  simpl in Hlog, Hcount, Hf, Ht.
  destruct got as [[raw desc]|e]; simpl in *.
  - destruct (register env cfg refInfo raw desc st1) as [[e|] st2] eqn:Hreg; simpl.
    + split; [exists evs; split; [done|]; split; [lia|]; split; [discriminate|done]|].
      split; [discriminate|]. intros _. by rewrite (register_fail _ _ _ _ _ _ Hreg).
    + split; [exists evs; split; [done|]; split; [lia|]; split; [auto|done]|].
      split; [|done]. intros _.
      destruct (register_ok _ _ _ _ _ _ _ Hreg) as (b & size & _ & _ & Hsize & Htot & Hfet).
      eexists _, size. split; [by rewrite Hfet, Hf|]. split; [|by rewrite Htot, Ht].
      rewrite getSizeOfImage_base. by destruct (b && _).
  - split; [exists evs; split; [done|]; split; [lia|]; split; [discriminate|done]|].
    split; [discriminate|]. by intros _.
Qed.

(** The goroutines one after the other. *)
Lemma fetch_fold (order : list Image) (first : error) (st : FetchState) (w : World) :
  (exists evs,
     log (foldl (fetch_step env cfg) (first, st, w) order).2 = log w ++ evs
     /\ (count_sources evs <= length order)%nat
     /\ ((foldl (fetch_step env cfg) (first, st, w) order).1.1 = None ->
         count_sources evs = length order)
     /\ Forall (fun e => save_key e = None) evs)
  /\ dom (fetched st) ⊆ dom (fetched (foldl (fetch_step env cfg) (first, st, w) order).1.2)
  /\ (forall i, i ∈ dom (fetched (foldl (fetch_step env cfg) (first, st, w) order).1.2) ->
        i ∈ dom (fetched st) \/ i ∈ order)
  /\ ((foldl (fetch_step env cfg) (first, st, w) order).1.1 = None ->
      first = None
      /\ forall i, i ∈ order ->
           i ∈ dom (fetched (foldl (fetch_step env cfg) (first, st, w) order).1.2)).
Proof.
  revert first st w. induction order as [|x order IH]; intros first st w.
  - simpl. split; [exists []; rewrite app_nil_r; split; [done|]; split; [done|];
                   split; [done | constructor]|].
    split; [done|]. split; [by left|]. intros ->. split; [done|].
    by intros i ?%elem_of_nil.
  - simpl.
    destruct (fetchWorker_result (bool_decide (is_Some first) || ctx_done env w) x st w)
      as ((evs1 & Hlog1 & Hle1 & Heq1 & Hns1) & Hok & Hfail).
    destruct (fetchWorker env cfg _ x st w) as [[err st1] w1]. simpl in *.
    destruct (IH (keep_first first err) st1 w1)
      as ((evs2 & Hlog2 & Hle2 & Heq2 & Hns2) & Hmono & Hdom & Hnone).
    assert (Hsub : dom (fetched st) ⊆ dom (fetched st1)).
    { destruct err as [e|].
      - by rewrite Hfail.
      - destruct (Hok eq_refl) as (img & size & -> & _). rewrite dom_insert.
        apply union_subseteq_r. }
    assert (Hkeys : forall i, i ∈ dom (fetched st1) -> i ∈ dom (fetched st) \/ i = x).
    { intros i Hi. destruct err as [e|].
      - left. by rewrite <- Hfail.
      - destruct (Hok eq_refl) as (img & size & Hf & _). rewrite Hf, dom_insert in Hi.
        apply elem_of_union in Hi as [->%elem_of_singleton|Hi]; by auto. }
    split; [|split; [|split]].
    + exists (evs1 ++ evs2). rewrite Hlog2, Hlog1, <- app_assoc. split; [done|].
      rewrite count_sources_app. split; [lia|]. split; [|by apply Forall_app].
      intros Hn. destruct (Hnone Hn) as [Hk _].
      destruct first; [discriminate|]. simpl in Hk. subst err.
      rewrite (Heq1 eq_refl), (Heq2 Hn). reflexivity.
    + by etrans.
    + intros i Hi. destruct (Hdom i Hi) as [Hi'|Hi']; [|right; by right].
      destruct (Hkeys i Hi') as [?| ->]; [by left|right; by left].
    + intros Hn. destruct (Hnone Hn) as [Hk Hall].
      destruct first; [discriminate|]. simpl in Hk. subst err.
      split; [done|]. intros i [->|Hi]%elem_of_cons; [|by apply Hall].
      apply Hmono. destruct (Hok eq_refl) as (img & size & -> & _).
      rewrite dom_insert. apply elem_of_union. left. by apply elem_of_singleton.
Qed.

(** The total handed to the progress bar, over references that differ. *)
Lemma fetch_fold_total (order : list Image) :
  NoDup order ->
  forall first st w,
    (forall i, i ∈ order -> i ∉ dom (fetched st)) ->
    totalBytes st = wrap64 (fetched_size (fetched st)) ->
    (foldl (fetch_step env cfg) (first, st, w) order).1.1 = None ->
    totalBytes (foldl (fetch_step env cfg) (first, st, w) order).1.2
    = wrap64 (fetched_size (fetched (foldl (fetch_step env cfg) (first, st, w) order).1.2)).
Proof.
  induction 1 as [|x order Hx Hnd IH]; intros first st w Hfresh Htot Hn; [done|].
  simpl in *.
  destruct (fetchWorker_result (bool_decide (is_Some first) || ctx_done env w) x st w)
    as (_ & Hok & _).
  destruct (fetchWorker env cfg _ x st w) as [[err st1] w1]. simpl in *.
  destruct (fetch_fold order (keep_first first err) st1 w1) as (_ & _ & _ & Hnone).
  destruct (Hnone Hn) as [Hk _].
  destruct first; [discriminate|]. simpl in Hk. subst err.
  destruct (Hok eq_refl) as (img & size & Hf & Hsize & Ht).
  apply IH; [| |done].
  - intros i Hi. rewrite Hf, dom_insert. intros [->%elem_of_singleton|Hd]%elem_of_union.
    + contradiction.
    + apply (Hfresh i); [by right | done].
  - rewrite Ht, Htot, add64_wrap, Hf, fetched_size_insert.
    + unfold image_size. rewrite Hsize. f_equal. lia.
    + apply not_elem_of_dom. apply Hfresh. by left.
Qed.

(** The fetch phase, when it has not failed. *)
Lemma fetchAll_ok (w : World) (st : FetchState) (w1 : World) :
  fetchAll env cfg w = (None, st, w1) ->
  (exists evs,
     log w1 = log w ++ evs /\ count_sources evs = length (ImageList cfg)
     /\ Forall (fun e => save_key e = None) evs)
  /\ (forall i, i ∈ dom (fetched st) <-> i ∈ ImageList cfg)
  /\ (NoDup (ImageList cfg) -> totalBytes st = wrap64 (fetched_size (fetched st))).
Proof.
  unfold fetchAll, next_sched. cbv beta iota. intros Hf.
  match type of Hf with foldl ?f (?a, ?b, ?c) ?l = _ =>
    destruct (fetch_fold l a b c) as ((evs & Hlog & _ & Heq & Hns) & _ & Hdom & Hnone);
    pose proof (fetch_fold_total l) as Htot;
    specialize (fun H => Htot H a b c) end.
  match type of Hlog with log (?t).2 = _ =>
    assert (Hf2 : t = (None, st, w1)) by exact Hf;
    rewrite Hf2 in Hlog, Heq, Hdom, Hnone, Htot end.
  simpl in *.
  destruct (Hnone eq_refl) as [_ Hall].
  split; [|split].
  - exists evs. split; [done|]. split; [|done].
    rewrite (Heq eq_refl). apply Permutation_length, shuffle_perm.
  - intros i. split.
    + intros Hi. destruct (Hdom i Hi) as [Hi'|Hi'].
      * by rewrite dom_empty, elem_of_empty in Hi'.
      * by rewrite shuffle_perm in Hi'.
    + intros Hi. apply Hall. by rewrite shuffle_perm.
  - intros Hnd. apply Htot.
    + by rewrite shuffle_perm.
    + intros i _. rewrite dom_empty. apply not_elem_of_empty.
    + reflexivity.
    + reflexivity.
Qed.


End FetchMore.
(** ** Further properties: the save phase of Pull *)

Section SaveMore.
Variable env : Env.
Variable cacheDirectory : string.

Ltac save_done :=
  unfold log_ev; cbn [log fst snd]; rewrite <- ?app_assoc; cbn [app];
  eexists; split; [reflexivity|]; split; [repeat constructor|];
  split; [first [discriminate | intros _; split; [reflexivity|]; simpl;
                                 rewrite ?elem_of_cons; by auto]
         | first [by intros _ | intros H; by destruct H]].

(** The goroutine of an image: it puts the image into [saved] when it
    returns [nil], after the call that saved it, and not otherwise; it
    calls the layout and nothing else. *)
Lemma saveWorker_result (cancelled : bool) (info : Image) (img : V1Image)
    (saved : gmap Image V1Image) (w : World) :
  exists evs,
    log (saveWorker env cacheDirectory cancelled info img saved w).2 = log w ++ evs
    /\ Forall (fun e => layout_event e = true) evs
    /\ ((saveWorker env cacheDirectory cancelled info img saved w).1.1 = None ->
        (saveWorker env cacheDirectory cancelled info img saved w).1.2
        = <[info := img]> saved
        /\ info ∈ omap saved_key evs)
    /\ ((saveWorker env cacheDirectory cancelled info img saved w).1.1 <> None ->
        (saveWorker env cacheDirectory cancelled info img saved w).1.2 = saved).
Proof.
  unfold saveWorker.
  destruct cancelled; [exists []; rewrite app_nil_r; by repeat split|].
  destruct (partialDescriptor env img); [exists []; rewrite app_nil_r; by repeat split|].
  destruct (getSizeOfImage img); [|exists []; rewrite app_nil_r; by repeat split].
  unfold do_writeImage.
  destruct (writeImage env _ info img (disk w)) as [[e|] d].
  - rewrite bool_decide_eq_false_2 by done. simpl.
    match goal with |- context [cleanup_after_failure env img cacheDirectory ?w0] =>
      destruct (cleanup_after_failure_log env cacheDirectory img w0) as [-> | ->] end;
      save_done.
  - rewrite bool_decide_eq_true_2 by done. unfold do_appendDescriptor.
    match goal with |- context [appendDescriptor env ?n info ?d0] =>
      destruct (appendDescriptor env n info d0) as [[e|] d'] end.
    + rewrite bool_decide_eq_false_2 by done. simpl. save_done.
    + rewrite bool_decide_eq_true_2 by done. simpl. save_done.
Qed.

Lemma save_fold_result (order : list (Image * V1Image)) (first : error)
    (saved : gmap Image V1Image) (w : World) :
  exists evs,
    log (foldl (save_step env cacheDirectory) (first, saved, w) order).2 = log w ++ evs
    /\ Forall (fun e => layout_event e = true) evs
    /\ (forall i img,
          (foldl (save_step env cacheDirectory) (first, saved, w) order).1.2 !! i = Some img ->
          saved !! i = Some img \/ (i, img) ∈ order)
    /\ (forall i,
          i ∈ dom (foldl (save_step env cacheDirectory) (first, saved, w) order).1.2 ->
          i ∈ dom saved \/ i ∈ omap saved_key evs)
    /\ dom saved ⊆ dom (foldl (save_step env cacheDirectory) (first, saved, w) order).1.2
    /\ ((foldl (save_step env cacheDirectory) (first, saved, w) order).1.1 = None ->
        first = None
        /\ forall kv, kv ∈ order ->
             kv.1 ∈ dom (foldl (save_step env cacheDirectory) (first, saved, w) order).1.2).
Proof.
  revert first saved w. induction order as [|[info img] order IH]; intros first saved w.
  - simpl. exists []. rewrite app_nil_r. split; [done|]. split; [constructor|].
    split; [by left|]. split; [by left|]. split; [done|].
    intros ->. split; [done|]. by intros kv ?%elem_of_nil.
  - simpl.
    destruct (saveWorker_result (bool_decide (is_Some first) || ctx_done env w)
                info img saved w) as (evs1 & Hlog1 & Hl1 & Hok & Hfail).
    destruct (saveWorker env cacheDirectory _ info img saved w) as [[err saved1] w1].
    simpl in *.
    destruct (IH (keep_first first err) saved1 w1)
      as (evs2 & Hlog2 & Hl2 & Hsub & Hev & Hmono & Hnone).
    assert (Hcase : (saved1 = saved) \/
                    (saved1 = <[info := img]> saved /\ info ∈ omap saved_key evs1)).
    { destruct err as [e|]; [left; by apply Hfail | right; by apply Hok]. }
    exists (evs1 ++ evs2). rewrite Hlog2, Hlog1, <- app_assoc. split; [done|].
    split; [by apply Forall_app|]. split; [|split; [|split]].
    + intros i x Hi. destruct (Hsub i x Hi) as [Hi'|Hi']; [|right; by right].
      destruct Hcase as [-> | [-> _]]; [by left|].
      apply lookup_insert_Some in Hi' as [[<- <-]|[_ Hi']]; [right; by left | by left].
    + intros i Hi. rewrite omap_app, elem_of_app.
      destruct (Hev i Hi) as [Hi'|Hi']; [|by auto].
      destruct Hcase as [-> | [-> Hin]]; [by left|].
      rewrite dom_insert in Hi'.
      apply elem_of_union in Hi' as [->%elem_of_singleton|Hi']; by auto.
    + etrans; [|exact Hmono]. destruct Hcase as [-> | [-> _]]; [done|].
      rewrite dom_insert. apply union_subseteq_r.
    + intros Hn. destruct (Hnone Hn) as [Hk Hall].
      destruct first; [discriminate|]. simpl in Hk. subst err.
      split; [done|]. intros kv [->|Hkv]%elem_of_cons; [|by apply Hall].
      apply Hmono. destruct (Hok eq_refl) as [-> _]. simpl.
      rewrite dom_insert. apply elem_of_union. left. by apply elem_of_singleton.
Qed.

(** The loop of the sequential save; it ends with the first call that
    fails. *)
Lemma saveSequential_loop_result (order : list (Image * V1Image))
    (saved : gmap Image V1Image) (w : World) :
  exists evs,
    log (saveSequential_loop env cacheDirectory order saved w).2 = log w ++ evs
    /\ Forall (fun e => layout_event e = true) evs
    /\ (forall i img,
          (saveSequential_loop env cacheDirectory order saved w).1.1 !! i = Some img ->
          saved !! i = Some img \/ (i, img) ∈ order)
    /\ (forall i,
          i ∈ dom (saveSequential_loop env cacheDirectory order saved w).1.1 ->
          i ∈ dom saved \/ i ∈ omap saved_key evs)
    /\ dom saved ⊆ dom (saveSequential_loop env cacheDirectory order saved w).1.1
    /\ ((saveSequential_loop env cacheDirectory order saved w).1.2 = None ->
        forall kv, kv ∈ order ->
          kv.1 ∈ dom (saveSequential_loop env cacheDirectory order saved w).1.1)
    /\ (forall evs1 i evs2,
          evs = evs1 ++ EvAppendImage i false :: evs2 ->
          omap save_key evs2 = []
          /\ (saveSequential_loop env cacheDirectory order saved w).1.2 <> None
          /\ (i ∈ dom (saveSequential_loop env cacheDirectory order saved w).1.1 ->
              i ∈ dom saved \/ i ∈ omap saved_key evs1)).
Proof.
  revert saved w. induction order as [|[info img] order IH]; intros saved w.
  - simpl. exists []. rewrite app_nil_r. split; [done|]. split; [constructor|].
    split; [by left|]. split; [by left|]. split; [done|].
    split; [by intros _ kv ?%elem_of_nil|].
    intros [|? ?] i evs2 Heq; discriminate.
  - simpl. destruct (getSizeOfImage img).
    2:{ simpl. exists []. rewrite app_nil_r. split; [done|]. split; [constructor|].
        split; [by left|]. split; [by left|]. split; [done|].
        split; [discriminate|]. intros [|? ?] i evs2 Heq; discriminate. }
    unfold do_appendImage.
    destruct (appendImage env _ info img (disk w)) as [[e|] d].
    + rewrite bool_decide_eq_false_2 by done. simpl.
      match goal with |- context [cleanup_after_failure env img cacheDirectory ?w0] =>
        destruct (cleanup_after_failure_log env cacheDirectory img w0) as [-> | ->] end;
        unfold log_ev; cbn [log]; rewrite <- ?app_assoc; cbn [app];
        eexists; (split; [reflexivity|]); (split; [repeat constructor|]);
        (split; [by left|]); (split; [by left|]); (split; [done|]);
        (split; [discriminate|]).
      * intros [|? [|? ?]] i evs2 [= ]; subst. split; [done|]. split; [done|]. by left.
      * intros [|? [|? [|? ?]]] i evs2 [= ]; subst. split; [done|]. split; [done|]. by left.
    + rewrite bool_decide_eq_true_2 by done.
      match goal with |- context [saveSequential_loop env cacheDirectory order ?s1 ?w1] =>
        destruct (IH s1 w1) as (evs2 & Hlog2 & Hl2 & Hsub & Hev & Hmono & Hnone & Hstop) end.
      exists (EvAppendImage info true :: evs2). rewrite Hlog2.
      unfold log_ev; cbn [log]. rewrite <- app_assoc. split; [done|].
      split; [by constructor|]. split; [|split; [|split; [|split]]].
      * intros i x Hi. destruct (Hsub i x Hi) as [Hi'|Hi']; [|right; by right].
        apply lookup_insert_Some in Hi' as [[<- <-]|[_ Hi']]; [right; by left | by left].
      * intros i Hi. destruct (Hev i Hi) as [Hi'|Hi']; [|right; simpl; by right].
        rewrite dom_insert in Hi'.
        apply elem_of_union in Hi' as [->%elem_of_singleton|Hi']; [|by left].
        right. simpl. by left.
      * etrans; [|exact Hmono]. rewrite dom_insert. apply union_subseteq_r.
      * intros Hn kv [->|Hkv]%elem_of_cons; [|by apply Hnone].
        apply Hmono. simpl. rewrite dom_insert. apply elem_of_union. left.
        by apply elem_of_singleton.
      * intros [|e1 evs1] i evs3 Heq; [discriminate|].
        injection Heq as <- ->.
        destruct (Hstop evs1 i evs3 eq_refl) as (H1 & H2 & H3).
        split; [done|]. split; [done|]. intros Hi.
        destruct (H3 Hi) as [Hd|Hd]; [|right; simpl; by right].
        rewrite dom_insert in Hd.
        apply elem_of_union in Hd as [->%elem_of_singleton|Hd]; [|by left].
        right. simpl. by left.
Qed.

Lemma saved_report (m saved : gmap Image V1Image) (ks : list nat) :
  (forall i img, saved !! i = Some img ->
     (∅ : gmap Image V1Image) !! i = Some img \/ (i, img) ∈ shuffle ks (map_to_list m)) ->
  saved ⊆ m
  /\ ((forall kv, kv ∈ shuffle ks (map_to_list m) -> kv.1 ∈ dom saved) -> saved = m).
Proof.
  intros Hsub.
  assert (Hin : forall i img, saved !! i = Some img -> m !! i = Some img).
  { intros i img Hi. destruct (Hsub i img Hi) as [Hi'|Hi'].
    - by rewrite lookup_empty in Hi'.
    - rewrite shuffle_perm in Hi'. by apply elem_of_map_to_list in Hi'. }
  split; [by apply map_subseteq_spec|].
  intros Hall. apply map_eq. intros i.
  destruct (m !! i) as [img|] eqn:Hm.
  - assert (Hd : i ∈ dom saved).
    { apply (Hall (i, img)). rewrite shuffle_perm. by apply elem_of_map_to_list. }
    apply elem_of_dom in Hd as [img' Hs]. rewrite Hs. f_equal.
    apply Hin in Hs. congruence.
  - destruct (saved !! i) as [img|] eqn:Hs; [|done].
    apply Hin in Hs. congruence.
Qed.

Lemma SaveConcurrent_report (m : gmap Image V1Image) (w : World) :
  exists evs,
    log (SaveConcurrent env m cacheDirectory w).2 = log w ++ evs
    /\ Forall (fun e => layout_event e = true) evs
    /\ (SaveConcurrent env m cacheDirectory w).1.1 ⊆ m
    /\ ((SaveConcurrent env m cacheDirectory w).1.2 = None ->
        (SaveConcurrent env m cacheDirectory w).1.1 = m)
    /\ (forall i, i ∈ dom (SaveConcurrent env m cacheDirectory w).1.1 ->
          i ∈ omap saved_key evs).
Proof.
  unfold SaveConcurrent, next_sched. cbv beta iota.
  match goal with |- context [foldl ?f (?a, ?b, ?c) ?l] =>
    destruct (save_fold_result l a b c) as (evs & Hlog & Hl & Hsub & Hev & _ & Hnone);
    destruct (foldl f (a, b, c) l) as [[first saved] w'] eqn:Hfold end.
  match type of Hlog with log (?t).2 = _ =>
    assert (Hf2 : t = (first, saved, w')) by exact Hfold;
    rewrite Hf2 in Hlog, Hsub, Hev, Hnone end.
  simpl in *. exists evs. split; [done|]. split; [done|].
  destruct (saved_report m saved _ Hsub) as [Hs Heq].
  split; [done|]. split.
  - intros ->. apply Heq. by apply Hnone.
  - intros i Hi. destruct (Hev i Hi) as [Hi'|Hi']; [|done].
    by rewrite dom_empty, elem_of_empty in Hi'.
Qed.

Lemma SaveSequential_report (m : gmap Image V1Image) (w : World) :
  exists evs,
    log (SaveSequential env m cacheDirectory w).2 = log w ++ evs
    /\ Forall (fun e => layout_event e = true) evs
    /\ (SaveSequential env m cacheDirectory w).1.1 ⊆ m
    /\ ((SaveSequential env m cacheDirectory w).1.2 = None ->
        (SaveSequential env m cacheDirectory w).1.1 = m)
    /\ (forall i, i ∈ dom (SaveSequential env m cacheDirectory w).1.1 ->
          i ∈ omap saved_key evs)
    /\ (forall evs1 i evs2,
          evs = evs1 ++ EvAppendImage i false :: evs2 ->
          omap save_key evs2 = []
          /\ (SaveSequential env m cacheDirectory w).1.2 <> None
          /\ (i ∈ dom (SaveSequential env m cacheDirectory w).1.1 ->
              i ∈ omap saved_key evs1)).
Proof.
  unfold SaveSequential, next_sched. cbv beta iota.
  match goal with |- context [saveSequential_loop env cacheDirectory ?l ?s ?w0] =>
    destruct (saveSequential_loop_result l s w0)
      as (evs & Hlog & Hl & Hsub & Hev & _ & Hnone & Hstop);
    destruct (saveSequential_loop env cacheDirectory l s w0) as [[saved err] w'] end.
  simpl in *. exists evs. split; [done|]. split; [done|].
  destruct (saved_report m saved _ Hsub) as [Hs Heq].
  split; [done|]. split; [|split].
  - intros ->. apply Heq. by apply Hnone.
  - intros i Hi. destruct (Hev i Hi) as [Hi'|Hi']; [|done].
    by rewrite dom_empty, elem_of_empty in Hi'.
  - intros evs1 i evs2 Heq'. destruct (Hstop evs1 i evs2 Heq') as (H1 & H2 & H3).
    split; [done|]. split; [done|]. intros Hi. destruct (H3 Hi) as [Hd|Hd]; [|done].
    by rewrite dom_empty, elem_of_empty in Hd.
Qed.

End SaveMore.

(** X6: [SaveConcurrent] and [SaveSequential] hand back a part of the
    images they were given, each under its own reference and after a call
    that saved it ([AppendDescriptor], [AppendImage] without error), and they
    hand back all the images when they return no error. *)
Theorem save_reports_saved_images (env : Env) (cacheDirectory : string)
    (m : gmap Image V1Image) (w : World) :
  save_report_ok m w (SaveConcurrent env m cacheDirectory w)
  /\ save_report_ok m w (SaveSequential env m cacheDirectory w).
Proof.
  split.
  - destruct (SaveConcurrent_report env cacheDirectory m w)
      as (evs & Hlog & _ & Hsub & Heq & Hev).
    unfold save_report_ok. rewrite (new_events_app _ _ _ Hlog). by repeat split.
  - destruct (SaveSequential_report env cacheDirectory m w)
      as (evs & Hlog & _ & Hsub & Heq & Hev & _).
    unfold save_report_ok. rewrite (new_events_app _ _ _ Hlog). by repeat split.
Qed.


(** ** Further properties: the retries and the whole of Pull *)

Section RetryMore.
Variable save : gmap Image V1Image -> World -> (gmap Image V1Image * error) * World.
Variable done : gmap Image V1Image * World -> bool.
Hypothesis save_report : forall m w,
  exists evs,
    log (save m w).2 = log w ++ evs
    /\ Forall (fun e => layout_event e = true) evs
    /\ (save m w).1.1 ⊆ m
    /\ ((save m w).1.2 = None -> (save m w).1.1 = m)
    /\ (forall i, i ∈ dom (save m w).1.1 -> i ∈ omap saved_key evs).

(** The retries call the layout only; an image that has left [toPull]
    was saved by a call; and [nil] is returned only when nothing is left. *)
Lemma retry_loop_complete (n : nat) (errs : list string) (m : gmap Image V1Image)
    (w : World) :
  exists evs,
    log (retry_loop (save_attempt save) done n errs (m, w)).2.2 = log w ++ evs
    /\ Forall (fun e => layout_event e = true) evs
    /\ (forall i, i ∈ dom m ->
          i ∉ dom (retry_loop (save_attempt save) done n errs (m, w)).2.1 ->
          i ∈ omap saved_key evs)
    /\ ((retry_loop (save_attempt save) done n errs (m, w)).1 = None ->
        (retry_loop (save_attempt save) done n errs (m, w)).2.1 = ∅).
Proof.
  revert errs m w. induction n as [|n IH]; intros errs m w.
  - exists []. rewrite app_nil_r. simpl. split; [done|]. split; [constructor|].
    split; [by intros i ? ?|discriminate].
  - simpl.
    assert (Hsa : save_attempt save (m, w)
                  = ((save m w).1.2, (m ∖ (save m w).1.1, (save m w).2)))
      by (unfold save_attempt; simpl; by destruct (save m w) as [[? ?] ?]).
    rewrite Hsa. clear Hsa.
    destruct (save_report m w) as (evs1 & Hlog1 & Hl1 & Hsub & Hall & Hev).
    destruct (save m w) as [[saved err] w1]. simpl in *.
    assert (Hleft : forall i, i ∈ dom m -> i ∉ dom (m ∖ saved) -> i ∈ omap saved_key evs1).
    { intros i Hi Hn. apply Hev. apply not_elem_of_dom in Hn.
      apply lookup_difference_None in Hn as [Hn|Hn].
      - apply elem_of_dom in Hi as [x Hx]. congruence.
      - by apply elem_of_dom. }
    destruct err as [e|].
    2:{ exists evs1. split; [done|]. split; [done|]. split; [done|].
        intros _. rewrite (Hall eq_refl). apply map_difference_diag. }
    destruct n as [|n'].
    { exists evs1. simpl. split; [done|]. split; [done|]. split; [done|discriminate]. }
    destruct (done (m ∖ saved, w1)).
    { exists evs1. simpl. split; [done|]. split; [done|]. split; [done|discriminate]. }
    destruct (IH (errs ++ [e]) (m ∖ saved) w1) as (evs2 & Hlog2 & Hl2 & Hleft2 & Hnone).
    exists (evs1 ++ evs2). rewrite Hlog2, Hlog1, <- app_assoc. split; [done|].
    split; [by apply Forall_app|]. split; [|done].
    intros i Hi Hn. rewrite omap_app, elem_of_app.
    destruct (decide (i ∈ dom (m ∖ saved))) as [Hd|Hd].
    + right. by apply Hleft2.
    + left. by apply Hleft.
Qed.

Lemma retry_Do_complete (n : nat) (m : gmap Image V1Image) (w : World) :
  exists evs,
    log (retry_Do (save_attempt save) done n (m, w)).2.2 = log w ++ evs
    /\ Forall (fun e => layout_event e = true) evs
    /\ (forall i, i ∈ dom m ->
          i ∉ dom (retry_Do (save_attempt save) done n (m, w)).2.1 ->
          i ∈ omap saved_key evs)
    /\ ((retry_Do (save_attempt save) done n (m, w)).1 = None ->
        (retry_Do (save_attempt save) done n (m, w)).2.1 = ∅).
Proof.
  unfold retry_Do. destruct (done (m, w)); [|apply retry_loop_complete].
  exists []. rewrite app_nil_r. simpl. split; [done|]. split; [constructor|].
  split; [by intros i ? ?|discriminate].
Qed.

End RetryMore.

Section PullMore.
Variable env : Env.

Lemma never_saved_again_once (evs : list Event) (i : Image) :
  never_saved_again evs -> (occurrences i (omap saved_key evs) <= 1)%nat.
Proof.
  induction evs as [|e evs IH]; intros Hnsa; [unfold occurrences; simpl; lia|].
  apply never_saved_again_cons in Hnsa as [He Hnsa]. specialize (IH Hnsa).
  cbn [omap list_omap]. destruct (saved_key e) as [j|] eqn:Hk; [|exact IH].
  unfold occurrences in *.
  destruct (decide (j = i)) as [->|Hne].
  - rewrite filter_cons_True by done.
    assert (Hnin : i ∉ omap saved_key evs).
    { intros Hin. by apply (He i eq_refl), saved_key_save_key. }
    pose proof (occurrences_none i _ Hnin) as H0. unfold occurrences in H0.
    simpl. rewrite H0. lia.
  - by rewrite filter_cons_False by done.
Qed.

Lemma occurrences_elem (i : Image) (l : list Image) :
  i ∈ l -> (1 <= occurrences i l)%nat.
Proof.
  unfold occurrences. induction l as [|j l IH]; [by intros ?%elem_of_nil|].
  intros [->|Hin]%elem_of_cons.
  - rewrite filter_cons_True by done. simpl. lia.
  - specialize (IH Hin). destruct (decide (j = i)) as [->|Hne].
    + rewrite filter_cons_True by done. simpl. lia.
    + by rewrite filter_cons_False by done.
Qed.

Lemma omap_saved_key_none (evs : list Event) :
  Forall (fun e => save_key e = None) evs -> omap saved_key evs = [].
Proof.
  induction 1 as [|e evs He _ IH]; [done|].
  destruct e; try discriminate He; exact IH.
Qed.

Lemma SaveConcurrent_report5 (cacheDirectory : string) (m : gmap Image V1Image) (w : World) :
  exists evs,
    log (SaveConcurrent env m cacheDirectory w).2 = log w ++ evs
    /\ Forall (fun e => layout_event e = true) evs
    /\ (SaveConcurrent env m cacheDirectory w).1.1 ⊆ m
    /\ ((SaveConcurrent env m cacheDirectory w).1.2 = None ->
        (SaveConcurrent env m cacheDirectory w).1.1 = m)
    /\ (forall i, i ∈ dom (SaveConcurrent env m cacheDirectory w).1.1 ->
          i ∈ omap saved_key evs).
Proof. apply SaveConcurrent_report. Qed.

Lemma SaveSequential_report5 (cacheDirectory : string) (m : gmap Image V1Image) (w : World) :
  exists evs,
    log (SaveSequential env m cacheDirectory w).2 = log w ++ evs
    /\ Forall (fun e => layout_event e = true) evs
    /\ (SaveSequential env m cacheDirectory w).1.1 ⊆ m
    /\ ((SaveSequential env m cacheDirectory w).1.2 = None ->
        (SaveSequential env m cacheDirectory w).1.1 = m)
    /\ (forall i, i ∈ dom (SaveSequential env m cacheDirectory w).1.1 ->
          i ∈ omap saved_key evs).
Proof.
  destruct (SaveSequential_report env cacheDirectory m w)
    as (evs & H1 & H2 & H3 & H4 & H5 & _).
  by exists evs.
Qed.

(** The save phase calls the layout only, and when it returns [nil]
    every image it was given was saved by one of its calls, and by one
    only. *)
Lemma savePhase_complete (cacheDirectory : string) (fetched : gmap Image V1Image)
    (w : World) :
  exists evs,
    log (savePhase env cacheDirectory fetched w).2 = log w ++ evs
    /\ Forall (fun e => layout_event e = true) evs
    /\ never_saved_again evs
    /\ ((savePhase env cacheDirectory fetched w).1 = None ->
        forall i, i ∈ dom fetched -> i ∈ omap saved_key evs).
Proof.
  unfold savePhase.
  set (done := fun s : gmap Image V1Image * World => ctx_done env s.2).
  destruct (retry_Do_complete (fun m => SaveConcurrent env m cacheDirectory) done
              (SaveConcurrent_report5 cacheDirectory) 2 fetched w)
    as (evs_c & Hlogc & Hlc & Hleftc & Hnonec).
  destruct (retry_Do_phase (fun m => SaveConcurrent env m cacheDirectory) done 1 0
              (SaveConcurrent_phase env cacheDirectory) 2 fetched w)
    as (evs_c' & Hlogc' & Hphc).
  rewrite Hlogc in Hlogc'. apply app_inv_head in Hlogc'. subst evs_c'.
  destruct (retry_Do (save_attempt (fun m => SaveConcurrent env m cacheDirectory)) done 2
              (fetched, w)) as [err1 [m1 w1]].
  simpl in *. destruct err1 as [e1|].
  - destruct (retry_Do_complete (fun m => SaveSequential env m cacheDirectory) done
                (SaveSequential_report5 cacheDirectory) 2 m1
                (log_ev (EvWarn (sequentialWarning e1)) w1))
      as (evs_s & Hlogs & Hls & Hlefts & Hnones).
    destruct (retry_Do_phase (fun m => SaveSequential env m cacheDirectory) done 0 1
                (SaveSequential_phase env cacheDirectory) 2 m1
                (log_ev (EvWarn (sequentialWarning e1)) w1))
      as (evs_s' & Hlogs' & Hphs).
    rewrite Hlogs in Hlogs'. apply app_inv_head in Hlogs'. subst evs_s'.
    destruct (retry_Do (save_attempt (fun m => SaveSequential env m cacheDirectory)) done 2
                (m1, log_ev (EvWarn (sequentialWarning e1)) w1)) as [err2 [m2 w2]].
    simpl in *.
    assert (Hall : phase_ok 2 2 fetched (evs_c ++ [EvWarn (sequentialWarning e1)] ++ evs_s) m2).
    { apply (phase_ok_app 2 0 0 2 fetched m1 m2); [done|].
      apply (phase_ok_app 0 0 0 2 m1 m1 m2); [apply phase_ok_warn | done]. }
    destruct Hall as (_ & Hnsa & _).
    exists (evs_c ++ [EvWarn (sequentialWarning e1)] ++ evs_s).
    rewrite Hlogs, Hlogc, <- !app_assoc. split; [done|].
    split; [apply Forall_app; split; [done|]; apply Forall_app; split;
            [by repeat constructor | done]|].
    split; [done|].
    intros -> i Hi. rewrite !omap_app, !elem_of_app.
    destruct (decide (i ∈ dom m1)) as [Hd|Hd].
    + right. right. apply Hlefts; [done|]. rewrite (Hnones eq_refl), dom_empty.
      apply not_elem_of_empty.
    + left. by apply Hleftc.
  - exists evs_c. split; [done|]. split; [done|].
    destruct Hphc as (_ & Hnsa & _). split; [done|].
    intros _ i Hi. apply Hleftc; [done|]. rewrite (Hnonec eq_refl), dom_empty.
    apply not_elem_of_empty.
Qed.

Lemma repairBlobs_log (w : World) : log (repairBlobs env w).2 = log w.
Proof. unfold repairBlobs. by destruct (walk env _ [] _). Qed.

(** What a [Pull] that returns its images has gone through. *)
Lemma Pull_ok_inv (cfg : PullConfig) (w : World) (images : gmap Image V1Image)
    (w' : World) :
  Pull env cfg w = (Ok images, w') ->
  let dest := DestinationDirectory cfg in
  exists st w1 w2,
    fetchAll env cfg (log_ev (EvLayoutWrite dest) (log_ev (EvCreateDirectory dest) w))
    = (None, st, w1)
    /\ images = fetched st
    /\ savePhase env (CacheDirectory cfg) images
         (log_ev (EvProgressBar dest (totalBytes st)) w1) = (None, w2)
    /\ repairBlobs env w2 = (None, w').
Proof.
  intros H. cbv zeta. unfold Pull in H.
  destruct (createDirectory env _ _); [discriminate|].
  destruct (layoutWrite env _ _); [discriminate|].
  destruct (fetchAll env cfg _) as [[[e|] st] w1] eqn:Hfetch; [discriminate|].
  destruct (savePhase env (CacheDirectory cfg) (fetched st) _) as [[e|] w2] eqn:Hsave;
    [discriminate|].
  destruct (repairBlobs env w2) as [[e|] w3] eqn:Hrep; [discriminate|].
  injection H as <- <-. exists st, w1, w2. by repeat split.
Qed.

(** The calls of a [Pull] that returns its images. *)
Lemma Pull_ok_events (cfg : PullConfig) (w : World) (images : gmap Image V1Image)
    (w' : World) :
  Pull env cfg w = (Ok images, w') ->
  let dest := DestinationDirectory cfg in
  exists st evs_f evs_s,
    images = fetched st
    /\ new_events w w'
       = [EvCreateDirectory dest; EvLayoutWrite dest] ++ evs_f
         ++ [EvProgressBar dest (totalBytes st)] ++ evs_s
    /\ count_sources evs_f = length (ImageList cfg)
    /\ Forall (fun e => save_key e = None) evs_f
    /\ (forall i, i ∈ dom images <-> i ∈ ImageList cfg)
    /\ (NoDup (ImageList cfg) -> totalBytes st = wrap64 (fetched_size images))
    /\ Forall (fun e => layout_event e = true) evs_s
    /\ never_saved_again evs_s
    /\ (forall i, i ∈ dom images -> i ∈ omap saved_key evs_s).
Proof.
  intros H. cbv zeta.
  destruct (Pull_ok_inv cfg w images w' H) as (st & w1 & w2 & Hfetch & -> & Hsave & Hrep).
  set (dest := DestinationDirectory cfg) in *.
  destruct (fetchAll_ok env cfg _ _ _ Hfetch) as ((evs_f & Hlogf & Hcount & Hns) & Hdom & Htot).
  destruct (savePhase_complete (CacheDirectory cfg) (fetched st)
              (log_ev (EvProgressBar dest (totalBytes st)) w1))
    as (evs_s & Hlogs & Hls & Hnsa & Hall).
  rewrite Hsave in Hlogs, Hall. simpl in Hlogs, Hall.
  pose proof (repairBlobs_log w2) as Hlogr. rewrite Hrep in Hlogr. simpl in Hlogr.
  exists st, evs_f, evs_s. split; [done|].
  split; [|repeat (split; [done|]); by apply Hall].
  apply new_events_app. rewrite Hlogr, Hlogs. unfold log_ev in *. cbn [log] in *.
  rewrite Hlogf. by rewrite <- !app_assoc.
Qed.

End PullMore.

(** X8: a [Pull] that succeeds returns a map whose keys are exactly the
    references of the image list: no reference is left out and none is
    added. *)
Theorem Pull_returns_listed_images (env : Env) (cfg : PullConfig) (w : World)
    (images : gmap Image V1Image) (w' : World) :
  Pull env cfg w = (Ok images, w') ->
  forall i, i ∈ dom images <-> i ∈ ImageList cfg.
Proof.
  intros H. destruct (Pull_ok_events env cfg w images w' H)
    as (st & evs_f & evs_s & _ & _ & _ & _ & Hdom & _).
  exact Hdom.
Qed.

Lemma Pull_returns_listed_images_witness :
  is_ok (Pull env_ok (cfg_of [nginx; alpine] "/cache") world0).1 = true
  /\ match (Pull env_ok (cfg_of [nginx; alpine] "/cache") world0).1 with
     | Ok images => nginx ∈ dom images /\ alpine ∈ dom images
     | Err _ => False
     end.
Proof.
  assert (Hok : is_ok (Pull env_ok (cfg_of [nginx; alpine] "/cache") world0).1 = true)
    by (vm_compute; reflexivity).
  split; [exact Hok|].
  destruct (Pull env_ok (cfg_of [nginx; alpine] "/cache") world0) as [[images|e] w'] eqn:Hp;
    [|discriminate Hok].
  simpl. split.
  - apply (Pull_returns_listed_images _ _ _ _ _ Hp). simpl. by left.
  - apply (Pull_returns_listed_images _ _ _ _ _ Hp). simpl. right. by left.
Defined.

(** X9: in a [Pull] that succeeds every image of the list is saved into
    the layout exactly once: among the calls of the [Pull] there is one, and
    one only, successful [AppendDescriptor] or [AppendImage] for it, whatever
    was retried. *)
Theorem Pull_saves_each_image_once (env : Env) (cfg : PullConfig) (w : World)
    (images : gmap Image V1Image) (w' : World) (i : Image) :
  Pull env cfg w = (Ok images, w') ->
  i ∈ ImageList cfg ->
  occurrences i (omap saved_key (new_events w w')) = 1%nat.
Proof.
  intros H Hi. destruct (Pull_ok_events env cfg w images w' H)
    as (st & evs_f & evs_s & _ & -> & _ & Hns & Hdom & _ & _ & Hnsa & Hall).
  rewrite !omap_app, (omap_saved_key_none _ Hns). simpl.
  pose proof (never_saved_again_once evs_s i Hnsa) as Hle.
  pose proof (occurrences_elem i _ (Hall i (proj2 (Hdom i) Hi))) as Hge.
  lia.
Qed.

Lemma Pull_saves_each_image_once_witness :
  is_ok (Pull env_flaky (cfg_of [nginx] "/cache") world0).1 = true
  /\ nginx ∈ ImageList (cfg_of [nginx] "/cache")
  /\ occurrences nginx
       (omap saved_key
          (new_events world0 (Pull env_flaky (cfg_of [nginx] "/cache") world0).2)) = 1%nat.
Proof.
  assert (Hok : is_ok (Pull env_flaky (cfg_of [nginx] "/cache") world0).1 = true)
    by (vm_compute; reflexivity).
  assert (Hin : nginx ∈ ImageList (cfg_of [nginx] "/cache")) by (simpl; by left).
  split; [exact Hok|]. split; [exact Hin|].
  destruct (Pull env_flaky (cfg_of [nginx] "/cache") world0) as [[images|e] w'] eqn:Hp;
    [|discriminate Hok].
  exact (Pull_saves_each_image_once _ _ _ _ _ _ Hp Hin).
Defined.

(** X10: when the references of the list differ from one another, the
    total a [Pull] that succeeds has given to the progress bar is the sum of
    the sizes of the images it returns, added as [int64]. *)
Theorem Pull_progress_total (env : Env) (cfg : PullConfig) (w : World)
    (images : gmap Image V1Image) (w' : World) :
  NoDup (ImageList cfg) ->
  Pull env cfg w = (Ok images, w') ->
  EvProgressBar (DestinationDirectory cfg) (wrap64 (fetched_size images))
    ∈ new_events w w'.
Proof.
  intros Hnd H. destruct (Pull_ok_events env cfg w images w' H)
    as (st & evs_f & evs_s & _ & -> & _ & _ & _ & Htot & _).
  rewrite <- (Htot Hnd). rewrite !elem_of_app. right. right. left. by left.
Qed.

Lemma Pull_progress_total_witness :
  NoDup (ImageList (cfg_of [nginx; alpine] "/cache"))
  /\ is_ok (Pull env_ok (cfg_of [nginx; alpine] "/cache") world0).1 = true
  /\ EvProgressBar "/tmp/zarf/images" 720
       ∈ new_events world0 (Pull env_ok (cfg_of [nginx; alpine] "/cache") world0).2.
Proof.
  assert (Hnd : NoDup (ImageList (cfg_of [nginx; alpine] "/cache"))).
  { simpl. apply NoDup_cons. split; [|apply NoDup_singleton].
    intros Hin. apply list_elem_of_singleton in Hin. discriminate Hin. }
  assert (Hok : is_ok (Pull env_ok (cfg_of [nginx; alpine] "/cache") world0).1 = true)
    by (vm_compute; reflexivity).
  split; [exact Hnd|]. split; [exact Hok|].
  destruct (Pull env_ok (cfg_of [nginx; alpine] "/cache") world0) as [[images|e] w'] eqn:Hp;
    [|discriminate Hok].
  pose proof (Pull_progress_total _ _ _ _ _ Hnd Hp) as Hin.
  assert (Hsize : wrap64 (fetched_size images) = 720).
  { assert (Hi : (Pull env_ok (cfg_of [nginx; alpine] "/cache") world0).1 = Ok images)
      by (rewrite Hp; reflexivity).
    clear Hp Hin.
    assert (Hc : match (Pull env_ok (cfg_of [nginx; alpine] "/cache") world0).1 with
                 | Ok m => wrap64 (fetched_size m) = 720
                 | Err _ => True
                 end) by (vm_compute; reflexivity).
    rewrite Hi in Hc. exact Hc. }
  rewrite Hsize in Hin. exact Hin.
Defined.

(** ** Further properties: CleanupInProgressLayers *)

Section CleanupMore.
Variable env : Env.
Variable cacheDirectory : string.

(** Files are removed only. *)
Lemma cleanup_step_shrinks (pc : CleanupPC) (fs : gmap string Z) (p : string) :
  fs !! p = None -> (cleanup_step env cacheDirectory pc fs).2 !! p = None.
Proof.
  intros Hp. destruct pc as [layer|location hex|r]; simpl.
  - destruct (layer_Digest layer); [|exact Hp]. destruct (layer_Size layer); [|exact Hp].
    destruct (fs !! layerCachePath _ _ _); [|exact Hp].
    destruct (statFault env _); [exact Hp|].
    case_bool_decide; exact Hp.
  - destruct (removeFault env _); [exact Hp|].
    destruct (fs !! location) eqn:Hl; [|exact Hp].
    simpl. destruct (decide (location = p)) as [->|Hne];
      [by rewrite lookup_delete_eq | by rewrite lookup_delete_ne].
  - exact Hp.
Qed.

Lemma step_at_stat_inv (layers : list Layer) (fs0 : gmap string Z) (s : CleanupState)
    (i : nat) :
  cleanup_inv env cacheDirectory layers fs0 s ->
  stat_inv env cacheDirectory layers s ->
  stat_inv env cacheDirectory layers (step_at env cacheDirectory s i).
Proof.
  intros (Hlen & Hpc & Hfs & Herr) Hst. unfold step_at.
  destruct (pool s !! i) as [pc|] eqn:Hi; [|exact Hst].
  pose proof (cleanup_step_shrinks pc (files s)) as Hshrink.
  destruct (cleanup_step env cacheDirectory pc (files s)) as [pc' fs'] eqn:Hstep.
  simpl in Hshrink.
  intros j layer digest Hl Hj Hd. simpl in *.
  destruct (decide (i = j)) as [<-|Hne].
  2:{ rewrite list_lookup_insert_ne in Hj by done.
      destruct (Hst j layer digest Hl Hj Hd) as [Hn|Hn]; [left; by apply Hshrink | by right]. }
  rewrite list_lookup_insert_eq in Hj by (by eapply lookup_lt_Some).
  injection Hj as ->.
  pose proof (Hpc i layer pc Hl Hi) as Hthis.
  destruct pc as [layer'|location hex|r]; simpl in Hthis, Hstep.
  - subst layer'. rewrite Hd in Hstep.
    destruct (layer_Size layer); [|discriminate].
    destruct (files s !! _) eqn:Hf; [|injection Hstep as <-; by left].
    destruct (statFault env _); [discriminate|]. by right.
  - destruct Hthis as (d & sz & n & Hd' & _ & -> & _).
    assert (d = digest) as -> by congruence.
    destruct (removeFault env _); [discriminate|].
    destruct (files s !! _); [|discriminate].
    injection Hstep as <-. left. by rewrite lookup_delete_eq.
  - injection Hstep as Hr Hfs'. subst r fs'. by apply (Hst i layer digest).
Qed.

Lemma run_stat_inv (layers : list Layer) (fs0 : gmap string Z) (steps : list nat)
    (s : CleanupState) :
  cleanup_inv env cacheDirectory layers fs0 s ->
  stat_inv env cacheDirectory layers s ->
  cleanup_inv env cacheDirectory layers fs0 (foldl (step_at env cacheDirectory) s steps)
  /\ stat_inv env cacheDirectory layers (foldl (step_at env cacheDirectory) s steps).
Proof.
  revert s. induction steps as [|i steps IH]; intros s Hs Hst; [done|].
  simpl. apply IH; [by apply step_at_inv | by apply (step_at_stat_inv layers fs0)].
Qed.

(** After a run that has returned [nil] the cache is clean. *)
Lemma run_cleanup_clean (steps : list nat) (layers : list Layer) (fs : gmap string Z) :
  first_err (run_cleanup env cacheDirectory steps layers fs) = None ->
  cache_clean env cacheDirectory layers
    (files (run_cleanup env cacheDirectory steps layers fs)).
Proof.
  intros Hok.
  destruct (run_stat_inv layers fs (steps ++ seq 0 (length layers) ++ seq 0 (length layers))
              _ (cleanup_inv_init env cacheDirectory layers fs)) as [Hinv Hst].
  { intros i layer digest _ Hp. simpl in Hp. rewrite list_lookup_fmap in Hp.
    destruct (layers !! i); discriminate. }
  fold (run_cleanup env cacheDirectory steps layers fs) in Hinv, Hst.
  set (s := run_cleanup env cacheDirectory steps layers fs) in *.
  destruct Hinv as (Hlen & Hpc & Hfs & Herr).
  intros layer Hin. apply list_elem_of_lookup in Hin as [i Hi].
  destruct (lookup_lt_is_Some_2 (pool s) i) as [pc Hp].
  { rewrite Hlen. by eapply lookup_lt_Some. }
  destruct (run_cleanup_done env cacheDirectory steps layers fs i pc Hp) as [r ->].
  destruct r as [e|]; [by destruct (Herr Hok i e)|].
  destruct (Hpc i layer _ Hi Hp) as (d & sz & Hd & Hsz & Hcase).
  exists d, sz. split; [done|]. split; [done|].
  destruct (files s !! layerCachePath env cacheDirectory d) as [n|] eqn:Hf; [|by left].
  right. destruct Hcase as [Hn|Hsame]; [discriminate|].
  destruct (Hfs (layerCachePath env cacheDirectory d)) as [Heq|[Hn _]]; [|congruence].
  split; [congruence|].
  destruct (Hst i layer d Hi Hp Hd) as [Hn|Hn]; [congruence | done].
Qed.

(** On a clean cache no goroutine fails and none removes a file. *)
Lemma clean_step (layers : list Layer) (fs : gmap string Z) (s : CleanupState) (i : nat) :
  cache_clean env cacheDirectory layers fs ->
  files s = fs -> first_err s = None ->
  (forall j pc, pool s !! j = Some pc ->
     (exists layer, layer ∈ layers /\ pc = CStart layer) \/ pc = CDone None) ->
  files (step_at env cacheDirectory s i) = fs
  /\ first_err (step_at env cacheDirectory s i) = None
  /\ (forall j pc, pool (step_at env cacheDirectory s i) !! j = Some pc ->
        (exists layer, layer ∈ layers /\ pc = CStart layer) \/ pc = CDone None).
Proof.
  intros Hclean Hf He Hpool. unfold step_at.
  destruct (pool s !! i) as [pc|] eqn:Hi; [|done].
  assert (Hstep : cleanup_step env cacheDirectory pc (files s) = (CDone None, fs)).
  { destruct (Hpool i pc Hi) as [(layer & Hin & ->)| ->]; [|by rewrite Hf].
    destruct (Hclean layer Hin) as (d & sz & Hd & Hsz & Hcase).
    simpl. rewrite Hd, Hsz, Hf.
    destruct Hcase as [-> | [-> ->]]; [done|]. by rewrite bool_decide_eq_true_2. }
  rewrite Hstep. simpl. split; [done|]. split.
  - rewrite He. by destruct pc.
  - intros j pcj Hj. destruct (decide (i = j)) as [<-|Hne].
    + rewrite list_lookup_insert_eq in Hj by (by eapply lookup_lt_Some).
      injection Hj as <-. by right.
    + rewrite list_lookup_insert_ne in Hj by done. by eapply Hpool.
Qed.

Lemma clean_run (layers : list Layer) (fs : gmap string Z) (steps : list nat)
    (s : CleanupState) :
  cache_clean env cacheDirectory layers fs ->
  files s = fs -> first_err s = None ->
  (forall j pc, pool s !! j = Some pc ->
     (exists layer, layer ∈ layers /\ pc = CStart layer) \/ pc = CDone None) ->
  files (foldl (step_at env cacheDirectory) s steps) = fs
  /\ first_err (foldl (step_at env cacheDirectory) s steps) = None.
Proof.
  intros Hclean. revert s. induction steps as [|i steps IH]; intros s Hf He Hpool; [done|].
  simpl. destruct (clean_step layers fs s i Hclean Hf He Hpool) as (Hf' & He' & Hpool').
  by apply IH.
Qed.

Lemma run_cleanup_on_clean (steps : list nat) (layers : list Layer) (fs : gmap string Z) :
  cache_clean env cacheDirectory layers fs ->
  files (run_cleanup env cacheDirectory steps layers fs) = fs
  /\ first_err (run_cleanup env cacheDirectory steps layers fs) = None.
Proof.
  intros Hclean. unfold run_cleanup. apply (clean_run layers); try done.
  intros j pc Hj. simpl in Hj. rewrite list_lookup_fmap in Hj.
  destruct (layers !! j) as [layer|] eqn:Hl; [|discriminate].
  injection Hj as <-. left. exists layer. split; [|done].
  by eapply list_elem_of_lookup_2.
Qed.

Lemma run_cleanup_subseteq (steps : list nat) (layers : list Layer) (fs : gmap string Z) :
  files (run_cleanup env cacheDirectory steps layers fs) ⊆ fs.
Proof.
  pose proof (run_inv env cacheDirectory layers fs
                (steps ++ seq 0 (length layers) ++ seq 0 (length layers)) _
                (cleanup_inv_init env cacheDirectory layers fs)) as (_ & _ & Hfs & _).
  apply map_subseteq_spec. intros p n Hp.
  destruct (Hfs p) as [Heq|[Hn _]]; unfold run_cleanup in Hp; congruence.
Qed.

End CleanupMore.

(** X12: [CleanupInProgressLayers] is idempotent: after a run that has
    returned [nil], a second run over the same layers, however its
    goroutines interleave, returns [nil] as well and removes nothing. *)
Theorem CleanupInProgressLayers_idempotent (env : Env) (cacheDirectory : string)
    (steps steps' : list nat) (layers : list Layer) (fs : gmap string Z) :
  first_err (run_cleanup env cacheDirectory steps layers fs) = None ->
  first_err (run_cleanup env cacheDirectory steps' layers
               (files (run_cleanup env cacheDirectory steps layers fs))) = None
  /\ files (run_cleanup env cacheDirectory steps' layers
              (files (run_cleanup env cacheDirectory steps layers fs)))
     = files (run_cleanup env cacheDirectory steps layers fs).
Proof.
  intros Hok.
  destruct (run_cleanup_on_clean env cacheDirectory steps' layers _
              (run_cleanup_clean env cacheDirectory steps layers fs Hok)) as [Hf He].
  by split.
Qed.

Lemma CleanupInProgressLayers_idempotent_witness :
  first_err (run_cleanup env_ok "/cache" [1; 0; 1; 0]%nat [layerA; layerB] partial_cache)
  = None
  /\ first_err (run_cleanup env_ok "/cache" [0; 0; 1]%nat [layerA; layerB]
                  (files (run_cleanup env_ok "/cache" [1; 0; 1; 0]%nat [layerA; layerB]
                            partial_cache))) = None.
Proof.
  assert (H : first_err (run_cleanup env_ok "/cache" [1; 0; 1; 0]%nat [layerA; layerB]
                           partial_cache) = None) by (vm_compute; reflexivity).
  split; [exact H|].
  exact (proj1 (CleanupInProgressLayers_idempotent env_ok "/cache" [1; 0; 1; 0]%nat
                  [0; 0; 1]%nat [layerA; layerB] partial_cache H)).
Defined.

(** X13: [CleanupInProgressLayers] only removes files of the cache: the
    cache afterwards is a part of the cache before, with the sizes it had,
    whether the call fails or not; the blobs of the layout and the calls
    logged are left as they are; and when [img.Layers()] fails nothing is
    touched at all. *)
Theorem CleanupInProgressLayers_only_removes (env : Env) (img : V1Image)
    (cacheDirectory : string) (w : World) :
  cache (disk (CleanupInProgressLayers env img cacheDirectory w).2) ⊆ cache (disk w)
  /\ blobs (disk (CleanupInProgressLayers env img cacheDirectory w).2) = blobs (disk w)
  /\ log (CleanupInProgressLayers env img cacheDirectory w).2 = log w
  /\ (forall e, img_Layers img = Err e ->
        CleanupInProgressLayers env img cacheDirectory w = (Some e, w)).
Proof.
  unfold CleanupInProgressLayers. destruct (img_Layers img) as [layers|e]; simpl.
  - split; [apply run_cleanup_subseteq|]. split; [done|]. split; [done|]. discriminate.
  - split; [done|]. split; [done|]. split; [done|]. by intros e' [= <-].
Qed.
(** ** Further properties: the repair of the blob names *)

Section RepairMore.
Variable env : Env.

(** *** Every file ends in the blob directory itself *)

Lemma rename_to_hash_flat (p : list string) (contents : string)
    (fs fs' : gmap (list string) Entry) :
  fs !! p = Some (File contents) ->
  rename_to_hash env p contents fs = WDone fs' ->
  forall q c, p `prefix_of` q -> reachable fs' q -> fs' !! q = Some (File c) ->
              q = [sha256_of env c].
Proof.
  intros Hp. unfold rename_to_hash.
  destruct (hashFault env p); [discriminate|].
  case_decide as Hself.
  - intros [= <-] q c Hpq Hr Hq.
    assert (q = p) as -> by (eapply reachable_below; [done..|congruence]).
    rewrite Hp in Hq. injection Hq as <-. exact Hself.
  - destruct p as [|n p]; [discriminate|].
    destruct (fs !! [sha256_of env contents]) as [[c0|]|] eqn:Ht; try discriminate.
    all: intros [= <-] q c Hpq Hr Hq;
         assert (q = n :: p) as ->
           by (eapply reachable_below; [done..|];
               rewrite lookup_insert_ne, lookup_delete_eq by done; discriminate);
         by rewrite lookup_insert_ne, lookup_delete_eq in Hq by done.
Qed.

Lemma walk_names_flat (visit : list string -> gmap (list string) Entry -> WalkResult)
    (p : list string) :
  (forall q fs fs', visit q fs = WDone fs' ->
     only_renamed env fs fs'
     /\ (forall r c, q `prefix_of` r -> reachable fs' r -> fs' !! r = Some (File c) ->
                     r = [sha256_of env c])) ->
  forall names fs fs',
    walk_names visit p names fs = WDone fs' ->
    only_renamed env fs fs'
    /\ (forall n r c, n ∈ names -> (p ++ [n]) `prefix_of` r -> reachable fs' r ->
                      fs' !! r = Some (File c) -> r = [sha256_of env c]).
Proof.
  intros Hvisit names. induction names as [|n names IH]; intros fs fs'; simpl.
  - intros [= <-]. split; [apply only_renamed_refl|]. by intros n r c ?%elem_of_nil.
  - destruct (visit (p ++ [n]) fs) as [fs1| |] eqn:Hv; try discriminate.
    intros Hrest. destruct (Hvisit _ _ _ Hv) as [Hr1 Hgood1].
    destruct (IH _ _ Hrest) as [Hr2 Hgood2].
    split; [by eapply only_renamed_trans|].
    intros m r c [->|Hin]%elem_of_cons Hpre Hreach Hfile; [|by eapply Hgood2].
    destruct Hr2 as [Hd2 Hf2]. destruct (Hf2 r c Hfile) as [Hold| ->].
    + eapply Hgood1; [done| |done]. eapply only_renamed_reachable; [|done]. by split.
    + reflexivity.
Qed.

Lemma walk_flat (fuel : nat) (p : list string) (fs fs' : gmap (list string) Entry) :
  walk env fuel p fs = WDone fs' ->
  only_renamed env fs fs'
  /\ (forall q c, p `prefix_of` q -> reachable fs' q -> fs' !! q = Some (File c) ->
                  q = [sha256_of env c]).
Proof.
  revert p fs fs'. induction fuel as [|fuel IH]; intros p fs fs'; simpl; [discriminate|].
  destruct (fs !! p) as [[contents|]|] eqn:Hp; try discriminate.
  - intros Hw. split; [by eapply rename_to_hash_spec | by eapply rename_to_hash_flat].
  - intros Hw. destruct (walk_names_flat _ p IH _ _ _ Hw) as [Hr Hgood].
    split; [done|]. intros q c [k ->] Hreach Hfile.
    destruct Hr as [Hd Hf].
    destruct k as [|n k].
    { rewrite app_nil_r in Hfile. apply Hd in Hp. congruence. }
    assert (Hcases : n ∈ readDirNames fs p \/ p ++ n :: k = [sha256_of env c]).
    { destruct k as [|n' k].
      - destruct (Hf _ _ Hfile) as [Hold|Hnew]; [left | by right].
        apply elem_of_readDirNames. by eexists.
      - left. apply elem_of_readDirNames. exists Directory. apply Hd.
        apply Hreach; [by exists (n' :: k); rewrite <- app_assoc|].
        intros Heq. apply (f_equal length) in Heq.
        rewrite !length_app in Heq. simpl in Heq. lia. }
    destruct Hcases as [Hin|Heq]; [|exact Heq].
    eapply Hgood; [exact Hin| |done..].
    exists k. by rewrite <- app_assoc.
Qed.

(** *** A blob directory in order is left as it is *)

Lemma reachable_child (fs : gmap (list string) Entry) (p : list string) (n : string) :
  reachable fs p -> fs !! p = Some Directory -> reachable fs (p ++ [n]).
Proof.
  intros Hr Hp q [k Hk] Hne.
  destruct (decide (q = p)) as [->|Hqp]; [done|].
  apply Hr; [|done].
  destruct k as [|x k] using rev_ind; [by rewrite app_nil_r in Hk|].
  rewrite app_assoc in Hk. apply app_inj_tail in Hk as [-> _]. by exists k.
Qed.

Lemma walk_names_fixed (visit : list string -> gmap (list string) Entry -> WalkResult)
    (p : list string) (fs : gmap (list string) Entry) (names : list string) :
  (forall n, n ∈ names -> visit (p ++ [n]) fs = WDone fs \/ visit (p ++ [n]) fs = WOutOfFuel) ->
  walk_names visit p names fs = WDone fs \/ walk_names visit p names fs = WOutOfFuel.
Proof.
  induction names as [|n names IH]; intros Hv; simpl; [by left|].
  destruct (Hv n) as [-> | ->]; [by left| |by right].
  apply IH. intros m Hm. apply Hv. by right.
Qed.

Lemma walk_fixed (fuel : nat) (p : list string) (fs : gmap (list string) Entry) :
  flat_by_hash env fs -> (forall q, hashFault env q = None) ->
  reachable fs p -> is_Some (fs !! p) ->
  walk env fuel p fs = WDone fs \/ walk env fuel p fs = WOutOfFuel.
Proof.
  intros Hflat Hfault. revert p.
  induction fuel as [|fuel IH]; intros p Hr [e Hp]; simpl; [by right|].
  rewrite Hp. destruct e as [contents|].
  - left. unfold rename_to_hash. rewrite Hfault.
    by rewrite decide_True by (by apply Hflat).
  - apply walk_names_fixed. intros n Hn. apply IH.
    + by apply reachable_child.
    + by apply elem_of_readDirNames.
Qed.

(** *** Contents are moved, never made *)

Lemma contents_kept_refl (fs : gmap (list string) Entry) : contents_kept fs fs.
Proof. split; [done|]. intros q c Hq. by exists q. Qed.

Lemma contents_kept_trans (fs1 fs2 fs3 : gmap (list string) Entry) :
  contents_kept fs1 fs2 -> contents_kept fs2 fs3 -> contents_kept fs1 fs3.
Proof.
  intros [Hd1 Hf1] [Hd2 Hf2]. split.
  - intros q. by rewrite Hd2, Hd1.
  - intros q c Hq. destruct (Hf2 q c Hq) as [q0 Hq0]. by apply (Hf1 q0).
Qed.

(** The file system a walk leaves. *)
Lemma rename_to_hash_kept (p : list string) (contents : string)
    (fs : gmap (list string) Entry) :
  fs !! p = Some (File contents) ->
  match rename_to_hash env p contents fs with
  | WDone fs' | WFailed _ fs' => contents_kept fs fs'
  | WOutOfFuel => True
  end.
Proof.
  intros Hp. unfold rename_to_hash.
  destruct (hashFault env p); [apply contents_kept_refl|].
  case_decide as Hself; [apply contents_kept_refl|].
  destruct p as [|n p]; [apply contents_kept_refl|].
  destruct (fs !! [sha256_of env contents]) as [[c0|]|] eqn:Ht;
    [|apply contents_kept_refl|].
  all: split.
  all: try (intros q; destruct (decide ([sha256_of env contents] = q)) as [<-|Hq1];
            [rewrite lookup_insert_eq, Ht; split; discriminate|];
            rewrite lookup_insert_ne by done;
            destruct (decide (n :: p = q)) as [<-|Hq2];
            [rewrite lookup_delete_eq, Hp; split; discriminate|];
            by rewrite lookup_delete_ne).
  all: intros q c; destruct (decide ([sha256_of env contents] = q)) as [<-|Hq1];
       [rewrite lookup_insert_eq; intros [= <-]; by exists (n :: p)|];
       rewrite lookup_insert_ne by done;
       destruct (decide (n :: p = q)) as [<-|Hq2];
       [by rewrite lookup_delete_eq|];
       rewrite lookup_delete_ne by done; intros Hq; by exists q.
Qed.

Lemma walk_names_kept (visit : list string -> gmap (list string) Entry -> WalkResult)
    (p : list string) :
  (forall q fs, match visit q fs with
                | WDone fs' | WFailed _ fs' => contents_kept fs fs'
                | WOutOfFuel => True
                end) ->
  forall names fs,
    match walk_names visit p names fs with
    | WDone fs' | WFailed _ fs' => contents_kept fs fs'
    | WOutOfFuel => True
    end.
Proof.
  intros Hvisit names. induction names as [|n names IH]; intros fs; simpl.
  - apply contents_kept_refl.
  - pose proof (Hvisit (p ++ [n]) fs) as Hv.
    destruct (visit (p ++ [n]) fs) as [fs1|msg fs1|]; [|done..].
    specialize (IH fs1).
    destruct (walk_names visit p names fs1); [| |done]; by eapply contents_kept_trans.
Qed.

Lemma walk_kept (fuel : nat) (p : list string) (fs : gmap (list string) Entry) :
  match walk env fuel p fs with
  | WDone fs' | WFailed _ fs' => contents_kept fs fs'
  | WOutOfFuel => True
  end.
Proof.
  revert p fs. induction fuel as [|fuel IH]; intros p fs; simpl; [done|].
  destruct (fs !! p) as [[contents|]|] eqn:Hp.
  - by apply rename_to_hash_kept.
  - by apply walk_names_kept.
  - apply contents_kept_refl.
Qed.

(** A blob directory in which every file that can be reached lies in the
    directory itself, under the hash of its contents, is left as it is. *)
Lemma repairBlobs_fixed (w : World) :
  (forall q, hashFault env q = None) ->
  flat_by_hash env (blobs (disk w)) -> is_Some (blobs (disk w) !! []) ->
  (repairBlobs env w).1 = None
  /\ blobs (disk (repairBlobs env w).2) = blobs (disk w).
Proof.
  intros Hfault Hflat Hroot. unfold repairBlobs.
  destruct (walk_fixed (walk_fuel (blobs (disk w))) [] (blobs (disk w)) Hflat Hfault)
    as [-> | Hout]; [|done|by split|].
  - intros q [k Hk] Hne. destruct q; [done|discriminate Hk].
  - by destruct (repairBlobs_ends env w).
Qed.

End RepairMore.

(** X14: after a repair that succeeds no file that can be reached is left
    below a directory of [blobs/sha256]: every such file is an entry of
    [blobs/sha256] itself, and its name is the hash of its contents. *)
Theorem repairBlobs_flattens (env : Env) (w w' : World) :
  repairBlobs env w = (None, w') -> flat_by_hash env (blobs (disk w')).
Proof.
  unfold repairBlobs.
  destruct (walk env _ [] (blobs (disk w))) as [fs'| |] eqn:Hw; try discriminate.
  intros [= <-]. simpl. destruct (walk_flat env _ _ _ _ Hw) as [_ Hgood].
  intros p c Hr Hf. eapply Hgood; [|done..]. apply prefix_nil.
Qed.

Lemma repairBlobs_flattens_witness :
  let w := {| log := []; disk := {| blobs := mixed_blobs; cache := ∅ |}; tick := 0 |} in
  (repairBlobs env_ok w).1 = None
  /\ blobs (disk (repairBlobs env_ok w).2) !! ["tmp"; "part"] = None
  /\ blobs (disk (repairBlobs env_ok w).2) !! ["h-manifest"] = Some (File "manifest")
  /\ flat_by_hash env_ok (blobs (disk (repairBlobs env_ok w).2)).
Proof.
  intros w.
  assert (Hok : (repairBlobs env_ok w).1 = None) by (vm_compute; reflexivity).
  split; [exact Hok|]. split; [vm_compute; reflexivity|]. split; [vm_compute; reflexivity|].
  destruct (repairBlobs env_ok w) as [err w'] eqn:Hr. simpl in Hok. subst err.
  exact (repairBlobs_flattens env_ok w w' Hr).
Defined.

(** X15: the repair is idempotent: on the blobs a repair that succeeded
    has left, a second repair, when hashing meets no error, succeeds as well
    and changes nothing. *)
Theorem repairBlobs_idempotent (env : Env) (w w1 : World) :
  (forall q, hashFault env q = None) ->
  repairBlobs env w = (None, w1) ->
  (repairBlobs env w1).1 = None
  /\ blobs (disk (repairBlobs env w1).2) = blobs (disk w1).
Proof.
  intros Hfault Hrep.
  assert (Hflat : flat_by_hash env (blobs (disk w1))).
  { unfold repairBlobs in Hrep.
    destruct (walk env _ [] (blobs (disk w))) as [fs'| |] eqn:Hw; try discriminate.
    injection Hrep as <-. simpl. destruct (walk_flat env _ _ _ _ Hw) as [_ Hgood].
    intros p c Hr Hf. eapply Hgood; [|done..]. apply prefix_nil. }
  assert (Hroot : is_Some (blobs (disk w1) !! [])).
  { unfold repairBlobs in Hrep.
    destruct (walk env _ [] (blobs (disk w))) as [fs'| |] eqn:Hw; try discriminate.
    injection Hrep as <-. simpl. destruct (walk_flat env _ _ _ _ Hw) as [[Hd _] _].
    exists Directory. apply Hd.
    unfold walk_fuel in Hw. simpl in Hw.
    destruct (blobs (disk w) !! []) as [[c|]|]; [|done|discriminate].
    unfold rename_to_hash in Hw. destruct (hashFault env []); [discriminate|].
    rewrite decide_False in Hw by discriminate. discriminate. }
  by apply repairBlobs_fixed.
Qed.

Lemma repairBlobs_idempotent_witness :
  let w := {| log := []; disk := {| blobs := mixed_blobs; cache := ∅ |}; tick := 0 |} in
  (forall q, hashFault env_ok q = None)
  /\ (repairBlobs env_ok w).1 = None
  /\ (repairBlobs env_ok (repairBlobs env_ok w).2).1 = None.
Proof.
  intros w.
  assert (Hfault : forall q, hashFault env_ok q = None) by reflexivity.
  assert (Hok : (repairBlobs env_ok w).1 = None) by (vm_compute; reflexivity).
  split; [exact Hfault|]. split; [exact Hok|].
  destruct (repairBlobs env_ok w) as [err w1] eqn:Hr. simpl in Hok. subst err.
  exact (proj1 (repairBlobs_idempotent env_ok w w1 Hfault Hr)).
Defined.

(** X16: the repair makes no contents and loses no directory: whether it
    succeeds or fails on its way, the directories below [blobs/sha256] are
    the ones there were, every file it leaves has the contents of a file
    that was there before, and the cache and the calls logged are as they
    were. *)
Theorem repairBlobs_keeps_contents (env : Env) (w : World) :
  contents_kept (blobs (disk w)) (blobs (disk (repairBlobs env w).2))
  /\ cache (disk (repairBlobs env w).2) = cache (disk w)
  /\ log (repairBlobs env w).2 = log w.
Proof.
  unfold repairBlobs.
  pose proof (walk_kept env (walk_fuel (blobs (disk w))) [] (blobs (disk w))) as Hk.
  destruct (walk env _ [] (blobs (disk w))) as [fs'|msg fs'|]; simpl.
  - by split.
  - by split.
  - split; [apply contents_kept_refl | done].
Qed.
(** ** Further properties: errors of the size, cancellation, failed fetches *)

Section SizeErrors.

Lemma add_layer_sizes_ok (layers : list Layer) (t : Z) :
  (is_ok (add_layer_sizes layers t) = true
   <-> Forall (fun l => is_ok (layer_Size l) = true) layers)
  /\ (forall e, add_layer_sizes layers t = Err e ->
        exists pre l post, layers = pre ++ l :: post
          /\ Forall (fun l => is_ok (layer_Size l) = true) pre
          /\ layer_Size l = Err e).
Proof.
  revert t. induction layers as [|l layers IH]; intros t; simpl.
  - split; [split; [constructor | done] | discriminate].
  - destruct (layer_Size l) as [size|e0] eqn:Hl.
    + destruct (IH (add64 t size)) as [Hiff Herr]. split.
      * rewrite Hiff. split; [intros H; constructor; [by rewrite Hl | done]|].
        by intros [_ H]%Forall_cons.
      * intros e He. destruct (Herr e He) as (pre & l' & post & -> & Hpre & Hl').
        exists (l :: pre), l', post. split; [done|]. split; [|done].
        constructor; [by rewrite Hl | done].
    + split.
      * split; [discriminate|]. intros [H _]%Forall_cons. by rewrite Hl in H.
      * intros e [= <-]. exists [], l, layers. split; [done|]. split; [constructor | done].
Qed.

End SizeErrors.

(** X17: [getSizeOfImage] returns a size exactly when [img.Size()],
    [img.Manifest()], [img.Layers()] and the [Size()] of every layer
    succeed; otherwise it returns, unchanged, the error of the first of
    these calls that fails: the layers are asked in their order, and none
    after the one that fails. *)
Theorem getSizeOfImage_errors (img : V1Image) :
  (is_ok (getSizeOfImage img) = true
   <-> exists m mf layers,
         img_Size img = Ok m /\ img_Manifest img = Ok mf /\ img_Layers img = Ok layers
         /\ Forall (fun l => is_ok (layer_Size l) = true) layers)
  /\ (forall e, getSizeOfImage img = Err e ->
        img_Size img = Err e
        \/ (is_ok (img_Size img) = true /\ img_Manifest img = Err e)
        \/ (is_ok (img_Size img) = true /\ is_ok (img_Manifest img) = true
            /\ img_Layers img = Err e)
        \/ (exists pre l post,
              is_ok (img_Size img) = true /\ is_ok (img_Manifest img) = true
              /\ img_Layers img = Ok (pre ++ l :: post)
              /\ Forall (fun l => is_ok (layer_Size l) = true) pre
              /\ layer_Size l = Err e)).
Proof.
  unfold getSizeOfImage.
  destruct (img_Size img) as [m|e0].
  2:{ split; [split; [discriminate|]|].
      - intros (? & ? & ? & ? & _). discriminate.
      - intros e [= <-]. by left. }
  destruct (img_Manifest img) as [mf|e0].
  2:{ split; [split; [discriminate|]|].
      - intros (? & ? & ? & _ & ? & _). discriminate.
      - intros e [= <-]. right. left. by split. }
  destruct (img_Layers img) as [layers|e0].
  2:{ split; [split; [discriminate|]|].
      - intros (? & ? & ? & _ & _ & ? & _). discriminate.
      - intros e [= <-]. right. right. left. by repeat split. }
  destruct (add_layer_sizes_ok layers (add64 (add64 0 m) (Config_Size mf))) as [Hiff Herr].
  split.
  - rewrite Hiff. split.
    + intros H. by exists m, mf, layers.
    + intros (? & ? & ? & _ & _ & [= <-] & H). exact H.
  - intros e He. destruct (Herr e He) as (pre & l & post & -> & Hpre & Hl).
    right. right. right. exists pre, l, post. by repeat split.
Qed.

Section Cancelled.
Variable env : Env.
Variable cacheDirectory : string.
Hypothesis cancelled : forall n, ctxDone env n = true.

Lemma save_fold_cancelled (order : list (Image * V1Image)) (first : error)
    (saved : gmap Image V1Image) (w : World) :
  exists first',
    foldl (save_step env cacheDirectory) (first, saved, w) order = (first', saved, w)
    /\ (first' = None <-> first = None /\ order = []).
Proof.
  revert first. induction order as [|kv order IH]; intros first; simpl.
  - exists first. split; [done|]. split; [by intros -> | by intros [-> _]].
  - unfold ctx_done. rewrite cancelled, orb_true_r. simpl.
    destruct (IH (keep_first first (Some "context canceled"))) as (first' & -> & Hiff).
    exists first'. split; [done|]. rewrite Hiff. split.
    + intros [H _]. by destruct first.
    + by intros [_ ?].
Qed.

End Cancelled.

(** X18: when the context is done, [SaveConcurrent] writes nothing: no
    goroutine calls the layout, no image is handed back as saved, the disk
    is as it was, and an error is returned unless there was no image to
    save. *)
Theorem SaveConcurrent_cancelled (env : Env) (cacheDirectory : string)
    (m : gmap Image V1Image) (w : World) :
  (forall n, ctxDone env n = true) ->
  (SaveConcurrent env m cacheDirectory w).1.1 = ∅
  /\ new_events w (SaveConcurrent env m cacheDirectory w).2 = []
  /\ disk (SaveConcurrent env m cacheDirectory w).2 = disk w
  /\ ((SaveConcurrent env m cacheDirectory w).1.2 = None <-> m = ∅).
Proof.
  intros Hc. unfold SaveConcurrent, next_sched. cbv beta iota.
  match goal with |- context [foldl ?f (?a, ?b, ?c) ?l] =>
    destruct (save_fold_cancelled env cacheDirectory Hc l a b c) as (first' & Hf & Hiff);
    destruct (foldl f (a, b, c) l) as [[first saved] w'] eqn:Hfold end.
  match type of Hf with ?t = _ =>
    assert (Hf2 : t = (first, saved, w')) by exact Hfold; rewrite Hf2 in Hf end.
  injection Hf as -> -> ->. simpl.
  split; [done|]. split; [|split; [done|]].
  - unfold new_events. simpl. by rewrite drop_all.
  - rewrite Hiff. split.
    + intros [_ Hnil]. apply map_to_list_empty_iff.
      apply Permutation_nil_r. by rewrite <- (shuffle_perm (sched env (tick w))), Hnil.
    + intros ->. split; [done|]. by rewrite map_to_list_empty.
Qed.

Lemma SaveConcurrent_cancelled_witness :
  let env := env_full (fun _ _ => Ok imageDescriptor) (fun _ _ => Ok rawAB)
               (fun _ _ _ d => (None, d)) (fun _ _ d => (None, d)) in
  let env' := {| IsIndex := IsIndex env; IsLayer := IsLayer env;
                 json_Unmarshal := json_Unmarshal env; GOOS_windows := GOOS_windows env;
                 filepath_Join := filepath_Join env; sha256_of := sha256_of env;
                 hashFault := hashFault env; statFault := statFault env;
                 removeFault := removeFault env; sched := sched env;
                 ctxDone := fun _ => true;
                 createDirectory := createDirectory env; layoutWrite := layoutWrite env;
                 craneLoad := craneLoad env; parseReference := parseReference env;
                 craneGet := craneGet env; cranePull := cranePull env;
                 dockerEndpointHost := dockerEndpointHost env;
                 dockerNewClient := dockerNewClient env; dockerInspect := dockerInspect env;
                 daemonImage := daemonImage env; partialDescriptor := partialDescriptor env;
                 writeImage := writeImage env; appendDescriptor := appendDescriptor env;
                 appendImage := appendImage env |} in
  (forall n, ctxDone env' n = true)
  /\ new_events world0
       (SaveConcurrent env' {[ nginx := plain_Image rawAB ]} "/cache" world0).2 = [].
Proof.
  intros env env'.
  assert (H : forall n, ctxDone env' n = true) by reflexivity.
  split; [exact H|].
  exact (proj1 (proj2 (SaveConcurrent_cancelled env' "/cache"
                         {[ nginx := plain_Image rawAB ]} world0 H))).
Defined.

(** X19: nothing is saved unless every reference was fetched: when a
    goroutine of the fetch phase fails, [Pull] returns the first such
    error and has made no call to the layout for any image. *)
Theorem Pull_fetch_error_saves_nothing (env : Env) (cfg : PullConfig) (w : World)
    (e : string) :
  let dest := DestinationDirectory cfg in
  createDirectory env (calls (EvCreateDirectory dest) w) dest = None ->
  layoutWrite env (calls (EvLayoutWrite dest) (log_ev (EvCreateDirectory dest) w)) dest
  = None ->
  (fetchAll env cfg (log_ev (EvLayoutWrite dest) (log_ev (EvCreateDirectory dest) w))).1.1
  = Some e ->
  (Pull env cfg w).1 = Err e
  /\ omap save_key (new_events w (Pull env cfg w).2) = [].
Proof.
  intros dest Hc Hl Hf. unfold Pull. fold dest. rewrite Hc, Hl.
  match type of Hf with (fetchAll env cfg ?w0).1.1 = _ =>
    assert (Hlog : exists evs, log (fetchAll env cfg w0).2 = log w0 ++ evs
                     /\ Forall (fun e => save_key e = None) evs);
    [|destruct (fetchAll env cfg w0) as [[err st] w1]] end.
  { unfold fetchAll, next_sched. cbv beta iota.
    match goal with |- context [foldl ?f (?a, ?b, ?c) ?l] =>
      destruct (fetch_fold env cfg l a b c) as ((evs & Hlog & _ & _ & Hns) & _) end.
    by exists evs. }
  simpl in Hf. subst err. destruct Hlog as (evs & Hlog & Hns). simpl in Hlog.
  simpl. split; [done|].
  assert (Hev : new_events w w1 = [EvCreateDirectory dest; EvLayoutWrite dest] ++ evs).
  { apply new_events_app. rewrite Hlog. by rewrite <- !app_assoc. }
  rewrite Hev, omap_app. simpl.
  clear -Hns. induction Hns as [|x l Hx _ IH]; [done|]. simpl. by rewrite Hx.
Qed.

Lemma Pull_fetch_error_saves_nothing_witness :
  createDirectory env_429_always
    (calls (EvCreateDirectory "/tmp/zarf/images") world0) "/tmp/zarf/images" = None
  /\ is_ok (Pull env_429_always (cfg_of [nginx; alpine] "/cache") world0).1 = false
  /\ omap save_key
       (new_events world0 (Pull env_429_always (cfg_of [nginx; alpine] "/cache") world0).2)
     = [].
Proof.
  assert (Hc : createDirectory env_429_always
                 (calls (EvCreateDirectory "/tmp/zarf/images") world0) "/tmp/zarf/images"
               = None) by reflexivity.
  split; [exact Hc|].
  destruct (Pull_fetch_error_saves_nothing env_429_always (cfg_of [nginx; alpine] "/cache")
              world0 ("rate limited by registry: " +:+ rateLimited) Hc
              ltac:(reflexivity) ltac:(vm_compute; reflexivity)) as [Herr Hnone].
  split; [by rewrite Herr | exact Hnone].
Defined.
(** ** Further properties: the logger of the root command, and what is
    written to the layout *)

Section LoggerMore.
Import Root.

Lemma SetupMessage_logger cmd cfg g :
  defaultLogger (SetupMessage cmd cfg g).2 = defaultLogger g.
Proof.
  unfold SetupMessage. destruct (FeatureDisabled cfg); [reflexivity|].
  destruct (String.eqb (Level cfg) "").
  - destruct (String.eqb (envCI cmd) "true"), (cfgSkipLogFile cfg); try reflexivity;
      destruct (createTemp cmd); try reflexivity; destruct (useLogFile cmd); reflexivity.
  - destruct (message_level (Level cfg)); [|reflexivity].
    destruct (String.eqb (envCI cmd) "true"), (cfgSkipLogFile cfg); try reflexivity;
      destruct (createTemp cmd); try reflexivity; destruct (useLogFile cmd); reflexivity.
Qed.

(** X20: the logger [preRun] installs.  For a vendor-only command none
    is installed.  Otherwise the level is [--log-level], and [info] when
    that is empty; when the level cannot be parsed or the logger cannot be
    made, [preRun] returns this error and has changed nothing but the
    insecure options: no logger is installed, progress output, message
    level and logging are as before; else the default logger has this
    level, the format [--log-format] and colours unless [--no-color], also
    when a later step of [preRun] fails. *)
Theorem preRun_logger (cmd : Command) (g : Globals) :
  let level := if String.eqb (LogLevelCLI g) "" then "info" else LogLevelCLI g in
  let g' := (preRun cmd g).2 in
  if vendorOnly cmd then (preRun cmd g).1 = None /\ defaultLogger g' = defaultLogger g
  else
    match parseLevel cmd level, newLogger cmd with
    | Some e, _ | None, Some e =>
        (preRun cmd g).1 = Some e
        /\ g' = (if Insecure (CommonOpts g)
                 then set_common (forced_insecure (CommonOpts g)) g else g)
    | None, None =>
        defaultLogger g' = Some (level, LogFormat g, negb (NoColor g))
    end.
Proof.
  unfold preRun.
  set (g0 := if Insecure (CommonOpts g) then _ else g).
  assert (Hg0 : LogLevelCLI g0 = LogLevelCLI g /\ LogFormat g0 = LogFormat g
                /\ NoColor g0 = NoColor g /\ defaultLogger g0 = defaultLogger g).
  { subst g0. destruct (Insecure (CommonOpts g)); repeat split. }
  destruct Hg0 as (Hl & Hf & Hc & Hd). clearbody g0. cbv zeta.
  destruct (vendorOnly cmd); [by split|].
  unfold setupLogger. rewrite Hl, Hf, Hc.
  destruct (parseLevel cmd _) as [e|]; [by split|].
  destruct (newLogger cmd) as [e|]; [by split|].
  match goal with |- context [SetupMessage cmd ?c ?gg] =>
    pose proof (SetupMessage_logger cmd c gg) as Hsm;
    destruct (SetupMessage cmd c gg) as [[e|] g3] end; simpl in Hsm.
  - simpl. rewrite Hsm. simpl. destruct (String.eqb _ "legacy"); reflexivity.
  - destruct (printViperConfigUsed cmd); simpl; rewrite Hsm; simpl;
      destruct (String.eqb _ "legacy"); reflexivity.
Qed.

End LoggerMore.

Section Measured.
Variable env : Env.
Variable cacheDirectory : string.

(** The goroutine of an image calls the layout only after it has got the
    descriptor and the size of the image. *)
Lemma saveWorker_measured (cancelled : bool) (info : Image) (img : V1Image)
    (saved : gmap Image V1Image) (w : World) :
  exists evs,
    log (saveWorker env cacheDirectory cancelled info img saved w).2 = log w ++ evs
    /\ (forall i, i ∈ omap save_key evs ->
          i = info /\ partialDescriptor env img = None
          /\ is_ok (getSizeOfImage img) = true).
Proof.
  unfold saveWorker.
  destruct cancelled;
    [exists []; rewrite app_nil_r; split; [done | by intros i ?%elem_of_nil]|].
  destruct (partialDescriptor env img) eqn:Hp;
    [exists []; rewrite app_nil_r; split; [done | by intros i ?%elem_of_nil]|].
  destruct (getSizeOfImage img) eqn:Hs;
    [|exists []; rewrite app_nil_r; split; [done | by intros i ?%elem_of_nil]].
  destruct (saveWorker_events env cacheDirectory false info img saved w)
    as (evs & Hlog & Hone & _).
  unfold saveWorker in Hlog. rewrite Hp, Hs in Hlog.
  exists evs. split; [exact Hlog|]. intros i Hi. by rewrite (Hone i Hi).
Qed.

Lemma save_fold_measured (order : list (Image * V1Image)) (first : error)
    (saved : gmap Image V1Image) (w : World) :
  exists evs,
    log (foldl (save_step env cacheDirectory) (first, saved, w) order).2 = log w ++ evs
    /\ (forall i, i ∈ omap save_key evs ->
          exists img, (i, img) ∈ order /\ partialDescriptor env img = None
                      /\ is_ok (getSizeOfImage img) = true).
Proof.
  revert first saved w. induction order as [|[info img] order IH]; intros first saved w.
  - exists []. rewrite app_nil_r. split; [done | by intros i ?%elem_of_nil].
  - simpl.
    destruct (saveWorker_measured (bool_decide (is_Some first) || ctx_done env w)
                info img saved w) as (evs1 & Hlog1 & Hm1).
    destruct (saveWorker env cacheDirectory _ info img saved w) as [[err saved1] w1].
    simpl in *.
    destruct (IH (keep_first first err) saved1 w1) as (evs2 & Hlog2 & Hm2).
    exists (evs1 ++ evs2). rewrite Hlog2, Hlog1, <- app_assoc. split; [done|].
    intros i. rewrite omap_app, elem_of_app. intros [Hi|Hi].
    + destruct (Hm1 i Hi) as (-> & Hp & Hs). exists img. split; [by left | done].
    + destruct (Hm2 i Hi) as (img' & Hin & Hp & Hs). exists img'.
      split; [by right | done].
Qed.

Lemma saveSequential_loop_measured (order : list (Image * V1Image))
    (saved : gmap Image V1Image) (w : World) :
  exists evs,
    log (saveSequential_loop env cacheDirectory order saved w).2 = log w ++ evs
    /\ (forall i, i ∈ omap save_key evs ->
          exists img, (i, img) ∈ order /\ is_ok (getSizeOfImage img) = true).
Proof.
  revert saved w. induction order as [|[info img] order IH]; intros saved w.
  - exists []. rewrite app_nil_r. split; [done | by intros i ?%elem_of_nil].
  - simpl. destruct (getSizeOfImage img) eqn:Hsize.
    2:{ exists []. rewrite app_nil_r. split; [done | by intros i ?%elem_of_nil]. }
    unfold do_appendImage.
    destruct (appendImage env _ info img (disk w)) as [[e|] d].
    + rewrite bool_decide_eq_false_2 by done. simpl.
      match goal with |- context [cleanup_after_failure env img cacheDirectory ?w0] =>
        destruct (cleanup_after_failure_log env cacheDirectory img w0) as [-> | ->] end;
        unfold log_ev; cbn [log]; rewrite <- ?app_assoc; cbn [app];
        eexists; (split; [reflexivity|]); intros i Hi; simpl in Hi;
        apply list_elem_of_singleton in Hi as ->; exists img;
        (split; [by left | by rewrite Hsize]).
    + rewrite bool_decide_eq_true_2 by done.
      match goal with |- context [saveSequential_loop env cacheDirectory order ?s1 ?w1] =>
        destruct (IH s1 w1) as (evs2 & Hlog2 & Hm2) end.
      exists (EvAppendImage info true :: evs2). rewrite Hlog2.
      unfold log_ev; cbn [log]. rewrite <- app_assoc. split; [done|].
      intros i Hi. simpl in Hi. apply elem_of_cons in Hi as [->|Hi].
      * exists img. split; [by left | by rewrite Hsize].
      * destruct (Hm2 i Hi) as (img' & Hin & Hs). exists img'. split; [by right | done].
Qed.

End Measured.

(** X21: [SaveConcurrent] and [SaveSequential] call the layout only for
    images of the map they were given, and only for an image whose size
    [getSizeOfImage] could tell ([SaveConcurrent]: and whose descriptor
    [partial.Descriptor] could give): an image that cannot be measured is
    never written. *)
Theorem save_writes_measured_images (env : Env) (cacheDirectory : string)
    (m : gmap Image V1Image) (w : World) (i : Image) :
  (i ∈ omap save_key (new_events w (SaveConcurrent env m cacheDirectory w).2) ->
   exists img, m !! i = Some img /\ partialDescriptor env img = None
               /\ is_ok (getSizeOfImage img) = true)
  /\ (i ∈ omap save_key (new_events w (SaveSequential env m cacheDirectory w).2) ->
      exists img, m !! i = Some img /\ is_ok (getSizeOfImage img) = true).
Proof.
  split.
  - unfold SaveConcurrent, next_sched. cbv beta iota.
    match goal with |- context [foldl ?f (?a, ?b, ?c) ?l] =>
      destruct (save_fold_measured env cacheDirectory l a b c) as (evs & Hlog & Hm);
      destruct (foldl f (a, b, c) l) as [[first saved] w'] eqn:Hfold end.
    match type of Hlog with log (?t).2 = _ =>
      assert (Hf2 : t = (first, saved, w')) by exact Hfold; rewrite Hf2 in Hlog end.
    simpl in *. rewrite (new_events_app w w' evs Hlog).
    intros Hi. destruct (Hm i Hi) as (img & Hin & Hp & Hs). exists img.
    split; [|done]. rewrite shuffle_perm in Hin. by apply elem_of_map_to_list in Hin.
  - unfold SaveSequential, next_sched. cbv beta iota.
    match goal with |- context [saveSequential_loop env cacheDirectory ?l ?s ?w0] =>
      destruct (saveSequential_loop_measured env cacheDirectory l s w0) as (evs & Hlog & Hm)
    end.
    simpl in Hlog. rewrite (new_events_app w _ evs Hlog).
    intros Hi. destruct (Hm i Hi) as (img & Hin & Hs). exists img.
    split; [|done]. rewrite shuffle_perm in Hin. by apply elem_of_map_to_list in Hin.
Qed.
